(** * FastGraphics: a shallow embedding of the rendering engine

    The development follows [lib/Fast_Graphics/FastGraphics.cpp].  The
    engine's static variables become the record [Engine]; the framebuffer
    is the external array the engine writes through its [frame_buffer]
    pointer, a [list Z] of [LCD_H_RES * LCD_V_RES] colour cells in row-major
    physical order.  No drawing routine ever reads the framebuffer, so a
    routine is modelled by the sequence of stores it performs, in program
    order; [exec] replays such a sequence on the array. *)

From Stdlib Require Import ZArith Lia List Bool.
From stdpp Require Import base tactics option list list_numbers.
Import ListNotations.
Local Open Scope Z_scope.

(** ** Fixed-width integers

    [int16_t] and [uint8_t] values are integers in the range of the type.
    Arithmetic is done in [int] (32 bits, never overflowing on the operands
    that occur here) and converted back when it is assigned to a narrower
    variable or passed as a narrower argument; the conversion wraps. *)

Module Int.

Definition int16 (z : Z) : Z := (z + 32768) mod 65536 - 32768.
Definition uint8 (z : Z) : Z := z mod 256.

Definition in_int16 (z : Z) : Prop := -32768 <= z <= 32767.

Lemma int16_range z : in_int16 (int16 z).
Proof. unfold in_int16, int16. pose proof (Z.mod_pos_bound (z + 32768) 65536). lia. Qed.

Lemma int16_id z : in_int16 z -> int16 z = z.
Proof. unfold in_int16, int16. intros H. rewrite Z.mod_small; lia. Qed.

(** Two integers with the same 16-bit representation convert alike. *)
Lemma int16_congr a b k : a = b + 65536 * k -> int16 a = int16 b.
Proof.
  intros ->. unfold int16. f_equal.
  replace (b + 65536 * k + 32768) with (b + 32768 + k * 65536) by lia.
  apply Z_mod_plus_full.
Qed.

Lemma int16_diff z : exists k, int16 z = z + 65536 * k.
Proof.
  unfold int16. exists (- ((z + 32768) / 65536)).
  pose proof (Z_div_mod_eq_full (z + 32768) 65536). lia.
Qed.

End Int.
Import Int.

(** ** Configuration ([display_config.h], [FastGraphics.h]) *)

Definition LCD_H_RES : Z := 800.
Definition LCD_V_RES : Z := 480.

Inductive ScreenRotation : Set :=
  | ROTATION_0     (* landscape, 800x480 *)
  | ROTATION_90    (* portrait, 480x800 *)
  | ROTATION_180   (* landscape flipped *)
  | ROTATION_270.  (* portrait flipped *)

Definition COLOR_BLACK : Z := 0x0000.
Definition COLOR_WHITE : Z := 0xFFFF.
Definition COLOR_RED   : Z := 0xF800.

(** ** Engine state: the static variables of [FastGraphics] *)

Record Engine : Set := mkEngine {
  current_rotation : ScreenRotation;
  display_width : Z;
  display_height : Z;
  cursor_x : Z;
  cursor_y : Z;
  text_color : Z;
  text_bg_color : Z;
  text_size : Z;
  text_wrap : bool;
  text_area_x : Z;
  text_area_y : Z;
  text_area_w : Z;
  text_area_h : Z;
  line_spacing : Z
}.

(** ** Framebuffer stores *)

(** [frame_buffer[addr] = val] *)
Record store : Set := Store { addr : Z; val : Z }.

(** A store inside the array updates one cell.  A store outside it is
    undefined behaviour in C; here it leaves the array as it is, and
    [in_buffer] below is the property that it never happens. *)
Definition write_cell (fb : list Z) (s : store) : list Z :=
  if (0 <=? addr s) && (addr s <? Z.of_nat (length fb))
  then <[Z.to_nat (addr s) := val s]> fb
  else fb.

Definition exec (tr : list store) (fb : list Z) : list Z := fold_left write_cell tr fb.

Definition in_buffer (s : store) : Prop := 0 <= addr s < LCD_H_RES * LCD_V_RES.

(** Index of the physical cell in column [px] of row [py]. *)
Definition cell (px py : Z) : Z := py * LCD_H_RES + px.

(** ** Library initialization *)

Definition begin : Engine :=
  {| current_rotation := ROTATION_0;
     display_width := LCD_H_RES;
     display_height := LCD_V_RES;
     cursor_x := 0;
     cursor_y := 0;
     text_color := COLOR_WHITE;
     text_bg_color := COLOR_BLACK;
     text_size := 1;
     text_wrap := true;
     text_area_x := 0;
     text_area_y := 0;
     text_area_w := LCD_H_RES;
     text_area_h := LCD_V_RES;
     line_spacing := 2 |}.

(** ** Screen rotation *)

Definition setRotation (e : Engine) (rotation : ScreenRotation) : Engine :=
  let '(w, h) :=
    match rotation with
    | ROTATION_0 | ROTATION_180 => (LCD_H_RES, LCD_V_RES)
    | ROTATION_90 | ROTATION_270 => (LCD_V_RES, LCD_H_RES)
    end in
  {| current_rotation := rotation;
     display_width := w;
     display_height := h;
     cursor_x := cursor_x e;
     cursor_y := cursor_y e;
     text_color := text_color e;
     text_bg_color := text_bg_color e;
     text_size := text_size e;
     text_wrap := text_wrap e;
     text_area_x := text_area_x e;
     text_area_y := text_area_y e;
     text_area_w := w;
     text_area_h := h;
     line_spacing := line_spacing e |}.

Definition getRotation (e : Engine) : ScreenRotation := current_rotation e.
Definition getWidth (e : Engine) : Z := display_width e.
Definition getHeight (e : Engine) : Z := display_height e.

(** ** Coordinate transformation *)

Definition transformCoordinates (e : Engine) (x y : Z) : Z * Z :=
  let temp_x := x in
  let temp_y := y in
  match current_rotation e with
  | ROTATION_0 => (x, y)
  | ROTATION_90 => (int16 (LCD_H_RES - 1 - temp_y), temp_x)
  | ROTATION_180 => (int16 (LCD_H_RES - 1 - temp_x), int16 (LCD_V_RES - 1 - temp_y))
  | ROTATION_270 => (temp_y, int16 (LCD_V_RES - 1 - temp_x))
  end.

(** ** Single pixel *)

Definition pixel (e : Engine) (x y color : Z) : list store :=
  if (0 <=? x) && (x <? display_width e) && (0 <=? y) && (y <? display_height e) then
    let '(x, y) := transformCoordinates e x y in
    if (0 <=? x) && (x <? LCD_H_RES) && (0 <=? y) && (y <? LCD_V_RES)
    then [Store (y * LCD_H_RES + x) color]
    else []
  else [].

(** ** Filled rectangle *)

(** [while (pixels >= 4) { four stores; pixels -= 4; }]: returns the stores,
    and the pointer and the count the loop leaves behind.  The count drops
    by four each round, so [Z.to_nat pixels] rounds are always enough. *)
Fixpoint unrolled_loop (rounds : nat) (ptr pixels color : Z) : list store * (Z * Z) :=
  match rounds with
  | O => ([], (ptr, pixels))
  | S rounds =>
      if pixels >=? 4 then
        let '(tr, rest) := unrolled_loop rounds (ptr + 4) (pixels - 4) color in
        (Store ptr color :: Store (ptr + 1) color :: Store (ptr + 2) color
           :: Store (ptr + 3) color :: tr, rest)
      else ([], (ptr, pixels))
  end.

(** [while (pixels > 0) { *ptr++ = color; pixels--; }] *)
Fixpoint remaining_loop (rounds : nat) (ptr pixels color : Z) : list store :=
  match rounds with
  | O => []
  | S rounds =>
      if pixels >? 0
      then Store ptr color :: remaining_loop rounds (ptr + 1) (pixels - 1) color
      else []
  end.

(** One scanline of the unrotated path, starting at cell [ptr]. *)
Definition scanline (ptr w color : Z) : list store :=
  let '(tr, (ptr, pixels)) := unrolled_loop (Z.to_nat w) ptr w color in
  tr ++ remaining_loop (Z.to_nat pixels) ptr pixels color.

Definition fillRect (e : Engine) (x y w h color : Z) : list store :=
  if (x >=? display_width e) || (y >=? display_height e) || (w <=? 0) || (h <=? 0)
  then []
  else
    let '(w, x) := if x <? 0 then (int16 (w + x), 0) else (w, x) in
    let '(h, y) := if y <? 0 then (int16 (h + y), 0) else (h, y) in
    let w := if x + w >? display_width e then int16 (display_width e - x) else w in
    let h := if y + h >? display_height e then int16 (display_height e - y) else h in
    match current_rotation e with
    | ROTATION_0 =>
        row ← seqZ 0 h;
        scanline ((y + row) * LCD_H_RES + x) w color
    | _ =>
        row ← seqZ 0 h;
        col ← seqZ 0 w;
        pixel e (int16 (x + col)) (int16 (y + row)) color
    end.

Definition clear (e : Engine) (color : Z) : list store :=
  fillRect e 0 0 (display_width e) (display_height e) color.

(** ** Loops without an a-priori bound

    The midpoint and Bresenham loops are [while] loops over 16-bit
    counters.  They are run for at most [fuel] rounds: [Finished] means the
    loop has left through its exit test, [Cut] that the rounds ran out; both
    carry the stores performed so far. *)

Inductive run : Set :=
  | Finished (tr : list store)
  | Cut (tr : list store).

Definition stores_of (r : run) : list store :=
  match r with Finished tr | Cut tr => tr end.

(** The stores [tr], then the run [r]. *)
Definition before (tr : list store) (r : run) : run :=
  match r with
  | Finished t => Finished (tr ++ t)
  | Cut t => Cut (tr ++ t)
  end.

(** The run [r1], and after it has finished the run [r2]. *)
Definition and_then (r1 r2 : run) : run :=
  match r1 with
  | Finished t => before t r2
  | Cut t => Cut t
  end.

(** ** Filled circle *)

Fixpoint fillCircle_loop (fuel : nat) (e : Engine) (x0 y0 color x y decision : Z) : run :=
  if x <? y then
    match fuel with
    | O => Cut []
    | S fuel =>
        let '(tr1, decision, y1) :=
          if decision <? 0 then ([], int16 (decision + (2 * x + 3)), y)
          else
            (fillRect e (int16 (x0 - x)) (int16 (y0 + y)) (int16 (2 * x + 1)) 1 color ++
             fillRect e (int16 (x0 - x)) (int16 (y0 - y)) (int16 (2 * x + 1)) 1 color,
             int16 (decision + (2 * (x - y) + 5)),
             int16 (y - 1)) in
        let x1 := int16 (x + 1) in
        let tr2 :=
          if x1 <=? y1 then
            fillRect e (int16 (x0 - y1)) (int16 (y0 + x1)) (int16 (2 * y1 + 1)) 1 color ++
            fillRect e (int16 (x0 - y1)) (int16 (y0 - x1)) (int16 (2 * y1 + 1)) 1 color
          else [] in
        before (tr1 ++ tr2) (fillCircle_loop fuel e x0 y0 color x1 y1 decision)
    end
  else Finished [].

(** Rounds that are enough for the midpoint loops: [y + 1 - x] drops in
    every round and starts at [radius + 1] ([circle_finishes] below). *)
Definition midpoint_rounds (radius : Z) : nat := Z.to_nat radius + 1.

Definition fillCircle (e : Engine) (x0 y0 radius color : Z) : run :=
  if radius <=? 0 then Finished []
  else
    let x := 0 in
    let y := radius in
    let decision := int16 (1 - radius) in
    before (fillRect e (int16 (x0 - radius)) y0 (int16 (2 * radius + 1)) 1 color)
           (fillCircle_loop (midpoint_rounds radius) e x0 y0 color x y decision).

(** ** Line *)

Fixpoint line_loop (fuel : nat) (e : Engine) (x1 y1 color dx dy sx sy err x y : Z) : run :=
  match fuel with
  | O => Cut []
  | S fuel =>
      let tr := pixel e x y color in
      if (x =? x1) && (y =? y1) then Finished tr
      else
        let e2 := int16 (2 * err) in
        let '(err, x) := if e2 >? - dy then (int16 (err - dy), int16 (x + sx)) else (err, x) in
        let '(err, y) := if e2 <? dx then (int16 (err + dx), int16 (y + sy)) else (err, y) in
        before tr (line_loop fuel e x1 y1 color dx dy sx sy err x y)
  end.

(** [fuel] bounds the rounds of the Bresenham loop that are observed. *)
Definition line (fuel : nat) (e : Engine) (x0 y0 x1 y1 color : Z) : run :=
  if y0 =? y1 then
    let '(x0, x1) := if x0 >? x1 then (x1, x0) else (x0, x1) in
    Finished (fillRect e x0 y0 (int16 (x1 - x0 + 1)) 1 color)
  else if x0 =? x1 then
    let '(y0, y1) := if y0 >? y1 then (y1, y0) else (y0, y1) in
    Finished (fillRect e x0 y0 1 (int16 (y1 - y0 + 1)) color)
  else
    let dx := int16 (Z.abs (x1 - x0)) in
    let dy := int16 (Z.abs (y1 - y0)) in
    let sx := if x0 <? x1 then 1 else -1 in
    let sy := if y0 <? y1 then 1 else -1 in
    let err := int16 (dx - dy) in
    line_loop fuel e x1 y1 color dx dy sx sy err x0 y0.

(** ** Shape outlines *)

Definition rect (fuel : nat) (e : Engine) (x y w h color : Z) : run :=
  and_then (line fuel e x y (int16 (x + w - 1)) y color)
 (and_then (line fuel e x (int16 (y + h - 1)) (int16 (x + w - 1)) (int16 (y + h - 1)) color)
 (and_then (line fuel e x y x (int16 (y + h - 1)) color)
           (line fuel e (int16 (x + w - 1)) y (int16 (x + w - 1)) (int16 (y + h - 1)) color))).

Fixpoint circle_loop (fuel : nat) (e : Engine) (x0 y0 color x y decision : Z) : run :=
  if x <=? y then
    match fuel with
    | O => Cut []
    | S fuel =>
        let tr :=
          pixel e (int16 (x0 + x)) (int16 (y0 + y)) color ++
          pixel e (int16 (x0 - x)) (int16 (y0 + y)) color ++
          pixel e (int16 (x0 + x)) (int16 (y0 - y)) color ++
          pixel e (int16 (x0 - x)) (int16 (y0 - y)) color ++
          pixel e (int16 (x0 + y)) (int16 (y0 + x)) color ++
          pixel e (int16 (x0 - y)) (int16 (y0 + x)) color ++
          pixel e (int16 (x0 + y)) (int16 (y0 - x)) color ++
          pixel e (int16 (x0 - y)) (int16 (y0 - x)) color in
        let '(decision, y) :=
          if decision <? 0 then (int16 (decision + (2 * x + 3)), y)
          else (int16 (decision + (2 * (x - y) + 5)), int16 (y - 1)) in
        before tr (circle_loop fuel e x0 y0 color (int16 (x + 1)) y decision)
    end
  else Finished [].

Definition circle (e : Engine) (x0 y0 radius color : Z) : run :=
  if radius <=? 0 then Finished []
  else
    let x := 0 in
    let y := radius in
    let decision := int16 (1 - radius) in
    circle_loop (midpoint_rounds radius) e x0 y0 color x y decision.

(** ** Text: the 8x8 font *)

(** One row of eight bytes per character code 0-127; bit 0 of a byte is
    the leftmost pixel of its row. *)
Definition font8x8_basic : list (list Z) := [
  [0x00; 0x00; 0x00; 0x00; 0x00; 0x00; 0x00; 0x00];   (* U+0000 *)
  [0x00; 0x00; 0x00; 0x00; 0x00; 0x00; 0x00; 0x00];   (* U+0001 *)
  [0x00; 0x00; 0x00; 0x00; 0x00; 0x00; 0x00; 0x00];   (* U+0002 *)
  [0x00; 0x00; 0x00; 0x00; 0x00; 0x00; 0x00; 0x00];   (* U+0003 *)
  [0x00; 0x00; 0x00; 0x00; 0x00; 0x00; 0x00; 0x00];   (* U+0004 *)
  [0x00; 0x00; 0x00; 0x00; 0x00; 0x00; 0x00; 0x00];   (* U+0005 *)
  [0x00; 0x00; 0x00; 0x00; 0x00; 0x00; 0x00; 0x00];   (* U+0006 *)
  [0x00; 0x00; 0x00; 0x00; 0x00; 0x00; 0x00; 0x00];   (* U+0007 *)
  [0x00; 0x00; 0x00; 0x00; 0x00; 0x00; 0x00; 0x00];   (* U+0008 *)
  [0x00; 0x00; 0x00; 0x00; 0x00; 0x00; 0x00; 0x00];   (* U+0009 *)
  [0x00; 0x00; 0x00; 0x00; 0x00; 0x00; 0x00; 0x00];   (* U+000A *)
  [0x00; 0x00; 0x00; 0x00; 0x00; 0x00; 0x00; 0x00];   (* U+000B *)
  [0x00; 0x00; 0x00; 0x00; 0x00; 0x00; 0x00; 0x00];   (* U+000C *)
  [0x00; 0x00; 0x00; 0x00; 0x00; 0x00; 0x00; 0x00];   (* U+000D *)
  [0x00; 0x00; 0x00; 0x00; 0x00; 0x00; 0x00; 0x00];   (* U+000E *)
  [0x00; 0x00; 0x00; 0x00; 0x00; 0x00; 0x00; 0x00];   (* U+000F *)
  [0x00; 0x00; 0x00; 0x00; 0x00; 0x00; 0x00; 0x00];   (* U+0010 *)
  [0x00; 0x00; 0x00; 0x00; 0x00; 0x00; 0x00; 0x00];   (* U+0011 *)
  [0x00; 0x00; 0x00; 0x00; 0x00; 0x00; 0x00; 0x00];   (* U+0012 *)
  [0x00; 0x00; 0x00; 0x00; 0x00; 0x00; 0x00; 0x00];   (* U+0013 *)
  [0x00; 0x00; 0x00; 0x00; 0x00; 0x00; 0x00; 0x00];   (* U+0014 *)
  [0x00; 0x00; 0x00; 0x00; 0x00; 0x00; 0x00; 0x00];   (* U+0015 *)
  [0x00; 0x00; 0x00; 0x00; 0x00; 0x00; 0x00; 0x00];   (* U+0016 *)
  [0x00; 0x00; 0x00; 0x00; 0x00; 0x00; 0x00; 0x00];   (* U+0017 *)
  [0x00; 0x00; 0x00; 0x00; 0x00; 0x00; 0x00; 0x00];   (* U+0018 *)
  [0x00; 0x00; 0x00; 0x00; 0x00; 0x00; 0x00; 0x00];   (* U+0019 *)
  [0x00; 0x00; 0x00; 0x00; 0x00; 0x00; 0x00; 0x00];   (* U+001A *)
  [0x00; 0x00; 0x00; 0x00; 0x00; 0x00; 0x00; 0x00];   (* U+001B *)
  [0x00; 0x00; 0x00; 0x00; 0x00; 0x00; 0x00; 0x00];   (* U+001C *)
  [0x00; 0x00; 0x00; 0x00; 0x00; 0x00; 0x00; 0x00];   (* U+001D *)
  [0x00; 0x00; 0x00; 0x00; 0x00; 0x00; 0x00; 0x00];   (* U+001E *)
  [0x00; 0x00; 0x00; 0x00; 0x00; 0x00; 0x00; 0x00];   (* U+001F *)
  [0x00; 0x00; 0x00; 0x00; 0x00; 0x00; 0x00; 0x00];   (* U+0020 *)
  [0x18; 0x3c; 0x3c; 0x18; 0x18; 0x00; 0x18; 0x00];   (* U+0021 *)
  [0x36; 0x36; 0x00; 0x00; 0x00; 0x00; 0x00; 0x00];   (* U+0022 *)
  [0x36; 0x36; 0x7f; 0x36; 0x7f; 0x36; 0x36; 0x00];   (* U+0023 *)
  [0x0c; 0x3e; 0x03; 0x1e; 0x30; 0x1f; 0x0c; 0x00];   (* U+0024 *)
  [0x00; 0x63; 0x33; 0x18; 0x0c; 0x66; 0x63; 0x00];   (* U+0025 *)
  [0x1c; 0x36; 0x1c; 0x6e; 0x3b; 0x33; 0x6e; 0x00];   (* U+0026 *)
  [0x06; 0x06; 0x03; 0x00; 0x00; 0x00; 0x00; 0x00];   (* U+0027 *)
  [0x18; 0x0c; 0x06; 0x06; 0x06; 0x0c; 0x18; 0x00];   (* U+0028 *)
  [0x06; 0x0c; 0x18; 0x18; 0x18; 0x0c; 0x06; 0x00];   (* U+0029 *)
  [0x00; 0x66; 0x3c; 0xff; 0x3c; 0x66; 0x00; 0x00];   (* U+002A *)
  [0x00; 0x0c; 0x0c; 0x3f; 0x0c; 0x0c; 0x00; 0x00];   (* U+002B *)
  [0x00; 0x00; 0x00; 0x00; 0x00; 0x0c; 0x06; 0x00];   (* U+002C *)
  [0x00; 0x00; 0x00; 0x3f; 0x00; 0x00; 0x00; 0x00];   (* U+002D *)
  [0x00; 0x00; 0x00; 0x00; 0x00; 0x0c; 0x0c; 0x00];   (* U+002E *)
  [0x60; 0x30; 0x18; 0x0c; 0x06; 0x03; 0x01; 0x00];   (* U+002F *)
  [0x3e; 0x63; 0x73; 0x7b; 0x6f; 0x67; 0x3e; 0x00];   (* U+0030 *)
  [0x0c; 0x0e; 0x0c; 0x0c; 0x0c; 0x0c; 0x3f; 0x00];   (* U+0031 *)
  [0x1e; 0x33; 0x30; 0x1c; 0x06; 0x33; 0x3f; 0x00];   (* U+0032 *)
  [0x1e; 0x33; 0x30; 0x1c; 0x30; 0x33; 0x1e; 0x00];   (* U+0033 *)
  [0x38; 0x3c; 0x36; 0x33; 0x7f; 0x30; 0x78; 0x00];   (* U+0034 *)
  [0x3f; 0x03; 0x1f; 0x30; 0x30; 0x33; 0x1e; 0x00];   (* U+0035 *)
  [0x1c; 0x06; 0x03; 0x1f; 0x33; 0x33; 0x1e; 0x00];   (* U+0036 *)
  [0x3f; 0x33; 0x30; 0x18; 0x0c; 0x0c; 0x0c; 0x00];   (* U+0037 *)
  [0x1e; 0x33; 0x33; 0x1e; 0x33; 0x33; 0x1e; 0x00];   (* U+0038 *)
  [0x1e; 0x33; 0x33; 0x3e; 0x30; 0x18; 0x0e; 0x00];   (* U+0039 *)
  [0x00; 0x0c; 0x0c; 0x00; 0x00; 0x0c; 0x0c; 0x00];   (* U+003A *)
  [0x00; 0x0c; 0x0c; 0x00; 0x00; 0x0c; 0x06; 0x00];   (* U+003B *)
  [0x18; 0x0c; 0x06; 0x03; 0x06; 0x0c; 0x18; 0x00];   (* U+003C *)
  [0x00; 0x00; 0x3f; 0x00; 0x00; 0x3f; 0x00; 0x00];   (* U+003D *)
  [0x06; 0x0c; 0x18; 0x30; 0x18; 0x0c; 0x06; 0x00];   (* U+003E *)
  [0x1e; 0x33; 0x30; 0x18; 0x0c; 0x00; 0x0c; 0x00];   (* U+003F *)
  [0x3e; 0x63; 0x7b; 0x7b; 0x7b; 0x03; 0x1e; 0x00];   (* U+0040 *)
  [0x0c; 0x1e; 0x33; 0x33; 0x3f; 0x33; 0x33; 0x00];   (* U+0041 *)
  [0x3f; 0x66; 0x66; 0x3e; 0x66; 0x66; 0x3f; 0x00];   (* U+0042 *)
  [0x3c; 0x66; 0x03; 0x03; 0x03; 0x66; 0x3c; 0x00];   (* U+0043 *)
  [0x1f; 0x36; 0x66; 0x66; 0x66; 0x36; 0x1f; 0x00];   (* U+0044 *)
  [0x7f; 0x46; 0x16; 0x1e; 0x16; 0x46; 0x7f; 0x00];   (* U+0045 *)
  [0x7f; 0x46; 0x16; 0x1e; 0x16; 0x06; 0x0f; 0x00];   (* U+0046 *)
  [0x3c; 0x66; 0x03; 0x03; 0x73; 0x66; 0x7c; 0x00];   (* U+0047 *)
  [0x33; 0x33; 0x33; 0x3f; 0x33; 0x33; 0x33; 0x00];   (* U+0048 *)
  [0x1e; 0x0c; 0x0c; 0x0c; 0x0c; 0x0c; 0x1e; 0x00];   (* U+0049 *)
  [0x78; 0x30; 0x30; 0x30; 0x33; 0x33; 0x1e; 0x00];   (* U+004A *)
  [0x67; 0x66; 0x36; 0x1e; 0x36; 0x66; 0x67; 0x00];   (* U+004B *)
  [0x0f; 0x06; 0x06; 0x06; 0x46; 0x66; 0x7f; 0x00];   (* U+004C *)
  [0x63; 0x77; 0x7f; 0x7f; 0x6b; 0x63; 0x63; 0x00];   (* U+004D *)
  [0x63; 0x67; 0x6f; 0x7b; 0x73; 0x63; 0x63; 0x00];   (* U+004E *)
  [0x1c; 0x36; 0x63; 0x63; 0x63; 0x36; 0x1c; 0x00];   (* U+004F *)
  [0x3f; 0x66; 0x66; 0x3e; 0x06; 0x06; 0x0f; 0x00];   (* U+0050 *)
  [0x1e; 0x33; 0x33; 0x33; 0x3b; 0x1e; 0x38; 0x00];   (* U+0051 *)
  [0x3f; 0x66; 0x66; 0x3e; 0x36; 0x66; 0x67; 0x00];   (* U+0052 *)
  [0x1e; 0x33; 0x07; 0x0e; 0x38; 0x33; 0x1e; 0x00];   (* U+0053 *)
  [0x3f; 0x2d; 0x0c; 0x0c; 0x0c; 0x0c; 0x1e; 0x00];   (* U+0054 *)
  [0x33; 0x33; 0x33; 0x33; 0x33; 0x33; 0x3f; 0x00];   (* U+0055 *)
  [0x33; 0x33; 0x33; 0x33; 0x33; 0x1e; 0x0c; 0x00];   (* U+0056 *)
  [0x63; 0x63; 0x63; 0x6b; 0x7f; 0x77; 0x63; 0x00];   (* U+0057 *)
  [0x63; 0x63; 0x36; 0x1c; 0x1c; 0x36; 0x63; 0x00];   (* U+0058 *)
  [0x33; 0x33; 0x33; 0x1e; 0x0c; 0x0c; 0x1e; 0x00];   (* U+0059 *)
  [0x7f; 0x63; 0x31; 0x18; 0x4c; 0x66; 0x7f; 0x00];   (* U+005A *)
  [0x1e; 0x06; 0x06; 0x06; 0x06; 0x06; 0x1e; 0x00];   (* U+005B *)
  [0x03; 0x06; 0x0c; 0x18; 0x30; 0x60; 0x40; 0x00];   (* U+005C *)
  [0x1e; 0x18; 0x18; 0x18; 0x18; 0x18; 0x1e; 0x00];   (* U+005D *)
  [0x08; 0x1c; 0x36; 0x63; 0x00; 0x00; 0x00; 0x00];   (* U+005E *)
  [0x00; 0x00; 0x00; 0x00; 0x00; 0x00; 0x00; 0xff];   (* U+005F *)
  [0x0c; 0x0c; 0x18; 0x00; 0x00; 0x00; 0x00; 0x00];   (* U+0060 *)
  [0x00; 0x00; 0x1e; 0x30; 0x3e; 0x33; 0x6e; 0x00];   (* U+0061 *)
  [0x07; 0x06; 0x06; 0x3e; 0x66; 0x66; 0x3b; 0x00];   (* U+0062 *)
  [0x00; 0x00; 0x1e; 0x33; 0x03; 0x33; 0x1e; 0x00];   (* U+0063 *)
  [0x38; 0x30; 0x30; 0x3e; 0x33; 0x33; 0x6e; 0x00];   (* U+0064 *)
  [0x00; 0x00; 0x1e; 0x33; 0x3f; 0x03; 0x1e; 0x00];   (* U+0065 *)
  [0x1c; 0x36; 0x06; 0x0f; 0x06; 0x06; 0x0f; 0x00];   (* U+0066 *)
  [0x00; 0x00; 0x6e; 0x33; 0x33; 0x3e; 0x30; 0x1f];   (* U+0067 *)
  [0x07; 0x06; 0x36; 0x6e; 0x66; 0x66; 0x67; 0x00];   (* U+0068 *)
  [0x0c; 0x00; 0x0e; 0x0c; 0x0c; 0x0c; 0x1e; 0x00];   (* U+0069 *)
  [0x30; 0x00; 0x30; 0x30; 0x30; 0x33; 0x33; 0x1e];   (* U+006A *)
  [0x07; 0x06; 0x66; 0x36; 0x1e; 0x36; 0x67; 0x00];   (* U+006B *)
  [0x0e; 0x0c; 0x0c; 0x0c; 0x0c; 0x0c; 0x1e; 0x00];   (* U+006C *)
  [0x00; 0x00; 0x33; 0x7f; 0x7f; 0x6b; 0x63; 0x00];   (* U+006D *)
  [0x00; 0x00; 0x1f; 0x33; 0x33; 0x33; 0x33; 0x00];   (* U+006E *)
  [0x00; 0x00; 0x1e; 0x33; 0x33; 0x33; 0x1e; 0x00];   (* U+006F *)
  [0x00; 0x00; 0x3b; 0x66; 0x66; 0x3e; 0x06; 0x0f];   (* U+0070 *)
  [0x00; 0x00; 0x6e; 0x33; 0x33; 0x3e; 0x30; 0x78];   (* U+0071 *)
  [0x00; 0x00; 0x3b; 0x6e; 0x66; 0x06; 0x0f; 0x00];   (* U+0072 *)
  [0x00; 0x00; 0x3e; 0x03; 0x1e; 0x30; 0x1f; 0x00];   (* U+0073 *)
  [0x08; 0x0c; 0x3e; 0x0c; 0x0c; 0x2c; 0x18; 0x00];   (* U+0074 *)
  [0x00; 0x00; 0x33; 0x33; 0x33; 0x33; 0x6e; 0x00];   (* U+0075 *)
  [0x00; 0x00; 0x33; 0x33; 0x33; 0x1e; 0x0c; 0x00];   (* U+0076 *)
  [0x00; 0x00; 0x63; 0x6b; 0x7f; 0x7f; 0x36; 0x00];   (* U+0077 *)
  [0x00; 0x00; 0x63; 0x36; 0x1c; 0x36; 0x63; 0x00];   (* U+0078 *)
  [0x00; 0x00; 0x33; 0x33; 0x33; 0x3e; 0x30; 0x1f];   (* U+0079 *)
  [0x00; 0x00; 0x3f; 0x19; 0x0c; 0x26; 0x3f; 0x00];   (* U+007A *)
  [0x38; 0x0c; 0x0c; 0x07; 0x0c; 0x0c; 0x38; 0x00];   (* U+007B *)
  [0x18; 0x18; 0x18; 0x00; 0x18; 0x18; 0x18; 0x00];   (* U+007C *)
  [0x07; 0x0c; 0x0c; 0x38; 0x0c; 0x0c; 0x07; 0x00];   (* U+007D *)
  [0x6e; 0x3b; 0x00; 0x00; 0x00; 0x00; 0x00; 0x00];   (* U+007E *)
  [0x00; 0x00; 0x00; 0x00; 0x00; 0x00; 0x00; 0x00]    (* U+007F *)
].

(** ** Text: glyphs and strings

    A [char] is the integer value of the byte; a C string is the list of
    its bytes, read up to the first zero byte or the end of the list. *)

Definition drawChar (e : Engine) (x y c color bg size : Z) : list store :=
  if (c <? 0) || (c >? 127) then []
  else
    let char_data := nth (Z.to_nat c) font8x8_basic [] in
    if size =? 1 then
      row ← seqZ 0 8;
      let line := nth (Z.to_nat row) char_data 0 in
      col ← seqZ 0 8;
      if negb (Z.land line (Z.shiftl 1 col) =? 0) then
        pixel e (int16 (x + col)) (int16 (y + row)) color
      else if negb (bg =? color) then
        pixel e (int16 (x + col)) (int16 (y + row)) bg
      else []
    else
      row ← seqZ 0 8;
      let line := nth (Z.to_nat row) char_data 0 in
      col ← seqZ 0 8;
      if negb (Z.land line (Z.shiftl 1 col) =? 0) then
        fillRect e (int16 (x + col * size)) (int16 (y + row * size)) size size color
      else if negb (bg =? color) then
        fillRect e (int16 (x + col * size)) (int16 (y + row * size)) size size bg
      else [].

Fixpoint text_loop (e : Engine) (x : Z) (str : list Z) (color bg size cursor_x cursor_y : Z)
  : list store :=
  match str with
  | [] => []
  | c :: str =>
      if c =? 0 then []
      else if c =? 10 then
        text_loop e x str color bg size x (int16 (cursor_y + size * 8))
      else if negb (c =? 13) then
        drawChar e cursor_x cursor_y c color bg size ++
        text_loop e x str color bg size (int16 (cursor_x + size * 8)) cursor_y
      else text_loop e x str color bg size cursor_x cursor_y
  end.

Definition text (e : Engine) (x y : Z) (str : list Z) (color bg size : Z) : list store :=
  text_loop e x str color bg size x y.

(** ** Text: cursor and settings *)

Definition with_cursor (e : Engine) (x y : Z) : Engine :=
  {| current_rotation := current_rotation e;
     display_width := display_width e;
     display_height := display_height e;
     cursor_x := x;
     cursor_y := y;
     text_color := text_color e;
     text_bg_color := text_bg_color e;
     text_size := text_size e;
     text_wrap := text_wrap e;
     text_area_x := text_area_x e;
     text_area_y := text_area_y e;
     text_area_w := text_area_w e;
     text_area_h := text_area_h e;
     line_spacing := line_spacing e |}.

Definition setCursor (e : Engine) (x y : Z) : Engine := with_cursor e x y.

Definition setTextColor (e : Engine) (color bg : Z) : Engine :=
  {| current_rotation := current_rotation e;
     display_width := display_width e;
     display_height := display_height e;
     cursor_x := cursor_x e;
     cursor_y := cursor_y e;
     text_color := color;
     text_bg_color := bg;
     text_size := text_size e;
     text_wrap := text_wrap e;
     text_area_x := text_area_x e;
     text_area_y := text_area_y e;
     text_area_w := text_area_w e;
     text_area_h := text_area_h e;
     line_spacing := line_spacing e |}.

Definition setTextSize (e : Engine) (size : Z) : Engine :=
  if (size >=? 1) && (size <=? 10) then
    {| current_rotation := current_rotation e;
       display_width := display_width e;
       display_height := display_height e;
       cursor_x := cursor_x e;
       cursor_y := cursor_y e;
       text_color := text_color e;
       text_bg_color := text_bg_color e;
       text_size := size;
       text_wrap := text_wrap e;
       text_area_x := text_area_x e;
       text_area_y := text_area_y e;
       text_area_w := text_area_w e;
       text_area_h := text_area_h e;
       line_spacing := line_spacing e |}
  else e.

Definition setTextWrap (e : Engine) (wrap : bool) : Engine :=
  {| current_rotation := current_rotation e;
     display_width := display_width e;
     display_height := display_height e;
     cursor_x := cursor_x e;
     cursor_y := cursor_y e;
     text_color := text_color e;
     text_bg_color := text_bg_color e;
     text_size := text_size e;
     text_wrap := wrap;
     text_area_x := text_area_x e;
     text_area_y := text_area_y e;
     text_area_w := text_area_w e;
     text_area_h := text_area_h e;
     line_spacing := line_spacing e |}.

Definition setLineSpacing (e : Engine) (spacing : Z) : Engine :=
  if (spacing >=? 0) && (spacing <=? 20) then
    {| current_rotation := current_rotation e;
       display_width := display_width e;
       display_height := display_height e;
       cursor_x := cursor_x e;
       cursor_y := cursor_y e;
       text_color := text_color e;
       text_bg_color := text_bg_color e;
       text_size := text_size e;
       text_wrap := text_wrap e;
       text_area_x := text_area_x e;
       text_area_y := text_area_y e;
       text_area_w := text_area_w e;
       text_area_h := text_area_h e;
       line_spacing := spacing |}
  else e.

Definition getLineSpacing (e : Engine) : Z := line_spacing e.
Definition getCursorX (e : Engine) : Z := cursor_x e.
Definition getCursorY (e : Engine) : Z := cursor_y e.

Definition setTextArea (e : Engine) (x y w h : Z) : Engine :=
  {| current_rotation := current_rotation e;
     display_width := display_width e;
     display_height := display_height e;
     cursor_x := cursor_x e;
     cursor_y := cursor_y e;
     text_color := text_color e;
     text_bg_color := text_bg_color e;
     text_size := text_size e;
     text_wrap := text_wrap e;
     text_area_x := x;
     text_area_y := y;
     text_area_w := w;
     text_area_h := h;
     line_spacing := line_spacing e |}.

(** The routines below both move the cursor and draw: they return the new
    engine state and the stores performed. *)

Definition clearTextArea (e : Engine) : Engine * list store :=
  (with_cursor e (text_area_x e) (text_area_y e),
   fillRect e (text_area_x e) (text_area_y e) (text_area_w e) (text_area_h e)
            (text_bg_color e)).

Definition newLine (e : Engine) : Engine * list store :=
  let e := with_cursor e (text_area_x e)
                       (int16 (cursor_y e + (text_size e * 8 + line_spacing e))) in
  if cursor_y e + text_size e * 8 >? text_area_y e + text_area_h e
  then clearTextArea e
  else (e, []).

Definition advanceCursor (e : Engine) (char_width char_height : Z) : Engine * list store :=
  let e := with_cursor e (int16 (cursor_x e + char_width)) (cursor_y e) in
  if text_wrap e && (cursor_x e + char_width >? text_area_x e + text_area_w e)
  then newLine e
  else (e, []).

(** ** Print functions *)

(** [print(const char* str)] *)
Fixpoint print (e : Engine) (str : list Z) : Engine * list store :=
  match str with
  | [] => (e, [])
  | c :: str =>
      if c =? 0 then (e, [])
      else
        let '(e, tr) :=
          if c =? 10 then newLine e
          else if c =? 13 then (with_cursor e (text_area_x e) (cursor_y e), [])
          else if (c >=? 0) && (c <=? 127) then
            let tr := drawChar e (cursor_x e) (cursor_y e) c (text_color e)
                               (text_bg_color e) (text_size e) in
            let '(e, tr') := advanceCursor e (uint8 (text_size e * 8))
                                           (uint8 (text_size e * 8)) in
            (e, tr ++ tr')
          else (e, []) in
        let '(e, tr') := print e str in
        (e, tr ++ tr')
  end.

(** [print(char character)] *)
Definition print_char (e : Engine) (character : Z) : Engine * list store :=
  if character =? 10 then newLine e
  else if character =? 13 then (with_cursor e (text_area_x e) (cursor_y e), [])
  else if (character >=? 0) && (character <=? 127) then
    let tr := drawChar e (cursor_x e) (cursor_y e) character (text_color e)
                       (text_bg_color e) (text_size e) in
    let '(e, tr') := advanceCursor e (uint8 (text_size e * 8)) (uint8 (text_size e * 8)) in
    (e, tr ++ tr')
  else (e, []).

(** [println(const char* str)] *)
Definition println (e : Engine) (str : list Z) : Engine * list store :=
  let '(e, tr) := print e str in
  let '(e, tr') := print e [10] in
  (e, tr ++ tr').

(** [println(char character)] *)
Definition println_char (e : Engine) (character : Z) : Engine * list store :=
  let '(e, tr) := print_char e character in
  let '(e, tr') := print e [10] in
  (e, tr ++ tr').

(** ** Word wrapping *)

(** [char word_buffer[50]] *)
Definition WORD_BUFFER_SIZE : Z := 50.

(** A write to [word_buffer[index]] with [index] outside the array is
    undefined behaviour in C: the model stops there and reports the index
    together with the stores done before. *)
Inductive wrapped : Set :=
  | Wrapped (tr : list store)
  | BufferOverrun (index : Z) (tr : list store).

Definition drawn (r : wrapped) : list store :=
  match r with Wrapped tr | BufferOverrun _ tr => tr end.

Definition drawn_before (tr : list store) (r : wrapped) : wrapped :=
  match r with
  | Wrapped t => Wrapped (tr ++ t)
  | BufferOverrun i t => BufferOverrun i (tr ++ t)
  end.

Definition is_separator (c : Z) : bool := (c =? 32) || (c =? 10) || (c =? 9).

(** [word] holds [word_buffer[0 .. word_len - 1]]; [word_len] is its
    length.  The bytes come from the string and are not zero, so after the
    terminator is written at [word_len] the buffer read as a C string is
    [word]. *)
Fixpoint printWrapped_loop (e : Engine) (x maxWidth color size line_height : Z)
    (str : list Z) (current_x current_y : Z) (word : list Z) : wrapped :=
  match str with
  | [] => Wrapped []
  | c :: str =>
      if c =? 0 then Wrapped []
      else
        let word_len := Z.of_nat (length word) in
        let at_end := match str with [] => true | c' :: _ => c' =? 0 end in
        if is_separator c || at_end then
          if negb (is_separator c) && negb (word_len <? WORD_BUFFER_SIZE)
          then BufferOverrun word_len []
          else
            let word := if negb (is_separator c) then word ++ [c] else word in
            let word_len := Z.of_nat (length word) in
            if negb (word_len <? WORD_BUFFER_SIZE) then BufferOverrun word_len []
            else
              let word_width := int16 (word_len * size * 8) in
              let '(current_x, current_y) :=
                if (current_x + word_width >? x + maxWidth) && (current_x >? x)
                then (x, int16 (current_y + line_height))
                else (current_x, current_y) in
              let tr := text e current_x current_y word color (text_bg_color e) size in
              let current_x := int16 (current_x + word_width) in
              let '(current_x, current_y) :=
                if c =? 32 then (int16 (current_x + size * 8), current_y)
                else if c =? 10 then (x, int16 (current_y + line_height))
                else if c =? 9 then (int16 (current_x + size * 8 * 4), current_y)
                else (current_x, current_y) in
              drawn_before tr
                (printWrapped_loop e x maxWidth color size line_height str
                                   current_x current_y [])
        else
          let word := if word_len <? 49 then word ++ [c] else word in
          printWrapped_loop e x maxWidth color size line_height str
                            current_x current_y word
  end.

Definition printWrapped (e : Engine) (x y maxWidth : Z) (str : list Z) (color size : Z)
  : wrapped :=
  let line_height := int16 (size * 8 + line_spacing e) in
  printWrapped_loop e x maxWidth color size line_height str x y [].

(** ** Vocabulary of the properties *)

(** The logical width and height agree with the rotation: the physical
    dimensions at 0 and 180 degrees, swapped at 90 and 270.  [begin] and
    [setRotation] establish it and no other routine assigns the three
    variables. *)
Definition engine_ok (e : Engine) : Prop :=
  match current_rotation e with
  | ROTATION_0 | ROTATION_180 =>
      display_width e = LCD_H_RES /\ display_height e = LCD_V_RES
  | ROTATION_90 | ROTATION_270 =>
      display_width e = LCD_V_RES /\ display_height e = LCD_H_RES
  end.

(** The logical point lies on the logical screen. *)
Definition on_screen (e : Engine) (x y : Z) : Prop :=
  (0 <= x < display_width e) /\ (0 <= y < display_height e).

(** The framebuffer cell of a logical point. *)
Definition cell_of (e : Engine) (x y : Z) : Z :=
  let '(px, py) := transformCoordinates e x y in cell px py.

(** The logical pixel [(x, y)] is painted by the stores [tr]. *)
Definition painted (e : Engine) (tr : list store) (x y : Z) : Prop :=
  on_screen e x y /\ exists s, s ∈ tr /\ addr s = cell_of e x y.

(** The clipping of one axis in [fillRect]: start and length of the part
    of [[lo, lo + len)] that the code keeps for a screen of size [limit]. *)
Definition clip (lo len limit : Z) : Z * Z :=
  let '(len, lo) := if lo <? 0 then (int16 (len + lo), 0) else (len, lo) in
  let len := if lo + len >? limit then int16 (limit - lo) else len in
  (lo, len).

(** [n] consecutive cells from [ptr] on, each stored once, in order. *)
Definition span (ptr n c : Z) : list store := (fun i => Store (ptr + i) c) <$> seqZ 0 n.

(** The eight reflections of the offset [(x, y)] about the centre, in the
    order in which [circle] draws them. *)
Definition octants (x y : Z) : list (Z * Z) :=
  [(x, y); (- x, y); (x, - y); (- x, - y); (y, x); (- y, x); (y, - x); (- y, - x)].

(** The offsets from the centre that the loop of [circle] hands to [pixel],
    round by round: the loop of [circle_loop] without the drawing. *)
Fixpoint circle_offsets (fuel : nat) (x y decision : Z) : list (Z * Z) :=
  if x <=? y then
    match fuel with
    | O => []
    | S fuel =>
        let '(decision, y') :=
          if decision <? 0 then (int16 (decision + (2 * x + 3)), y)
          else (int16 (decision + (2 * (x - y) + 5)), int16 (y - 1)) in
        octants x y ++ circle_offsets fuel (int16 (x + 1)) y' decision
    end
  else [].

(** The pixels painted by [circle(x0, y0, radius, color)] are closed under
    the eight reflections about [(x0, y0)]. *)
Definition circle_symmetric (e : Engine) (x0 y0 radius color : Z) : Prop :=
  forall dx dy,
    painted e (stores_of (circle e x0 y0 radius color)) (x0 + dx) (y0 + dy) ->
    forall dx' dy', (dx', dy') ∈ octants dx dy ->
      painted e (stores_of (circle e x0 y0 radius color)) (x0 + dx') (y0 + dy').

(** What the midpoint loops keep true of [x], [y] and [decision]; the last
    part is only needed to see that [x + 1] fits 16 bits when the radius is
    32767. *)
Definition midpoint_inv (x y decision : Z) : Prop :=
  0 <= x /\ y <= 32767 /\
  (y = 32767 -> x <= 181 /\ decision = x * x + 2 * x - 32766).

(** ** Vocabulary of the further properties *)

(** The decision variable of the midpoint loops, exactly: it is
    [x^2 + y^2 - r^2 + 2x - y + 1], and while [x <= y] it lies between
    [2 (x - y) + 1] and [2 x]. *)
Definition midpoint_exact (r x y decision : Z) : Prop :=
  0 <= x /\ y <= r /\
  decision = x * x + y * y - r * r + 2 * x - y + 1 /\
  (x <= y -> 2 * (x - y) + 1 <= decision <= 2 * x).

(** Bit [col] of row [row] of the glyph of character [c]:
    [font8x8_basic[c][row] & (1 << col)]. *)
Definition glyph_bit (c row col : Z) : bool :=
  negb (Z.land (nth (Z.to_nat row) (nth (Z.to_nat c) font8x8_basic []) 0)
               (Z.shiftl 1 col) =? 0).

(** The colour [drawChar] gives to the block of that bit, if it paints
    the block at all: the foreground for a set bit, the background for a
    clear bit unless the two colours are the same. *)
Definition glyph_colour (c row col color bg : Z) : option Z :=
  if glyph_bit c row col then Some color
  else if negb (bg =? color) then Some bg
  else None.

(** The stores of [drawChar] for one bit of the glyph, painted in [k]: one
    pixel at size 1, a [size] x [size] block otherwise. *)
Definition glyph_block (e : Engine) (x y size row col k : Z) : list store :=
  if size =? 1 then pixel e (int16 (x + col)) (int16 (y + row)) k
  else fillRect e (int16 (x + col * size)) (int16 (y + row * size)) size size k.

(** Two engine states with the same rotation and logical dimensions. *)
Definition same_screen (e e' : Engine) : Prop :=
  current_rotation e = current_rotation e' /\
  display_width e = display_width e' /\
  display_height e = display_height e'.

(** The documented ranges of the text settings. *)
Definition settings_ok (e : Engine) : Prop :=
  (1 <= text_size e <= 10) /\ (0 <= line_spacing e <= 20).

(** A byte the text routines draw as a glyph: ASCII, and none of NUL,
    ['\n'], ['\r']. *)
Definition plain (c : Z) : Prop := (1 <= c <= 127) /\ c <> 10 /\ c <> 13.

(** The cursor is where a glyph may start: at the left edge of the text
    area or with room for one character before the right edge, and at the
    top edge of the area or with room for one line of glyphs above the
    bottom edge. *)
Definition cursor_in_area (e : Engine) : Prop :=
  (cursor_x e = text_area_x e \/
   cursor_x e + uint8 (text_size e * 8) <= text_area_x e + text_area_w e) /\
  (cursor_y e = text_area_y e \/
   cursor_y e + text_size e * 8 <= text_area_y e + text_area_h e).

(** The word a string ends with: [word] extended by the bytes of [str]
    after its last separator. *)
Fixpoint last_word (word str : list Z) : list Z :=
  match str with
  | [] => word
  | c :: str => if is_separator c then last_word [] str else last_word (word ++ [c]) str
  end.

Definition overruns (r : wrapped) : bool :=
  match r with BufferOverrun _ _ => true | Wrapped _ => false end.

(** A byte that [printWrapped] adds to a word: not NUL, not a separator. *)
Definition word_byte (c : Z) : Prop := c <> 0 /\ is_separator c = false.

(** Where [printWrapped] draws a word of width [word_width] when its pen
    is at [(current_x, current_y)]: on a new line when the word would end
    beyond [x + maxWidth] and is not the first of its line. *)
Definition word_position (x maxWidth line_height word_width current_x current_y : Z)
  : Z * Z :=
  if (current_x + word_width >? x + maxWidth) && (current_x >? x)
  then (x, int16 (current_y + line_height))
  else (current_x, current_y).

(** The line feed as the specification words it: the text area is cleared
    and the cursor reset exactly when the new [y] exceeds the bottom edge
    of the text area; otherwise the cursor moves to the new line. *)
Definition newline_as_specified (e : Engine) : Prop :=
  let y' := int16 (cursor_y e + (text_size e * 8 + line_spacing e)) in
  let bottom := text_area_y e + text_area_h e in
  newLine e =
    if y' >? bottom
    then (with_cursor e (text_area_x e) (text_area_y e),
          fillRect e (text_area_x e) (text_area_y e) (text_area_w e) (text_area_h e)
                   (text_bg_color e))
    else (with_cursor e (text_area_x e) y', []).


(** * Properties *)

(** ** Replaying stores *)

Section Exec.
Implicit Types (tr : list store) (fb : list Z).

Lemma write_cell_length fb s : length (write_cell fb s) = length fb.
Proof. unfold write_cell. case_match; [apply length_insert | done]. Qed.

Lemma exec_length tr fb : length (exec tr fb) = length fb.
Proof.
  unfold exec. revert fb. induction tr as [|s tr IH]; intros fb; simpl; [done|].
  by rewrite IH, write_cell_length.
Qed.

Lemma exec_nil fb : exec [] fb = fb.
Proof. done. Qed.

Lemma exec_app tr1 tr2 fb : exec (tr1 ++ tr2) fb = exec tr2 (exec tr1 fb).
Proof. unfold exec. apply fold_left_app. Qed.

Lemma write_cell_other fb s a :
  0 <= a -> addr s <> a -> write_cell fb s !! Z.to_nat a = fb !! Z.to_nat a.
Proof.
  intros Ha Hne. unfold write_cell. case_match; [|done].
  apply list_lookup_insert_ne. lia.
Qed.

Lemma write_cell_same fb s :
  0 <= addr s < Z.of_nat (length fb) ->
  write_cell fb s !! Z.to_nat (addr s) = Some (val s).
Proof.
  intros Ha. unfold write_cell.
  replace ((0 <=? addr s) && (addr s <? Z.of_nat (length fb))) with true by lia.
  apply list_lookup_insert_eq. lia.
Qed.

(** A cell no store addresses keeps its value. *)
Lemma exec_untouched tr fb a :
  0 <= a -> (forall s, s ∈ tr -> addr s <> a) ->
  exec tr fb !! Z.to_nat a = fb !! Z.to_nat a.
Proof.
  intros Ha. unfold exec. revert fb.
  induction tr as [|s tr IH]; intros fb Hall; simpl; [done|].
  rewrite IH by (intros; apply Hall; by right).
  apply write_cell_other; [done|]. apply Hall. by left.
Qed.

(** A cell addressed by some store of a one-colour sequence holds that
    colour afterwards. *)
Lemma exec_painted tr fb a c :
  0 <= a < Z.of_nat (length fb) ->
  (forall s, s ∈ tr -> val s = c) ->
  (exists s, s ∈ tr /\ addr s = a) ->
  exec tr fb !! Z.to_nat a = Some c.
Proof.
  intros Ha. unfold exec. revert fb Ha.
  induction tr as [|s tr IH]; intros fb Ha Hval (s' & Hin & Hs').
  - by apply elem_of_nil in Hin.
  - simpl.
    destruct (decide (a ∈ addr <$> tr)) as [Hlater|Hnot].
    + apply list_elem_of_fmap in Hlater as (s0 & -> & Hs0).
      apply IH; [by rewrite write_cell_length| |by exists s0].
      intros; apply Hval; by right.
    + assert (forall s0, s0 ∈ tr -> addr s0 <> a) as Hnone.
      { intros s0 Hs0 <-. apply Hnot, list_elem_of_fmap. by exists s0. }
      fold (exec tr (write_cell fb s)).
      rewrite exec_untouched; [|lia|done].
      apply elem_of_cons in Hin as [->|Hin]; [|by destruct (Hnone s')].
      subst a. rewrite write_cell_same by done.
      f_equal. apply Hval. by left.
Qed.
End Exec.


(** ** The rotation invariant *)

Lemma begin_ok : engine_ok begin.
Proof. by split. Qed.

Lemma setRotation_ok e r : engine_ok (setRotation e r).
Proof. destruct r; by split. Qed.

(** The other routines that assign engine variables leave the rotation
    and the logical dimensions alone. *)
Lemma setters_keep_ok e :
  engine_ok e ->
  (forall x y, engine_ok (setCursor e x y)) /\
  (forall color bg, engine_ok (setTextColor e color bg)) /\
  (forall size, engine_ok (setTextSize e size)) /\
  (forall wrap, engine_ok (setTextWrap e wrap)) /\
  (forall spacing, engine_ok (setLineSpacing e spacing)) /\
  (forall x y w h, engine_ok (setTextArea e x y w h)).
Proof.
  intros Hok. split_and!; intros; unfold setTextSize, setLineSpacing;
    try case_match; done.
Qed.

(** ** Pixels and cells *)

Ltac unfold_screen :=
  unfold engine_ok, on_screen, cell_of, cell, transformCoordinates, in_buffer,
    LCD_H_RES, LCD_V_RES in *.

Ltac int16_in_range :=
  repeat match goal with
  | |- context [int16 ?z] => rewrite (int16_id z) by (unfold in_int16; lia)
  | H : context [int16 ?z] |- _ => rewrite (int16_id z) in H by (unfold in_int16; lia)
  end.

Lemma cell_inj px py qx qy :
  0 <= px < LCD_H_RES -> 0 <= qx < LCD_H_RES ->
  cell px py = cell qx qy -> px = qx /\ py = qy.
Proof. unfold cell, LCD_H_RES. lia. Qed.

Lemma cell_of_in_buffer e x y :
  engine_ok e -> on_screen e x y -> 0 <= cell_of e x y < LCD_H_RES * LCD_V_RES.
Proof.
  unfold_screen. intros Hok [Hx Hy].
  destruct (current_rotation e); destruct Hok as [Hw Hh]; rewrite Hw, Hh in *;
    int16_in_range; lia.
Qed.

Lemma cell_of_inj e x y u v :
  engine_ok e -> on_screen e x y -> on_screen e u v ->
  cell_of e x y = cell_of e u v -> x = u /\ y = v.
Proof.
  unfold_screen. intros Hok [Hx Hy] [Hu Hv].
  destruct (current_rotation e); destruct Hok as [Hw Hh]; rewrite Hw, Hh in *;
    int16_in_range; lia.
Qed.

(** Every physical cell is the cell of a point of the logical screen. *)
Lemma cell_of_surj e px py :
  engine_ok e -> 0 <= px < LCD_H_RES -> 0 <= py < LCD_V_RES ->
  exists x y, on_screen e x y /\ cell_of e x y = cell px py.
Proof.
  unfold_screen. intros Hok Hx Hy.
  destruct (current_rotation e) eqn:Hr; destruct Hok as [Hw Hh]; rewrite Hw, Hh.
  - exists px, py. lia.
  - exists py, (799 - px). int16_in_range. lia.
  - exists (799 - px), (479 - py). int16_in_range. lia.
  - exists (479 - py), px. int16_in_range. lia.
Qed.

Lemma pixel_in_buffer e x y c : Forall in_buffer (pixel e x y c).
Proof.
  unfold pixel. case_match; [|constructor].
  destruct (transformCoordinates e x y) as [px py].
  case_match; constructor; [|constructor].
  unfold in_buffer, LCD_H_RES, LCD_V_RES in *. simpl. lia.
Qed.

Lemma pixel_val e x y c s : s ∈ pixel e x y c -> val s = c.
Proof.
  unfold pixel. case_match; [|by intros ?%elem_of_nil].
  destruct (transformCoordinates e x y) as [px py].
  case_match; [|by intros ?%elem_of_nil].
  by intros ->%list_elem_of_singleton.
Qed.

Lemma pixel_off_screen e x y c : ~ on_screen e x y -> pixel e x y c = [].
Proof.
  unfold pixel, on_screen. intros Hoff. case_match; [|done]. lia.
Qed.

Lemma pixel_on_screen e x y c :
  engine_ok e -> on_screen e x y -> pixel e x y c = [Store (cell_of e x y) c].
Proof.
  intros Hok Hon. unfold pixel.
  replace ((0 <=? x) && (x <? display_width e) && (0 <=? y) && (y <? display_height e))
    with true by (unfold on_screen in Hon; lia).
  unfold_screen. destruct Hon as [Hx Hy].
  destruct (current_rotation e); destruct Hok as [Hw Hh]; rewrite Hw, Hh in *;
    int16_in_range; simpl;
    match goal with
    | |- (if ?b then _ else _) = _ => replace b with true by lia
    end; reflexivity.
Qed.

Lemma pixel_elem e x y c s :
  engine_ok e ->
  s ∈ pixel e x y c <-> on_screen e x y /\ s = Store (cell_of e x y) c.
Proof.
  intros Hok. destruct (decide (0 <= x < display_width e /\ 0 <= y < display_height e))
    as [Hon|Hoff].
  - rewrite pixel_on_screen by done. rewrite list_elem_of_singleton.
    split; [by intros ->|by intros [_ ->]].
  - rewrite pixel_off_screen by done. split; [by intros ?%elem_of_nil|].
    by intros [? _].
Qed.


(** ** Scanlines of the unrotated path *)

Lemma span_nil ptr n c : n <= 0 -> span ptr n c = [].
Proof. intros. unfold span. by rewrite seqZ_nil. Qed.

Lemma span_cons ptr n c : 0 < n -> span ptr n c = Store ptr c :: span (ptr + 1) (n - 1) c.
Proof.
  intros Hn. unfold span. rewrite seqZ_cons by done. simpl. f_equal.
  - f_equal. lia.
  - rewrite <- (fmap_add_seqZ 1 0). rewrite <- list_fmap_compose.
    replace (Z.pred n) with (n - 1) by lia.
    apply list_fmap_ext. intros _ i _. simpl. f_equal. lia.
Qed.

Lemma span_app ptr n m c :
  0 <= n -> 0 <= m -> span ptr (n + m) c = span ptr n c ++ span (ptr + n) m c.
Proof.
  intros Hn Hm. unfold span. rewrite seqZ_app, fmap_app by done. f_equal.
  replace (0 + n) with (n + 0) by lia.
  rewrite <- (fmap_add_seqZ n 0), <- list_fmap_compose.
  apply list_fmap_ext. intros _ i _. simpl. f_equal. lia.
Qed.

Lemma elem_of_span ptr n c s :
  s ∈ span ptr n c <-> val s = c /\ ptr <= addr s < ptr + n.
Proof.
  unfold span. rewrite list_elem_of_fmap. setoid_rewrite elem_of_seqZ. split.
  - intros (i & -> & Hi). simpl. lia.
  - intros [<- Ha]. exists (addr s - ptr). split; [|lia].
    destruct s as [a v]. simpl in *. f_equal. lia.
Qed.

Lemma unrolled_loop_spec rounds ptr pixels c :
  (Z.to_nat pixels <= rounds)%nat ->
  exists k, 0 <= k /\ (pixels < 4 -> k = 0) /\ pixels - 4 * k < 4 /\
            (0 < k -> 0 <= pixels - 4 * k) /\
            unrolled_loop rounds ptr pixels c =
              (span ptr (4 * k) c, (ptr + 4 * k, pixels - 4 * k)).
Proof.
  revert ptr pixels. induction rounds as [|rounds IH]; intros ptr pixels Hfuel.
  - exists 0. repeat split; try lia. simpl. rewrite span_nil by lia.
    by replace (ptr + 4 * 0) with ptr by lia; replace (pixels - 4 * 0) with pixels by lia.
  - simpl. destruct (pixels >=? 4) eqn:Hge.
    + destruct (IH (ptr + 4) (pixels - 4)) as (k & Hk & _ & Hlt & Hpos & ->); [lia|].
      exists (k + 1). repeat split; try lia.
      replace (ptr + 4 * (k + 1)) with (ptr + 4 + 4 * k) by lia.
      replace (pixels - 4 * (k + 1)) with (pixels - 4 - 4 * k) by lia.
      apply (f_equal (fun tr => (tr, _))).
      rewrite (span_cons ptr), (span_cons (ptr + 1)), (span_cons (ptr + 1 + 1)),
        (span_cons (ptr + 1 + 1 + 1)) by lia.
      replace (ptr + 1 + 1) with (ptr + 2) by lia.
      replace (ptr + 2 + 1) with (ptr + 3) by lia.
      replace (ptr + 3 + 1) with (ptr + 4) by lia.
      replace (4 * (k + 1) - 1 - 1 - 1 - 1) with (4 * k) by lia.
      done.
    + exists 0. repeat split; try lia. rewrite span_nil by lia.
      by replace (ptr + 4 * 0) with ptr by lia; replace (pixels - 4 * 0) with pixels by lia.
Qed.

Lemma remaining_loop_spec rounds ptr pixels c :
  (Z.to_nat pixels <= rounds)%nat ->
  remaining_loop rounds ptr pixels c = span ptr pixels c.
Proof.
  revert ptr pixels. induction rounds as [|rounds IH]; intros ptr pixels Hfuel.
  - simpl. rewrite span_nil by lia. done.
  - simpl. destruct (pixels >? 0) eqn:Hpos.
    + rewrite IH by lia. rewrite (span_cons ptr) by lia. done.
    + rewrite span_nil by lia. done.
Qed.

(** The two loops together store to the [w] cells of the scanline. *)
Lemma scanline_spec ptr w c : scanline ptr w c = span ptr w c.
Proof.
  unfold scanline.
  destruct (unrolled_loop_spec (Z.to_nat w) ptr w c) as (k & Hk & H0 & Hlt & Hpos & ->);
    [done|].
  rewrite remaining_loop_spec by done.
  destruct (decide (w < 4 /\ w <= 0)) as [Hsmall|Hbig].
  - rewrite H0 by lia. rewrite !span_nil by lia. done.
  - rewrite <- span_app; [by replace (4 * k + (w - 4 * k)) with w by lia|lia|].
    destruct (decide (0 < k)); [by apply Hpos|].
    assert (k = 0) by lia. lia.
Qed.

(** ** Clipping *)

Lemma clip_within lo len limit :
  lo < limit -> 0 < limit <= 32767 ->
  0 <= (clip lo len limit).1 /\
  (clip lo len limit).1 + (clip lo len limit).2 <= limit.
Proof.
  intros Hlo Hlim. unfold clip.
  destruct (lo <? 0) eqn:Hneg; simpl.
  - destruct (0 + int16 (len + lo) >? limit) eqn:Hover; simpl.
    + rewrite int16_id by (unfold in_int16; lia). lia.
    + lia.
  - destruct (lo + len >? limit) eqn:Hover; simpl.
    + rewrite int16_id by (unfold in_int16; lia). lia.
    + lia.
Qed.

(** On 16-bit arguments the kept part is exactly the part of the interval
    that lies on the screen. *)
Lemma clip_exact lo len limit u :
  in_int16 lo -> in_int16 len -> 0 < len -> lo < limit -> 0 < limit <= 32767 ->
  (clip lo len limit).1 <= u < (clip lo len limit).1 + (clip lo len limit).2
  <-> (lo <= u < lo + len) /\ (0 <= u < limit).
Proof.
  unfold in_int16. intros Hlo Hlen Hpos Hlt Hlim. unfold clip.
  destruct (lo <? 0) eqn:Hneg; simpl.
  - rewrite (int16_id (len + lo)) by (unfold in_int16; lia).
    destruct (0 + (len + lo) >? limit) eqn:Hover; simpl.
    + rewrite int16_id by (unfold in_int16; lia). lia.
    + lia.
  - destruct (lo + len >? limit) eqn:Hover; simpl.
    + rewrite int16_id by (unfold in_int16; lia). lia.
    + lia.
Qed.

(** ** Filled rectangles *)

(** [fillRect] with the two axes clipped separately. *)
Lemma fillRect_clip e x y w h c :
  fillRect e x y w h c =
    if (x >=? display_width e) || (y >=? display_height e) || (w <=? 0) || (h <=? 0)
    then []
    else
      let cx := clip x w (display_width e) in
      let cy := clip y h (display_height e) in
      match current_rotation e with
      | ROTATION_0 =>
          row ← seqZ 0 cy.2; scanline ((cy.1 + row) * LCD_H_RES + cx.1) cx.2 c
      | _ =>
          row ← seqZ 0 cy.2; col ← seqZ 0 cx.2;
          pixel e (int16 (cx.1 + col)) (int16 (cy.1 + row)) c
      end.
Proof.
  unfold fillRect, clip.
  destruct (_ || _); [done|].
  destruct (x <? 0), (y <? 0); simpl; reflexivity.
Qed.

Lemma fillRect_val e x y w h c s : s ∈ fillRect e x y w h c -> val s = c.
Proof.
  rewrite fillRect_clip. case_match; [by intros ?%elem_of_nil|].
  simpl. destruct (current_rotation e).
  - intros (row & Hs & _)%list_elem_of_bind.
    rewrite scanline_spec in Hs. by apply elem_of_span in Hs as [? _].
  - intros (row & (col & Hs & _)%list_elem_of_bind & _)%list_elem_of_bind.
    by apply pixel_val in Hs.
  - intros (row & (col & Hs & _)%list_elem_of_bind & _)%list_elem_of_bind.
    by apply pixel_val in Hs.
  - intros (row & (col & Hs & _)%list_elem_of_bind & _)%list_elem_of_bind.
    by apply pixel_val in Hs.
Qed.


Lemma engine_ok_dims e :
  engine_ok e ->
  0 < display_width e <= 800 /\ 0 < display_height e <= 800 /\
  (current_rotation e = ROTATION_0 -> display_width e = 800 /\ display_height e = 480).
Proof.
  unfold engine_ok, LCD_H_RES, LCD_V_RES.
  destruct (current_rotation e); intros [-> ->]; repeat split; try lia; done.
Qed.

(** No store of [fillRect] leaves the framebuffer, whatever the arguments. *)
Lemma fillRect_in_buffer e x y w h c :
  engine_ok e -> Forall in_buffer (fillRect e x y w h c).
Proof.
  intros Hok. rewrite fillRect_clip.
  destruct (_ || _) eqn:Hguard; [constructor|].
  destruct (engine_ok_dims e Hok) as (Hw & Hh & H0).
  pose proof (clip_within x w (display_width e)) as Hcx.
  pose proof (clip_within y h (display_height e)) as Hcy.
  simpl. destruct (current_rotation e) eqn:Hrot.
  2-4: apply Forall_bind, Forall_forall; intros row _;
       apply Forall_bind, Forall_forall; intros col _; apply pixel_in_buffer.
  destruct H0 as [Hw0 Hh0]; [done|].
  apply Forall_bind, Forall_forall. intros row Hrow%elem_of_seqZ.
  simpl. rewrite scanline_spec. apply Forall_forall. intros s [_ Hs]%elem_of_span.
  unfold in_buffer, LCD_H_RES, LCD_V_RES in *. lia.
Qed.

(** The stores of [fillRect] paint the part of the rectangle that lies on
    the logical screen, and nothing else. *)
Lemma fillRect_elem e x y w h c s :
  engine_ok e -> in_int16 x -> in_int16 y -> in_int16 w -> in_int16 h ->
  s ∈ fillRect e x y w h c <->
  val s = c /\
  exists u v, (x <= u < x + w) /\ (y <= v < y + h) /\ on_screen e u v /\
              addr s = cell_of e u v.
Proof.
  intros Hok Hx Hy Hw Hh. rewrite fillRect_clip.
  destruct (_ || _) eqn:Hguard.
  { split; [by intros ?%elem_of_nil|].
    intros (_ & u & v & Hu & Hv & [Hsu Hsv] & _). lia. }
  destruct (engine_ok_dims e Hok) as (Hdw & Hdh & H0).
  pose proof (clip_within x w (display_width e)) as Hcx.
  pose proof (clip_within y h (display_height e)) as Hcy.
  pose proof (fun u => clip_exact x w (display_width e) u) as Hex.
  pose proof (fun v => clip_exact y h (display_height e) v) as Hey.
  simpl.
  set (cx := clip x w (display_width e)) in *.
  set (cy := clip y h (display_height e)) in *.
  assert (forall u v, on_screen e u v -> cx.1 <= u < cx.1 + cx.2 -> cy.1 <= v < cy.1 + cy.2 ->
            (x <= u < x + w) /\ (y <= v < y + h)) as Hin.
  { intros u v [Hu Hv] Hcu Hcv. apply Hex in Hcu; [|done|done|lia..].
    apply Hey in Hcv; [|done|done|lia..]. lia. }
  assert (forall u v, on_screen e u v -> x <= u < x + w -> y <= v < y + h ->
            (cx.1 <= u < cx.1 + cx.2) /\ (cy.1 <= v < cy.1 + cy.2)) as Hout.
  { intros u v [Hu Hv] Hcu Hcv. split; [apply Hex|apply Hey]; try done; lia. }
  assert (forall row col, 0 <= row < cy.2 -> 0 <= col < cx.2 ->
            on_screen e (cx.1 + col) (cy.1 + row)) as Hon.
  { intros row col Hrow Hcol. unfold on_screen. lia. }
  assert (s ∈ (row ← seqZ 0 cy.2; col ← seqZ 0 cx.2;
               pixel e (int16 (cx.1 + col)) (int16 (cy.1 + row)) c) <->
          val s = c /\
          exists u v, (x <= u < x + w) /\ (y <= v < y + h) /\ on_screen e u v /\
                      addr s = cell_of e u v) as Hrotated.
  { split.
    - intros (row & (col & Hs & Hcol%elem_of_seqZ)%list_elem_of_bind
                  & Hrow%elem_of_seqZ)%list_elem_of_bind.
      specialize (Hon row col ltac:(lia) ltac:(lia)).
      rewrite !int16_id in Hs by (destruct Hon; unfold in_int16; lia).
      apply pixel_elem in Hs as [_ ->]; [|done]. split; [done|].
      exists (cx.1 + col), (cy.1 + row).
      destruct (Hin _ _ Hon) as [? ?]; [lia..|]. done.
    - intros (Hval & u & v & Hu & Hv & Hsc & Haddr).
      destruct (Hout u v Hsc Hu Hv) as [Hcu Hcv].
      apply list_elem_of_bind. exists (v - cy.1). split; [|apply elem_of_seqZ; lia].
      apply list_elem_of_bind. exists (u - cx.1). split; [|apply elem_of_seqZ; lia].
      replace (cx.1 + (u - cx.1)) with u by lia.
      replace (cy.1 + (v - cy.1)) with v by lia.
      rewrite !int16_id by (destruct Hsc; unfold in_int16; lia).
      apply pixel_elem; [done|]. split; [done|].
      destruct s as [a b]. simpl in *. by subst. }
  destruct (current_rotation e) eqn:Hrot; [|done..].
  destruct H0 as [Hw0 Hh0]; [done|].
  assert (forall u v, cell_of e u v = v * 800 + u) as Hcell.
  { intros. unfold cell_of, transformCoordinates, cell, LCD_H_RES. by rewrite Hrot. }
  split.
  - intros (row & Hs & Hrow%elem_of_seqZ)%list_elem_of_bind.
    rewrite scanline_spec in Hs. apply elem_of_span in Hs as [Hval Hs].
    split; [done|]. unfold LCD_H_RES in Hs.
    set (col := addr s - ((cy.1 + row) * 800 + cx.1)).
    specialize (Hon row col ltac:(lia) ltac:(lia)).
    exists (cx.1 + col), (cy.1 + row).
    destruct (Hin _ _ Hon) as [? ?]; [lia..|].
    rewrite Hcell. repeat split; try done; lia.
  - intros (Hval & u & v & Hu & Hv & Hsc & Haddr).
    destruct (Hout u v Hsc Hu Hv) as [Hcu Hcv].
    apply list_elem_of_bind. exists (v - cy.1). split; [|apply elem_of_seqZ; lia].
    rewrite scanline_spec. apply elem_of_span. split; [done|].
    rewrite Haddr, Hcell. unfold LCD_H_RES. lia.
Qed.


(** ** Rotation and the text area *)

(** What [setRotation] does to the dimensions and to the text area: the
    size of the text area follows the new logical screen, its origin is
    the one it had. *)
Lemma setRotation_spec e r :
  let e' := setRotation e r in
  current_rotation e' = r /\
  (getWidth e', getHeight e') =
    match r with
    | ROTATION_0 | ROTATION_180 => (LCD_H_RES, LCD_V_RES)
    | ROTATION_90 | ROTATION_270 => (LCD_V_RES, LCD_H_RES)
    end /\
  text_area_w e' = getWidth e' /\ text_area_h e' = getHeight e' /\
  text_area_x e' = text_area_x e /\ text_area_y e' = text_area_y e.
Proof. destruct r; repeat split. Qed.

(** C1: after [setTextArea(50, 50, 300, 200)] and [setRotation(ROTATION_90)]
    the logical screen is 480x800, and the text area is 480x800 too, but
    its origin is still (50, 50): the text area is not the full logical
    rectangle with origin (0, 0). *)
Theorem setRotation_keeps_text_area_origin :
  let e := setRotation (setTextArea begin 50 50 300 200) ROTATION_90 in
  (getWidth e, getHeight e) = (480, 800) /\
  (text_area_x e, text_area_y e, text_area_w e, text_area_h e) = (50, 50, 480, 800) /\
  (text_area_x e, text_area_y e, text_area_w e, text_area_h e) <> (0, 0, 480, 800).
Proof. repeat split. discriminate. Qed.

(** ** Clearing the screen *)

(** C2: in every rotation, [clear(C)] leaves every one of the
    [LCD_H_RES * LCD_V_RES] physical framebuffer cells equal to [C]. *)
Theorem clear_fills_every_cell (e : Engine) (fb : list Z) (C i : Z) :
  engine_ok e ->
  Z.of_nat (length fb) = LCD_H_RES * LCD_V_RES ->
  0 <= i < LCD_H_RES * LCD_V_RES ->
  exec (clear e C) fb !! Z.to_nat i = Some C.
Proof.
  intros Hok Hlen Hi.
  destruct (engine_ok_dims e Hok) as (Hw & Hh & _).
  destruct (cell_of_surj e (i mod 800) (i / 800) Hok) as (x & y & Hon & Hcell).
  { unfold LCD_H_RES. apply Z.mod_pos_bound. lia. }
  { unfold LCD_H_RES, LCD_V_RES in *. split; [apply Z.div_pos; lia|].
    apply Z.div_lt_upper_bound; lia. }
  assert (cell (i mod 800) (i / 800) = i) as Hi'.
  { unfold cell, LCD_H_RES. pose proof (Z_div_mod_eq_full i 800). lia. }
  apply exec_painted; [lia|apply fillRect_val|].
  exists (Store i C). split; [|done].
  apply fillRect_elem; [done|unfold in_int16; lia..|].
  split; [done|]. exists x, y. destruct Hon as [Hx Hy]. simpl.
  repeat split; lia.
Qed.

Lemma clear_fills_every_cell_witness :
  exec (clear (setRotation begin ROTATION_90) COLOR_RED)
       (replicate (Z.to_nat (LCD_H_RES * LCD_V_RES)) COLOR_BLACK)
    !! Z.to_nat 12345 = Some COLOR_RED.
Proof.
  apply clear_fills_every_cell.
  - apply setRotation_ok.
  - rewrite length_replicate. apply Z2Nat.id. unfold LCD_H_RES, LCD_V_RES. lia.
  - unfold LCD_H_RES, LCD_V_RES. lia.
Defined.

(** ** Clipping of a rectangle with a negative origin *)

(** C5: at rotation 0, [fillRect(-5, -5, 20, 20, C)] stores [C] into the
    physical cells of [0,15) x [0,15) and leaves every other cell of the
    framebuffer as it was. *)
Theorem fillRect_negative_origin (e : Engine) (fb : list Z) (C px py : Z) :
  current_rotation e = ROTATION_0 ->
  engine_ok e ->
  Z.of_nat (length fb) = LCD_H_RES * LCD_V_RES ->
  0 <= px < LCD_H_RES -> 0 <= py < LCD_V_RES ->
  exec (fillRect e (-5) (-5) 20 20 C) fb !! Z.to_nat (cell px py) =
    if (px <? 15) && (py <? 15) then Some C else fb !! Z.to_nat (cell px py).
Proof.
  intros Hrot Hok Hlen Hpx Hpy.
  destruct (engine_ok_dims e Hok) as (_ & _ & [Hw Hh]); [done|].
  assert (forall u v, cell_of e u v = cell u v) as Hcell.
  { intros. unfold cell_of, transformCoordinates. by rewrite Hrot. }
  assert (0 <= cell px py < LCD_H_RES * LCD_V_RES) as Hrange.
  { unfold cell, LCD_H_RES, LCD_V_RES in *. lia. }
  destruct ((px <? 15) && (py <? 15)) eqn:Hin.
  - apply exec_painted; [lia|apply fillRect_val|].
    exists (Store (cell px py) C). split; [|done].
    apply fillRect_elem; [done|unfold in_int16; lia..|].
    split; [done|]. exists px, py. rewrite Hcell. unfold on_screen.
    repeat split; lia.
  - apply exec_untouched; [lia|]. intros s Hs Haddr.
    apply fillRect_elem in Hs as (_ & u & v & Hu & Hv & [Hsu Hsv] & Hs);
      [|done|unfold in_int16; lia..].
    rewrite Hcell, Haddr in Hs. apply cell_inj in Hs as [-> ->]; [lia|done|].
    unfold LCD_H_RES. lia.
Qed.

Lemma fillRect_negative_origin_witness :
  let fb := replicate (Z.to_nat (LCD_H_RES * LCD_V_RES)) COLOR_BLACK in
  exec (fillRect begin (-5) (-5) 20 20 COLOR_RED) fb !! Z.to_nat (cell 14 14) = Some COLOR_RED /\
  exec (fillRect begin (-5) (-5) 20 20 COLOR_RED) fb !! Z.to_nat (cell 15 14) =
    fb !! Z.to_nat (cell 15 14).
Proof.
  assert (Z.of_nat (length (replicate (Z.to_nat (LCD_H_RES * LCD_V_RES)) COLOR_BLACK))
          = LCD_H_RES * LCD_V_RES) as Hlen.
  { rewrite length_replicate. apply Z2Nat.id. unfold LCD_H_RES, LCD_V_RES. lia. }
  split.
  - apply (fillRect_negative_origin begin _ COLOR_RED 14 14);
      [reflexivity|apply begin_ok|exact Hlen|unfold LCD_H_RES; lia|unfold LCD_V_RES; lia].
  - apply (fillRect_negative_origin begin _ COLOR_RED 15 14);
      [reflexivity|apply begin_ok|exact Hlen|unfold LCD_H_RES; lia|unfold LCD_V_RES; lia].
Defined.


(** ** Invalid parameters *)

(** C6: invalid parameters make the call a silent no-op.  [fillRect] with
    a non-positive width or height, [circle] and [fillCircle] with a
    non-positive radius and [drawChar] with a code outside 0-127 perform no
    store, so the framebuffer is unchanged (they assign no engine variable
    at all); [setTextSize] outside 1-10 and [setLineSpacing] outside 0-20
    return the engine state they were given. *)
Theorem invalid_parameters_are_no_ops (e : Engine) (fb : list Z) :
  (forall x y w h color, w <= 0 \/ h <= 0 ->
     fillRect e x y w h color = [] /\ exec (fillRect e x y w h color) fb = fb) /\
  (forall x0 y0 radius color, radius <= 0 ->
     circle e x0 y0 radius color = Finished [] /\
     exec (stores_of (circle e x0 y0 radius color)) fb = fb) /\
  (forall x0 y0 radius color, radius <= 0 ->
     fillCircle e x0 y0 radius color = Finished [] /\
     exec (stores_of (fillCircle e x0 y0 radius color)) fb = fb) /\
  (forall x y c color bg size, c < 0 \/ 127 < c ->
     drawChar e x y c color bg size = [] /\
     exec (drawChar e x y c color bg size) fb = fb) /\
  (forall size, size < 1 \/ 10 < size -> setTextSize e size = e) /\
  (forall spacing, spacing < 0 \/ 20 < spacing -> setLineSpacing e spacing = e).
Proof.
  repeat split; intros.
  - unfold fillRect. by replace (_ || _) with true by lia.
  - unfold fillRect. by replace (_ || _) with true by lia.
  - unfold circle. by replace (radius <=? 0) with true by lia.
  - unfold circle. by replace (radius <=? 0) with true by lia.
  - unfold fillCircle. by replace (radius <=? 0) with true by lia.
  - unfold fillCircle. by replace (radius <=? 0) with true by lia.
  - unfold drawChar. by replace (_ || _) with true by lia.
  - unfold drawChar. by replace (_ || _) with true by lia.
  - unfold setTextSize. by replace (_ && _) with false by lia.
  - unfold setLineSpacing. by replace (_ && _) with false by lia.
Qed.

Lemma invalid_parameters_are_no_ops_witness :
  exec (fillRect begin 10 10 0 5 COLOR_RED) [COLOR_BLACK] = [COLOR_BLACK] /\
  circle begin 10 10 0 COLOR_RED = Finished [] /\
  fillCircle begin 10 10 (-3) COLOR_RED = Finished [] /\
  drawChar begin 0 0 200 COLOR_WHITE COLOR_BLACK 1 = [] /\
  setTextSize begin 11 = begin /\
  setLineSpacing begin (-1) = begin.
Proof.
  destruct (invalid_parameters_are_no_ops begin [COLOR_BLACK])
    as (Hrect & Hcircle & Hfill & Hchar & Hsize & Hspacing).
  split; [apply Hrect; lia|].
  split; [apply Hcircle; lia|].
  split; [apply Hfill; lia|].
  split; [apply Hchar; lia|].
  split; [apply Hsize; lia|apply Hspacing; lia].
Defined.

(** ** Composing the 90 and 270 degree transforms *)

(** C7: the 90 degree transform followed by the 270 degree transform
    never returns a point to where it was: it maps [(x, y)] to
    [(x, y + LCD_V_RES - LCD_H_RES)], the second coordinate taken as a
    16-bit value (it is exactly [y + LCD_V_RES - LCD_H_RES] whenever that
    is representable, so for every point of the screen). *)
Theorem rotate_90_then_270_is_a_shift (e90 e270 : Engine) (x y : Z) :
  current_rotation e90 = ROTATION_90 ->
  current_rotation e270 = ROTATION_270 ->
  in_int16 x -> in_int16 y ->
  let '(x1, y1) := transformCoordinates e90 x y in
  let p := transformCoordinates e270 x1 y1 in
  p <> (x, y) /\
  p = (x, int16 (y + LCD_V_RES - LCD_H_RES)) /\
  (in_int16 (y + LCD_V_RES - LCD_H_RES) -> p = (x, y + LCD_V_RES - LCD_H_RES)).
Proof.
  intros H90 H270 Hx Hy. unfold transformCoordinates. rewrite H90, H270.
  unfold LCD_H_RES, LCD_V_RES.
  assert (int16 (480 - 1 - int16 (800 - 1 - y)) = int16 (y + 480 - 800)) as ->.
  { destruct (int16_diff (800 - 1 - y)) as [k ->].
    apply (int16_congr _ _ (- k)). lia. }
  split; [|split; [done|]].
  - destruct (int16_diff (y + 480 - 800)) as [k ->]. intros [=]. lia.
  - intros Hrange. by rewrite int16_id.
Qed.

Lemma rotate_90_then_270_is_a_shift_witness :
  transformCoordinates (setRotation begin ROTATION_270) (800 - 1 - 20) 10 <> (10, 20) /\
  transformCoordinates (setRotation begin ROTATION_270) (800 - 1 - 20) 10 = (10, -300).
Proof.
  pose proof (rotate_90_then_270_is_a_shift
                (setRotation begin ROTATION_90) (setRotation begin ROTATION_270) 10 20
                eq_refl eq_refl ltac:(unfold in_int16; lia) ltac:(unfold in_int16; lia))
    as (Hne & _ & Heq).
  split; [exact Hne|]. apply Heq. unfold in_int16, LCD_V_RES, LCD_H_RES. lia.
Defined.

(** ** The cursor stream: line breaks *)

Lemma print_newline e : print e [10] = newLine e.
Proof. simpl. destruct (newLine e) as [e' tr]. by rewrite app_nil_r. Qed.

(** C4, amended: in the print path ['\n'] is [newLine]: the cursor goes to
    the left edge of the text area and down by [text_size * 8 + line_spacing]
    (as a 16-bit value).  The text area is cleared exactly when the next
    line of glyphs would end beyond the bottom edge, that is when the new
    [y] plus [text_size * 8] exceeds it; this includes every new [y] beyond
    the edge.  The clear is one [fillRect] of the area with the background
    colour, so every pixel of the area that is on the screen holds that
    colour, and the cursor goes to the top-left corner of the area.
    Otherwise the cursor stays on the new line and nothing is drawn.
    Nothing is scrolled. *)
Theorem newline_moves_or_clears (e : Engine) :
  let y' := int16 (cursor_y e + (text_size e * 8 + line_spacing e)) in
  let bottom := text_area_y e + text_area_h e in
  let area := fillRect e (text_area_x e) (text_area_y e) (text_area_w e) (text_area_h e)
                       (text_bg_color e) in
  print e [10] = newLine e /\
  print_char e 10 = newLine e /\
  (in_int16 (cursor_y e + (text_size e * 8 + line_spacing e)) ->
     y' = cursor_y e + (text_size e * 8 + line_spacing e)) /\
  (y' + text_size e * 8 <= bottom ->
     newLine e = (with_cursor e (text_area_x e) y', [])) /\
  (bottom < y' + text_size e * 8 ->
     newLine e = (with_cursor e (text_area_x e) (text_area_y e), area)) /\
  (0 <= text_size e -> bottom < y' ->
     newLine e = (with_cursor e (text_area_x e) (text_area_y e), area)) /\
  (engine_ok e ->
   in_int16 (text_area_x e) -> in_int16 (text_area_y e) ->
   in_int16 (text_area_w e) -> in_int16 (text_area_h e) ->
   forall (fb : list Z) (u v : Z),
     Z.of_nat (length fb) = LCD_H_RES * LCD_V_RES ->
     text_area_x e <= u < text_area_x e + text_area_w e ->
     text_area_y e <= v < text_area_y e + text_area_h e ->
     on_screen e u v ->
     exec area fb !! Z.to_nat (cell_of e u v) = Some (text_bg_color e)).
Proof.
  intros y' bottom area.
  assert (bottom < y' + text_size e * 8 ->
          newLine e = (with_cursor e (text_area_x e) (text_area_y e), area)) as Hclear.
  { intros Hover. unfold newLine. simpl. fold y'.
    replace (y' + text_size e * 8 >? text_area_y e + text_area_h e) with true
      by (subst bottom; lia).
    reflexivity. }
  split; [apply print_newline|]. split; [reflexivity|].
  split; [intros Hr; by apply int16_id|].
  split; [|split; [done|split]].
  - intros Hfits. unfold newLine. simpl. fold y'.
    by replace (y' + text_size e * 8 >? text_area_y e + text_area_h e) with false
      by (subst bottom; lia).
  - intros Hsize Hbelow. apply Hclear. lia.
  - intros Hok Hx Hy Hw Hh fb u v Hlen Hu Hv Hon.
    pose proof (cell_of_in_buffer e u v Hok Hon).
    apply exec_painted; [lia|apply fillRect_val|].
    exists (Store (cell_of e u v) (text_bg_color e)). split; [|done].
    apply fillRect_elem; try done. split; [done|]. by exists u, v.
Qed.

Lemma newline_moves_or_clears_witness :
  newLine (setCursor begin 0 470) =
    (with_cursor (setCursor begin 0 470) 0 0,
     fillRect (setCursor begin 0 470) 0 0 LCD_H_RES LCD_V_RES COLOR_BLACK) /\
  newLine (setCursor begin 30 100) = (with_cursor (setCursor begin 30 100) 0 110, []).
Proof.
  split.
  - destruct (newline_moves_or_clears (setCursor begin 0 470))
      as (_ & _ & _ & _ & Hclear & _).
    apply Hclear. vm_compute. reflexivity.
  - destruct (newline_moves_or_clears (setCursor begin 30 100))
      as (_ & _ & _ & Hmove & _).
    apply Hmove. vm_compute. discriminate.
Defined.

(** C4, as stated, fails when the new [y] is still above the bottom edge
    but the line of glyphs that starts there is not: from [y = 465] on the
    480 rows of the default text area the new [y] is 475, which does not
    exceed the edge, and yet the area is cleared and the cursor ends at
    the top. *)
Lemma newline_clears_before_the_bottom_edge :
  ~ newline_as_specified (setCursor begin 0 465).
Proof.
  unfold newline_as_specified. intros Hspec.
  apply (f_equal (fun r => cursor_y r.1)) in Hspec.
  lazy in Hspec. discriminate.
Qed.


(** ** The cursor stream: bytes outside ASCII *)

(** C10: a byte outside 0-127 (so neither ['\n'] nor ['\r']) is skipped by
    both print functions: [print] of a single char performs no store and
    returns the engine state unchanged, cursor included, and [print] of a
    string behaves as if the byte were not in the string. *)
Theorem print_skips_bytes_outside_ascii (c : Z) :
  c < 0 \/ 127 < c ->
  forall e : Engine,
    print_char e c = (e, []) /\
    (forall fb, exec (print_char e c).2 fb = fb) /\
    print e [c] = (e, []) /\
    (forall s1 s2, print e (s1 ++ c :: s2) = print e (s1 ++ s2)).
Proof.
  intros Hc.
  assert (forall e, print_char e c = (e, [])) as Hchar.
  { intros e. unfold print_char.
    replace (c =? 10) with false by lia. replace (c =? 13) with false by lia.
    by replace ((c >=? 0) && (c <=? 127)) with false by lia. }
  assert (forall e s, print e (c :: s) = print e s) as Hskip.
  { intros e s. simpl.
    replace (c =? 0) with false by lia.
    replace (c =? 10) with false by lia. replace (c =? 13) with false by lia.
    replace ((c >=? 0) && (c <=? 127)) with false by lia.
    by destruct (print e s). }
  intros e. split; [done|]. split; [by rewrite Hchar|]. split; [by rewrite Hskip|].
  intros s1. revert e. induction s1 as [|a s1 IH]; intros e s2.
  - apply Hskip.
  - simpl. destruct (a =? 0); [done|].
    destruct (if a =? 10 then _ else _) as [e1 tr1]. by rewrite IH.
Qed.

Lemma print_skips_bytes_outside_ascii_witness :
  print_char (setCursor begin 10 10) 200 = (setCursor begin 10 10, []) /\
  print (setCursor begin 10 10) ([65] ++ (-56) :: [66]) =
  print (setCursor begin 10 10) ([65] ++ [66]).
Proof.
  split.
  - apply (print_skips_bytes_outside_ascii 200); lia.
  - apply (print_skips_bytes_outside_ascii (-56)); lia.
Defined.

(** ** The word buffer of [printWrapped] *)

(** A word of 50 or more bytes that runs to the end of the string: the
    first 49 bytes fill [word_buffer[0..48]], the bytes after them are
    dropped, the last byte of the string is stored unguarded at index 49,
    and the terminator is then written at index 50, past the end of the
    array. *)
Lemma printWrapped_loop_overrun e x maxWidth color size line_height str cx cy word :
  str <> [] ->
  Forall (fun c => c <> 0 /\ is_separator c = false) str ->
  (length word <= 49)%nat ->
  (50 <= length word + length str)%nat ->
  printWrapped_loop e x maxWidth color size line_height str cx cy word =
    BufferOverrun 50 [].
Proof.
  revert word. induction str as [|c str IH]; intros word Hne Hgood Hw Hlen; [done|].
  apply Forall_cons in Hgood as [[Hc Hsep] Hgood].
  simpl. replace (c =? 0) with false by lia. rewrite Hsep. simpl.
  destruct str as [|c' str].
  - simpl in *. assert (length word = 49%nat) as Hw49 by lia.
    rewrite length_app, Hw49. reflexivity.
  - pose proof Hgood as [[Hc' _] _]%Forall_cons.
    replace (c' =? 0) with false by lia.
    apply IH; [done|done|..].
    + case_match; [rewrite length_app; simpl|]; lia.
    + case_match; [rewrite length_app|]; simpl in *; lia.
Qed.

(** C3: on a string that is one word of 50 letters, [printWrapped] writes
    the terminator to [word_buffer[50]], outside the 50-byte buffer: the
    write does not stay within the bounds of the buffer. *)
Theorem printWrapped_overruns_word_buffer :
  printWrapped begin 0 0 800 (replicate 50 97) COLOR_WHITE 1 = BufferOverrun 50 [] /\
  ~ (0 <= 50 < WORD_BUFFER_SIZE).
Proof. split; [vm_compute; reflexivity|unfold WORD_BUFFER_SIZE; lia]. Qed.


(** ** Memory safety of the framebuffer stores *)

Section Safety.
Variable e : Engine.
Hypothesis Hok : engine_ok e.

Lemma before_in_buffer tr r :
  Forall in_buffer tr -> Forall in_buffer (stores_of r) ->
  Forall in_buffer (stores_of (before tr r)).
Proof. destruct r; simpl; intros; by apply Forall_app. Qed.

Lemma and_then_in_buffer r1 r2 :
  Forall in_buffer (stores_of r1) -> Forall in_buffer (stores_of r2) ->
  Forall in_buffer (stores_of (and_then r1 r2)).
Proof. destruct r1; simpl; [apply before_in_buffer|done]. Qed.

Lemma clear_in_buffer c : Forall in_buffer (clear e c).
Proof. by apply fillRect_in_buffer. Qed.

Lemma circle_loop_in_buffer fuel x0 y0 c x y d :
  Forall in_buffer (stores_of (circle_loop fuel e x0 y0 c x y d)).
Proof.
  revert x y d. induction fuel as [|fuel IH]; intros x y d; simpl.
  - by destruct (x <=? y).
  - destruct (x <=? y); [|constructor].
    destruct (if d <? 0 then _ else _) as [d' y'].
    apply before_in_buffer; [|apply IH].
    repeat (apply Forall_app; split); apply pixel_in_buffer.
Qed.

Lemma circle_in_buffer x0 y0 radius c :
  Forall in_buffer (stores_of (circle e x0 y0 radius c)).
Proof.
  unfold circle. destruct (radius <=? 0); [constructor|].
  apply circle_loop_in_buffer.
Qed.

Lemma fillCircle_loop_in_buffer fuel x0 y0 c x y d :
  Forall in_buffer (stores_of (fillCircle_loop fuel e x0 y0 c x y d)).
Proof.
  revert x y d. induction fuel as [|fuel IH]; intros x y d; simpl.
  - by destruct (x <? y).
  - destruct (x <? y); [|constructor].
    assert (forall a b w a' b' w',
              Forall in_buffer (fillRect e a b w 1 c ++ fillRect e a' b' w' 1 c)) as Hpair.
    { intros. apply Forall_app. split; by apply fillRect_in_buffer. }
    destruct (d <? 0); (apply before_in_buffer; [|apply IH]);
      (apply Forall_app; split; [first [done|apply Hpair]|]);
      (case_match; [apply Hpair|constructor]).
Qed.

Lemma fillCircle_in_buffer x0 y0 radius c :
  Forall in_buffer (stores_of (fillCircle e x0 y0 radius c)).
Proof.
  unfold fillCircle. destruct (radius <=? 0); [constructor|].
  apply before_in_buffer; [by apply fillRect_in_buffer|].
  apply fillCircle_loop_in_buffer.
Qed.

Lemma line_loop_in_buffer fuel x1 y1 c dx dy sx sy err x y :
  Forall in_buffer (stores_of (line_loop fuel e x1 y1 c dx dy sx sy err x y)).
Proof.
  revert err x y. induction fuel as [|fuel IH]; intros err x y; simpl; [constructor|].
  destruct ((x =? x1) && (y =? y1)); [apply pixel_in_buffer|].
  destruct (if int16 (2 * err) >? - dy then _ else _) as [err' x'].
  destruct (if int16 (2 * err) <? dx then _ else _) as [err'' y'].
  apply before_in_buffer; [apply pixel_in_buffer|apply IH].
Qed.

Lemma line_in_buffer fuel x0 y0 x1 y1 c :
  Forall in_buffer (stores_of (line fuel e x0 y0 x1 y1 c)).
Proof.
  unfold line. destruct (y0 =? y1).
  { destruct (x0 >? x1); by apply fillRect_in_buffer. }
  destruct (x0 =? x1).
  { destruct (y0 >? y1); by apply fillRect_in_buffer. }
  apply line_loop_in_buffer.
Qed.

Lemma rect_in_buffer fuel x y w h c :
  Forall in_buffer (stores_of (rect fuel e x y w h c)).
Proof. unfold rect. repeat apply and_then_in_buffer; apply line_in_buffer. Qed.

Lemma drawChar_in_buffer x y ch color bg size :
  Forall in_buffer (drawChar e x y ch color bg size).
Proof.
  unfold drawChar. destruct (_ || _); [constructor|].
  generalize (nth (Z.to_nat ch) font8x8_basic []). intros char_data.
  destruct (size =? 1);
    apply Forall_bind, Forall_forall; intros row _; cbv beta zeta delta [compose];
    generalize (nth (Z.to_nat row) char_data 0); intros bits;
    apply Forall_bind, Forall_forall; intros col _; cbv beta delta [compose];
    (destruct (negb (Z.land bits (Z.shiftl 1 col) =? 0));
     [|destruct (negb (bg =? color)); [|constructor]]);
    first [apply pixel_in_buffer | by apply fillRect_in_buffer].
Qed.

Lemma text_loop_in_buffer x str color bg size cx cy :
  Forall in_buffer (text_loop e x str color bg size cx cy).
Proof.
  revert cx cy. induction str as [|ch str IH]; intros cx cy; simpl; [constructor|].
  repeat case_match; try constructor; try apply IH.
  apply Forall_app. split; [apply drawChar_in_buffer|apply IH].
Qed.

Lemma text_in_buffer x y str color bg size :
  Forall in_buffer (text e x y str color bg size).
Proof. apply text_loop_in_buffer. Qed.

Lemma printWrapped_loop_in_buffer x maxWidth color size line_height str cx cy word :
  Forall in_buffer
    (drawn (printWrapped_loop e x maxWidth color size line_height str cx cy word)).
Proof.
  revert cx cy word. induction str as [|ch str IH]; intros cx cy word; [constructor|].
  cbn [printWrapped_loop].
  destruct (ch =? 0); [constructor|].
  destruct (is_separator ch || _); [|apply IH].
  destruct (negb (is_separator ch) && _); [constructor|].
  destruct (negb (_ <? WORD_BUFFER_SIZE)); [constructor|].
  destruct (if (_ && _) then _ else _) as [cx1 cy1].
  destruct (if ch =? 32 then _ else _) as [cx2 cy2].
  match goal with
  | |- Forall _ (drawn (drawn_before ?tr ?r)) =>
      assert (Forall in_buffer tr) as Htr by apply text_in_buffer;
      specialize (IH cx2 cy2 []); destruct r; simpl in *; by apply Forall_app
  end.
Qed.
End Safety.

(** The routines that move the cursor keep the rotation and the logical
    dimensions, hence the invariant. *)
Lemma clearTextArea_safe e :
  engine_ok e -> engine_ok (clearTextArea e).1 /\ Forall in_buffer (clearTextArea e).2.
Proof. intros Hok. split; [done|]. by apply fillRect_in_buffer. Qed.

Lemma newLine_safe e :
  engine_ok e -> engine_ok (newLine e).1 /\ Forall in_buffer (newLine e).2.
Proof.
  intros Hok. unfold newLine. case_match; [|by split; [|constructor]].
  by apply clearTextArea_safe.
Qed.

Lemma advanceCursor_safe e w h :
  engine_ok e -> engine_ok (advanceCursor e w h).1 /\ Forall in_buffer (advanceCursor e w h).2.
Proof.
  intros Hok. unfold advanceCursor. case_match; [|by split; [|constructor]].
  by apply newLine_safe.
Qed.

Lemma print_char_safe e ch :
  engine_ok e -> engine_ok (print_char e ch).1 /\ Forall in_buffer (print_char e ch).2.
Proof.
  intros Hok. unfold print_char.
  destruct (ch =? 10); [by apply newLine_safe|].
  destruct (ch =? 13); [by split; [|constructor]|].
  destruct (_ && _); [|by split; [|constructor]].
  destruct (advanceCursor_safe e (uint8 (text_size e * 8)) (uint8 (text_size e * 8)) Hok)
    as [Hok' Htr].
  destruct (advanceCursor _ _ _) as [e' tr']. simpl in *.
  split; [done|]. apply Forall_app. split; [by apply drawChar_in_buffer|done].
Qed.

Lemma print_safe e str :
  engine_ok e -> engine_ok (print e str).1 /\ Forall in_buffer (print e str).2.
Proof.
  revert e. induction str as [|ch str IH]; intros e Hok; [by split; [|constructor]|].
  cbn [print]. destruct (ch =? 0); [by split; [|constructor]|].
  pose proof (print_char_safe e ch Hok) as Hstep. unfold print_char in Hstep.
  destruct (if ch =? 10 then _ else _) as [e1 tr1]. simpl in Hstep.
  destruct Hstep as [Hok1 Htr1].
  specialize (IH e1 Hok1). destruct (print e1 str) as [e2 tr2]. simpl in *.
  destruct IH as [Hok2 Htr2]. split; [done|]. by apply Forall_app.
Qed.

Lemma println_safe e str :
  engine_ok e -> engine_ok (println e str).1 /\ Forall in_buffer (println e str).2.
Proof.
  intros Hok. unfold println.
  destruct (print_safe e str Hok) as [Hok1 Htr1].
  destruct (print e str) as [e1 tr1]. cbn [fst snd] in *.
  rewrite print_newline.
  destruct (newLine_safe e1 Hok1) as [Hok2 Htr2].
  destruct (newLine e1) as [e2 tr2]. cbn [fst snd] in *.
  split; [done|]. by apply Forall_app.
Qed.

(** The rectangle that the unrotated path of [fillRect] fills lies within
    the physical array. *)
Lemma fillRect_unrotated_clip e x y w h :
  engine_ok e -> current_rotation e = ROTATION_0 ->
  x < display_width e -> y < display_height e ->
  0 <= (clip x w (display_width e)).1 /\
  (clip x w (display_width e)).1 + (clip x w (display_width e)).2 <= LCD_H_RES /\
  0 <= (clip y h (display_height e)).1 /\
  (clip y h (display_height e)).1 + (clip y h (display_height e)).2 <= LCD_V_RES.
Proof.
  intros Hok Hrot Hx Hy.
  destruct (engine_ok_dims e Hok) as (_ & _ & [Hw Hh]); [done|].
  rewrite Hw, Hh in *. unfold LCD_H_RES, LCD_V_RES.
  pose proof (clip_within x w 800 Hx). pose proof (clip_within y h 480 Hy). lia.
Qed.

(** C9: every store a drawing operation performs addresses a cell of the
    framebuffer.  [pixel] checks the physical bounds itself; the unrotated
    scanlines of [fillRect] start at [(y + row) * LCD_H_RES + x] for a
    clipped rectangle that satisfies [0 <= x], [x + w <= LCD_H_RES],
    [0 <= y], [y + h <= LCD_V_RES]; every other operation stores through
    these two. *)
Theorem every_store_is_in_the_framebuffer (e : Engine) :
  engine_ok e ->
  (forall x y c, Forall in_buffer (pixel e x y c)) /\
  (forall x y w h c, Forall in_buffer (fillRect e x y w h c)) /\
  (current_rotation e = ROTATION_0 ->
   forall x y w h, x < display_width e -> y < display_height e ->
     let cx := clip x w (display_width e) in
     let cy := clip y h (display_height e) in
     0 <= cx.1 /\ cx.1 + cx.2 <= LCD_H_RES /\ 0 <= cy.1 /\ cy.1 + cy.2 <= LCD_V_RES) /\
  (forall c, Forall in_buffer (clear e c)) /\
  (forall x0 y0 radius c, Forall in_buffer (stores_of (circle e x0 y0 radius c))) /\
  (forall x0 y0 radius c, Forall in_buffer (stores_of (fillCircle e x0 y0 radius c))) /\
  (forall fuel x0 y0 x1 y1 c, Forall in_buffer (stores_of (line fuel e x0 y0 x1 y1 c))) /\
  (forall fuel x y w h c, Forall in_buffer (stores_of (rect fuel e x y w h c))) /\
  (forall x y ch color bg size, Forall in_buffer (drawChar e x y ch color bg size)) /\
  (forall x y str color bg size, Forall in_buffer (text e x y str color bg size)) /\
  Forall in_buffer (clearTextArea e).2 /\
  (forall str, Forall in_buffer (print e str).2) /\
  (forall ch, Forall in_buffer (print_char e ch).2) /\
  (forall str, Forall in_buffer (println e str).2) /\
  (forall x y maxWidth str color size,
     Forall in_buffer (drawn (printWrapped e x y maxWidth str color size))).
Proof.
  intros Hok. split_and!.
  - intros. apply pixel_in_buffer.
  - intros. by apply fillRect_in_buffer.
  - intros Hrot x y w h Hx Hy. cbv zeta. by apply fillRect_unrotated_clip.
  - intros. by apply clear_in_buffer.
  - intros. apply circle_in_buffer.
  - intros. by apply fillCircle_in_buffer.
  - intros. by apply line_in_buffer.
  - intros. by apply rect_in_buffer.
  - intros. by apply drawChar_in_buffer.
  - intros. by apply text_in_buffer.
  - by apply clearTextArea_safe.
  - intros. by apply print_safe.
  - intros. by apply print_char_safe.
  - intros. by apply println_safe.
  - intros. by apply printWrapped_loop_in_buffer.
Qed.

Lemma every_store_is_in_the_framebuffer_witness :
  Forall in_buffer (fillRect begin 790 470 100 100 COLOR_RED) /\
  Forall in_buffer (pixel (setRotation begin ROTATION_90) 479 799 COLOR_RED).
Proof.
  split.
  - destruct (every_store_is_in_the_framebuffer begin begin_ok) as (_ & Hrect & _).
    exact (Hrect 790 470 100 100 COLOR_RED).
  - destruct (every_store_is_in_the_framebuffer (setRotation begin ROTATION_90)
                (setRotation_ok begin ROTATION_90)) as (Hpixel & _).
    exact (Hpixel 479 799 COLOR_RED).
Defined.


(** ** The midpoint circle *)

Lemma elem_of_octants a b x y :
  (a, b) ∈ octants x y <->
  (Z.abs a = Z.abs x /\ Z.abs b = Z.abs y) \/ (Z.abs a = Z.abs y /\ Z.abs b = Z.abs x).
Proof.
  unfold octants. split.
  - intros H. repeat (apply elem_of_cons in H as [[= -> ->]|H]); try lia.
    by apply elem_of_nil in H.
  - intros [[Ha Hb]|[Ha Hb]].
    + assert (a = x \/ a = - x) as [-> | ->] by lia;
        assert (b = y \/ b = - y) as [-> | ->] by lia;
        repeat first [apply list_elem_of_here | apply list_elem_of_further].
    + assert (a = y \/ a = - y) as [-> | ->] by lia;
        assert (b = x \/ b = - x) as [-> | ->] by lia;
        repeat first [apply list_elem_of_here | apply list_elem_of_further].
Qed.

Lemma octants_closed p q x y :
  p ∈ octants x y -> q ∈ octants p.1 p.2 -> q ∈ octants x y.
Proof.
  destruct p as [a b], q as [a' b']. simpl. rewrite !elem_of_octants. lia.
Qed.

(** One round of the loop: [x + 1] fits, [y] stays or drops by one, and
    the invariant is kept. *)
Lemma midpoint_step x y d :
  midpoint_inv x y d -> x <= y ->
  let '(d', y') :=
    if d <? 0 then (int16 (d + (2 * x + 3)), y)
    else (int16 (d + (2 * (x - y) + 5)), int16 (y - 1)) in
  int16 (x + 1) = x + 1 /\ y - 1 <= y' <= y /\ midpoint_inv (x + 1) y' d'.
Proof.
  intros (Hx & Hy & Hd) Hle.
  assert (int16 (x + 1) = x + 1) as Hx1.
  { apply int16_id. unfold in_int16. destruct (decide (y = 32767)) as [Hmax|]; [|lia].
    destruct (Hd Hmax). lia. }
  destruct (d <? 0) eqn:Hneg.
  - split; [done|]. split; [lia|]. split; [lia|]. split; [done|].
    intros Hmax. destruct (Hd Hmax) as [Hx181 ->].
    assert (x <> 181) by (intros ->; lia).
    rewrite int16_id by (unfold in_int16; nia). lia.
  - rewrite (int16_id (y - 1)) by (unfold in_int16; lia).
    split; [done|]. split; [lia|]. split; [lia|]. split; [lia|]. lia.
Qed.

(** The loop of [circle] leaves through its exit test within
    [y + 1 - x] rounds. *)
Lemma circle_loop_finishes fuel e x0 y0 c x y d :
  midpoint_inv x y d -> (Z.to_nat (y + 1 - x) <= fuel)%nat ->
  exists tr, circle_loop fuel e x0 y0 c x y d = Finished tr.
Proof.
  revert x y d. induction fuel as [|fuel IH]; intros x y d Hinv Hfuel; simpl.
  - replace (x <=? y) with false by lia. by eexists.
  - destruct (x <=? y) eqn:Hle; [|by eexists].
    pose proof (midpoint_step x y d Hinv ltac:(lia)) as Hstep.
    destruct (if d <? 0 then _ else _) as [d' y'].
    destruct Hstep as (-> & Hy' & Hinv').
    destruct (IH (x + 1) y' d' Hinv' ltac:(lia)) as [tr ->]. simpl. by eexists.
Qed.

Lemma circle_finishes e x0 y0 radius c :
  in_int16 radius -> exists tr, circle e x0 y0 radius c = Finished tr.
Proof.
  intros Hr. unfold circle. destruct (radius <=? 0) eqn:Hpos; [by eexists|].
  apply circle_loop_finishes; [|unfold midpoint_rounds; lia].
  unfold in_int16 in Hr. split; [lia|]. split; [lia|].
  intros ->. split; [lia|]. by vm_compute.
Qed.

Lemma stores_of_before tr r : stores_of (before tr r) = tr ++ stores_of r.
Proof. by destruct r. Qed.

(** The stores of the loop are those of [pixel] at the offsets. *)
Lemma circle_loop_stores fuel e x0 y0 c x y d :
  stores_of (circle_loop fuel e x0 y0 c x y d) =
  circle_offsets fuel x y d ≫= (fun p => pixel e (int16 (x0 + p.1)) (int16 (y0 + p.2)) c).
Proof.
  revert x y d. induction fuel as [|fuel IH]; intros x y d;
    cbn [circle_loop circle_offsets].
  - by destruct (x <=? y).
  - destruct (x <=? y); [|done].
    destruct (if d <? 0 then _ else _) as [d' y'].
    rewrite bind_app, <- IH, stores_of_before. f_equal.
    unfold octants. cbn [mbind list_bind fst snd].
    by rewrite !Z.add_opp_r, app_nil_r.
Qed.

(** The offsets are the reflections of the points [(x, y)] the loop goes
    through, which lie in the second octant of the circle's bounding
    square. *)
Lemma circle_offsets_elem fuel x y d R a b :
  midpoint_inv x y d -> y <= R ->
  (a, b) ∈ circle_offsets fuel x y d ->
  exists u v, 0 <= u <= v /\ v <= R /\ (a, b) ∈ octants u v /\
              forall q, q ∈ octants u v -> q ∈ circle_offsets fuel x y d.
Proof.
  revert x y d. induction fuel as [|fuel IH]; intros x y d Hinv HR;
    cbn [circle_offsets].
  - destruct (x <=? y); by intros ?%elem_of_nil.
  - destruct (x <=? y) eqn:Hle; [|by intros ?%elem_of_nil].
    pose proof (midpoint_step x y d Hinv ltac:(lia)) as Hstep.
    destruct (if d <? 0 then _ else _) as [d' y'].
    destruct Hstep as (-> & Hy' & Hinv').
    intros [Hhere|Hlater]%elem_of_app.
    + exists x, y. destruct Hinv as (? & _). repeat split; try lia; try done.
      intros q Hq. apply elem_of_app. by left.
    + destruct (IH (x + 1) y' d' Hinv' ltac:(lia) Hlater) as (u & v & ? & ? & ? & Hall).
      exists u, v. repeat split; try lia; try done.
      intros q Hq. apply elem_of_app. right. by apply Hall.
Qed.


Lemma midpoint_inv_init radius :
  0 < radius <= 32767 -> midpoint_inv 0 radius (int16 (1 - radius)).
Proof.
  intros Hr. split; [lia|]. split; [lia|]. intros ->. split; [lia|]. by vm_compute.
Qed.

Section Circle.
Variables (e : Engine) (x0 y0 radius c : Z).
Hypothesis Hok : engine_ok e.
Hypothesis Hradius : 0 < radius <= 32767.

Let offsets : list (Z * Z) :=
  circle_offsets (midpoint_rounds radius) 0 radius (int16 (1 - radius)).

Lemma circle_stores :
  stores_of (circle e x0 y0 radius c) =
  offsets ≫= (fun p => pixel e (int16 (x0 + p.1)) (int16 (y0 + p.2)) c).
Proof.
  unfold circle. replace (radius <=? 0) with false by lia. apply circle_loop_stores.
Qed.

(** The offsets handed to [pixel] are closed under the eight
    reflections and do not exceed the radius. *)
Lemma offsets_closed a b q : (a, b) ∈ offsets -> q ∈ octants a b -> q ∈ offsets.
Proof.
  intros Hin Hq.
  destruct (circle_offsets_elem _ _ _ _ radius a b (midpoint_inv_init radius Hradius)
              ltac:(lia) Hin) as (u & v & _ & _ & Hab & Hall).
  apply Hall. by apply (octants_closed (a, b)).
Qed.

Lemma offsets_bound a b :
  (a, b) ∈ offsets -> Z.abs a <= radius /\ Z.abs b <= radius.
Proof.
  intros Hin.
  destruct (circle_offsets_elem _ _ _ _ radius a b (midpoint_inv_init radius Hradius)
              ltac:(lia) Hin) as (u & v & ? & ? & Hab & _).
  apply elem_of_octants in Hab. lia.
Qed.

(** A pixel is painted exactly when it is on the screen and [pixel] was
    called on it. *)
Lemma painted_circle X Y :
  painted e (stores_of (circle e x0 y0 radius c)) X Y <->
  on_screen e X Y /\
  exists a b, (a, b) ∈ offsets /\ X = int16 (x0 + a) /\ Y = int16 (y0 + b).
Proof.
  unfold painted. rewrite circle_stores. split.
  - intros (Hon & s & ([a b] & Hs & Hin)%list_elem_of_bind & Haddr).
    split; [done|]. exists a, b. split; [done|]. simpl in Hs.
    apply pixel_elem in Hs as [Hon' ->]; [|done]. simpl in Haddr.
    by apply cell_of_inj in Haddr as [-> ->].
  - intros (Hon & a & b & Hin & -> & ->). split; [done|].
    exists (Store (cell_of e (int16 (x0 + a)) (int16 (y0 + b))) c). split; [|done].
    apply list_elem_of_bind. exists (a, b). split; [|done].
    by apply pixel_elem.
Qed.
End Circle.

(** A reflection of an offset that is known up to multiples of 2^16 is a
    reflection of the offset itself, up to multiples of 2^16. *)
Lemma octants_congr dx dy a b k1 k2 dx' dy' :
  dx = a + 65536 * k1 -> dy = b + 65536 * k2 ->
  (dx', dy') ∈ octants dx dy ->
  exists a' b' j1 j2,
    (a', b') ∈ octants a b /\ a' = dx' + 65536 * j1 /\ b' = dy' + 65536 * j2.
Proof.
  intros -> -> H. unfold octants in *.
  repeat (apply elem_of_cons in H as [[= -> ->]|H]);
    [ exists a, b, (- k1), (- k2)
    | exists (- a), b, k1, (- k2)
    | exists a, (- b), (- k1), k2
    | exists (- a), (- b), k1, k2
    | exists b, a, (- k2), (- k1)
    | exists (- b), a, k2, (- k1)
    | exists b, (- a), (- k2), k1
    | exists (- b), (- a), k2, k1
    | by apply elem_of_nil in H ];
    (split; [repeat first [apply list_elem_of_here | apply list_elem_of_further] | lia]).
Qed.

(** C8, as the code has it: for every centre, colour and radius [r > 0]
    the loop of [circle] finishes, and the set of pixels it paints is
    closed under each of the eight reflections about the centre whose
    image lies on the logical screen; an image off the screen is clipped
    by [pixel] and not painted.  In particular the painted set is
    symmetric under all eight reflections when the circle lies on the
    logical screen. *)
Theorem circle_symmetric_up_to_clipping (e : Engine) (x0 y0 radius c : Z) :
  engine_ok e ->
  in_int16 x0 -> in_int16 y0 -> in_int16 radius -> 0 < radius ->
  (exists tr, circle e x0 y0 radius c = Finished tr) /\
  (forall dx dy,
     painted e (stores_of (circle e x0 y0 radius c)) (x0 + dx) (y0 + dy) ->
     forall dx' dy', (dx', dy') ∈ octants dx dy ->
       on_screen e (x0 + dx') (y0 + dy') ->
       painted e (stores_of (circle e x0 y0 radius c)) (x0 + dx') (y0 + dy')) /\
  (0 <= x0 - radius -> x0 + radius < display_width e ->
   0 <= y0 - radius -> y0 + radius < display_height e ->
   circle_symmetric e x0 y0 radius c).
Proof.
  intros Hok Hx0 Hy0 Hr Hpos.
  assert (0 < radius <= 32767) as Hradius by (unfold in_int16 in Hr; lia).
  destruct (engine_ok_dims e Hok) as (Hw & Hh & _).
  assert (forall dx dy,
     painted e (stores_of (circle e x0 y0 radius c)) (x0 + dx) (y0 + dy) ->
     forall dx' dy', (dx', dy') ∈ octants dx dy ->
       on_screen e (x0 + dx') (y0 + dy') ->
       painted e (stores_of (circle e x0 y0 radius c)) (x0 + dx') (y0 + dy')) as Hclosed.
  { intros dx dy Hp dx' dy' Himg Hon.
    apply painted_circle in Hp as (_ & a & b & Hin & Ha & Hb); [|done..].
    destruct (int16_diff (x0 + a)) as [k1 Hk1], (int16_diff (y0 + b)) as [k2 Hk2].
    destruct (octants_congr dx dy a b k1 k2 dx' dy' ltac:(lia) ltac:(lia) Himg)
      as (a' & b' & j1 & j2 & Hq & Ha' & Hb').
    apply painted_circle; [done..|]. split; [done|].
    exists a', b'. split; [by apply (offsets_closed radius Hradius a b)|].
    destruct Hon as [Hon1 Hon2].
    rewrite (int16_congr (x0 + a') (x0 + dx') j1) by lia.
    rewrite (int16_congr (y0 + b') (y0 + dy') j2) by lia.
    rewrite !int16_id by (unfold in_int16; lia). done. }
  split; [by apply circle_finishes|]. split; [done|].
  intros Hleft Hright Htop Hbottom dx dy Hp dx' dy' Himg.
  apply (Hclosed dx dy Hp dx' dy' Himg).
  apply painted_circle in Hp as (_ & a & b & Hin & Ha & Hb); [|done..].
  apply offsets_bound in Hin as [Habs_a Habs_b]; [|done].
  rewrite int16_id in Ha by (unfold in_int16; lia).
  rewrite int16_id in Hb by (unfold in_int16; lia).
  apply elem_of_octants in Himg. unfold on_screen. lia.
Qed.

Lemma circle_symmetric_up_to_clipping_witness :
  (exists tr, circle begin 100 100 10 COLOR_RED = Finished tr) /\
  circle_symmetric begin 100 100 10 COLOR_RED.
Proof.
  destruct (circle_symmetric_up_to_clipping begin 100 100 10 COLOR_RED begin_ok)
    as (Hfin & _ & Hsym); [unfold in_int16; lia..|].
  split; [exact Hfin|]. apply Hsym; vm_compute; done.
Defined.

(** C8, as stated, fails for a circle that crosses the edge of the screen:
    [circle(0, 0, 1, C)] paints the pixel (1, 0) but not its mirror image
    (-1, 0), which is off the screen. *)
Lemma circle_clipped_is_not_symmetric :
  0 < 1 /\ ~ circle_symmetric begin 0 0 1 COLOR_WHITE.
Proof.
  split; [lia|]. intros Hsym.
  assert (painted begin (stores_of (circle begin 0 0 1 COLOR_WHITE)) (0 + 1) (0 + 0))
    as Hp.
  { split; [by vm_compute|]. exists (Store 1 COLOR_WHITE). split; [|reflexivity].
    vm_compute. repeat first [apply list_elem_of_here | apply list_elem_of_further]. }
  destruct (Hsym 1 0 Hp (-1) 0) as [[Hx _] _].
  - unfold octants. repeat first [apply list_elem_of_here | apply list_elem_of_further].
  - simpl in Hx. lia.
Qed.

(** ** The filled circle finishes too *)

Lemma fillCircle_loop_finishes fuel e x0 y0 c x y d :
  midpoint_inv x y d -> (Z.to_nat (y - x) <= fuel)%nat ->
  exists tr, fillCircle_loop fuel e x0 y0 c x y d = Finished tr.
Proof.
  revert x y d. induction fuel as [|fuel IH]; intros x y d Hinv Hfuel;
    cbn [fillCircle_loop].
  - replace (x <? y) with false by lia. by eexists.
  - destruct (x <? y) eqn:Hlt; [|by eexists].
    pose proof (midpoint_step x y d Hinv ltac:(lia)) as Hstep.
    destruct (d <? 0); cbv zeta iota beta in Hstep |- *;
      destruct Hstep as (-> & Hy' & Hinv');
      match goal with
      | |- context [fillCircle_loop fuel e x0 y0 c ?x' ?y' ?d'] =>
          destruct (IH x' y' d' Hinv' ltac:(lia)) as [tr ->]
      end; simpl; by eexists.
Qed.

Lemma fillCircle_finishes e x0 y0 radius c :
  in_int16 radius -> exists tr, fillCircle e x0 y0 radius c = Finished tr.
Proof.
  intros Hr. unfold fillCircle. destruct (radius <=? 0) eqn:Hpos; [by eexists|].
  unfold in_int16 in Hr.
  destruct (fillCircle_loop_finishes (midpoint_rounds radius) e x0 y0 c 0 radius
              (int16 (1 - radius))) as [tr ->].
  - apply midpoint_inv_init. lia.
  - unfold midpoint_rounds. lia.
  - simpl. by eexists.
Qed.


(** * Further properties of the drawing routines *)

(** ** Reading the framebuffer after a sequence of stores *)

(** When all the stores that address a cell agree on the value, and there
    is one, the cell holds that value afterwards. *)
Lemma exec_agreed tr fb a v :
  0 <= a < Z.of_nat (length fb) ->
  (forall s, s ∈ tr -> addr s = a -> val s = v) ->
  (exists s, s ∈ tr /\ addr s = a) ->
  exec tr fb !! Z.to_nat a = Some v.
Proof.
  intros Ha. unfold exec. revert fb Ha.
  induction tr as [|s tr IH]; intros fb Ha Hval (s' & Hin & Hs').
  - by apply elem_of_nil in Hin.
  - simpl. destruct (decide (a ∈ addr <$> tr)) as [Hlater|Hnot].
    + apply list_elem_of_fmap in Hlater as (s0 & -> & Hs0).
      apply IH; [by rewrite write_cell_length| |by exists s0].
      intros s1 Hs1. apply Hval. by right.
    + assert (forall s0, s0 ∈ tr -> addr s0 <> a) as Hnone.
      { intros s0 Hs0 <-. apply Hnot, list_elem_of_fmap. by exists s0. }
      fold (exec tr (write_cell fb s)).
      rewrite exec_untouched; [|lia|done].
      apply elem_of_cons in Hin as [->|Hin]; [|by destruct (Hnone s')].
      subst a. rewrite write_cell_same by done.
      f_equal. apply Hval; [by left|done].
Qed.

Lemma painted_app e t1 t2 u v :
  painted e (t1 ++ t2) u v <-> painted e t1 u v \/ painted e t2 u v.
Proof.
  unfold painted. split.
  - intros (Hon & s & [Hs|Hs]%elem_of_app & Ha); [left|right]; (split; [done|by exists s]).
  - intros [(Hon & s & Hs & Ha)|(Hon & s & Hs & Ha)]; (split; [done|]); exists s;
      (split; [|done]); apply elem_of_app; [by left|by right].
Qed.

Lemma painted_nil e u v : ~ painted e [] u v.
Proof. intros (_ & s & Hs & _). by apply elem_of_nil in Hs. Qed.

(** The pixels [fillRect] paints are those of the rectangle that lie on
    the logical screen. *)
Lemma painted_fillRect e x y w h c u v :
  engine_ok e -> in_int16 x -> in_int16 y -> in_int16 w -> in_int16 h ->
  painted e (fillRect e x y w h c) u v <->
  on_screen e u v /\ (x <= u < x + w) /\ (y <= v < y + h).
Proof.
  intros Hok Hx Hy Hw Hh. unfold painted. split.
  - intros (Hon & s & Hs & Haddr). split; [done|].
    apply fillRect_elem in Hs as (_ & u' & v' & Hu & Hv & Hon' & Haddr'); try done.
    rewrite Haddr in Haddr'. by apply cell_of_inj in Haddr' as [-> ->].
  - intros (Hon & Hu & Hv). split; [done|].
    exists (Store (cell_of e u v) c). split; [|done].
    apply fillRect_elem; try done. split; [done|]. by exists u, v.
Qed.

(** ** Filled rectangles, in general *)

(** After [fillRect(x, y, w, h, c)] a pixel of the logical screen holds
    [c] when it lies in the rectangle and is unchanged otherwise, in every
    rotation: the rectangle is clipped to the screen, never rejected for
    lying partly outside and never wrapped around. *)
Theorem fillRect_paints_the_visible_part (e : Engine) (fb : list Z) (x y w h c u v : Z) :
  engine_ok e ->
  in_int16 x -> in_int16 y -> in_int16 w -> in_int16 h ->
  Z.of_nat (length fb) = LCD_H_RES * LCD_V_RES ->
  on_screen e u v ->
  exec (fillRect e x y w h c) fb !! Z.to_nat (cell_of e u v) =
    if (x <=? u) && (u <? x + w) && (y <=? v) && (v <? y + h)
    then Some c
    else fb !! Z.to_nat (cell_of e u v).
Proof.
  intros Hok Hx Hy Hw Hh Hlen Hon.
  pose proof (cell_of_in_buffer e u v Hok Hon) as Hrange.
  destruct (_ && _) eqn:Hin.
  - apply exec_painted; [lia|apply fillRect_val|].
    assert (painted e (fillRect e x y w h c) u v) as (_ & Hs).
    { apply painted_fillRect; try done. split; [done|]. lia. }
    done.
  - apply exec_untouched; [lia|]. intros s Hs Haddr.
    assert (painted e (fillRect e x y w h c) u v) as Hp.
    { split; [done|]. by exists s. }
    apply painted_fillRect in Hp as (_ & Hu & Hv); try done. lia.
Qed.

Lemma fillRect_paints_the_visible_part_witness :
  let e := setRotation begin ROTATION_180 in
  let fb := replicate (Z.to_nat (LCD_H_RES * LCD_V_RES)) COLOR_BLACK in
  exec (fillRect e 790 470 100 100 COLOR_RED) fb !! Z.to_nat (cell_of e 799 479)
    = Some COLOR_RED.
Proof.
  apply (fillRect_paints_the_visible_part (setRotation begin ROTATION_180) _
           790 470 100 100 COLOR_RED 799 479).
  - apply setRotation_ok.
  - unfold in_int16; lia.
  - unfold in_int16; lia.
  - unfold in_int16; lia.
  - unfold in_int16; lia.
  - rewrite length_replicate. apply Z2Nat.id. unfold LCD_H_RES, LCD_V_RES. lia.
  - vm_compute. done.
Defined.

(** ** Horizontal and vertical lines *)

Lemma line_axis_painted fuel e x0 y0 x1 y1 c :
  engine_ok e ->
  in_int16 x0 -> in_int16 y0 -> in_int16 x1 -> in_int16 y1 ->
  x0 = x1 \/ y0 = y1 ->
  Z.abs (x1 - x0) < 32767 -> Z.abs (y1 - y0) < 32767 ->
  exists tr,
    line fuel e x0 y0 x1 y1 c = Finished tr /\
    forall u v,
      painted e tr u v <->
      on_screen e u v /\
      (Z.min x0 x1 <= u <= Z.max x0 x1) /\ (Z.min y0 y1 <= v <= Z.max y0 y1).
Proof.
  unfold in_int16. intros Hok Hx0 Hy0 Hx1 Hy1 Haxis Hdx Hdy. unfold line.
  destruct (y0 =? y1) eqn:Hy.
  - destruct (x0 >? x1) eqn:Hswap; eexists; (split; [reflexivity|]); intros u v;
      rewrite painted_fillRect by (try done; unfold in_int16; try lia; apply int16_range);
      rewrite int16_id by (unfold in_int16; lia); unfold on_screen; lia.
  - destruct Haxis as [Hx|?]; [|lia]. subst x1. rewrite Z.eqb_refl.
    destruct (y0 >? y1) eqn:Hswap; eexists; (split; [reflexivity|]); intros u v;
      rewrite painted_fillRect by (try done; unfold in_int16; try lia; apply int16_range);
      rewrite int16_id by (unfold in_int16; lia); unfold on_screen; lia.
Qed.

(** A horizontal or vertical line between 16-bit endpoints less than
    32767 apart is one [fillRect]: it needs no round of the Bresenham
    loop, does not depend on the order of its endpoints, and paints exactly
    the on-screen pixels of the segment, endpoints included.  (Farther
    apart, the 16-bit length of the segment wraps.) *)
Theorem line_on_an_axis (fuel fuel' : nat) (e : Engine) (x0 y0 x1 y1 c : Z) :
  engine_ok e ->
  in_int16 x0 -> in_int16 y0 -> in_int16 x1 -> in_int16 y1 ->
  x0 = x1 \/ y0 = y1 ->
  Z.abs (x1 - x0) < 32767 -> Z.abs (y1 - y0) < 32767 ->
  exists tr,
    line fuel e x0 y0 x1 y1 c = Finished tr /\
    line fuel' e x1 y1 x0 y0 c = Finished tr /\
    forall u v,
      painted e tr u v <->
      on_screen e u v /\
      (Z.min x0 x1 <= u <= Z.max x0 x1) /\ (Z.min y0 y1 <= v <= Z.max y0 y1).
Proof.
  intros Hok Hx0 Hy0 Hx1 Hy1 Haxis Hdx Hdy.
  destruct (line_axis_painted fuel e x0 y0 x1 y1 c) as (tr & Hline & Hp); try done.
  exists tr. split; [done|]. split; [|done].
  rewrite <- Hline. unfold line.
  destruct (decide (y0 = y1)) as [->|Hy].
  - rewrite !Z.eqb_refl.
    destruct (x0 >? x1) eqn:H01, (x1 >? x0) eqn:H10; try lia; try done.
    assert (x0 = x1) as -> by lia. done.
  - destruct Haxis as [->|?]; [|done].
    replace (y1 =? y0) with false by lia. replace (y0 =? y1) with false by lia.
    rewrite !Z.eqb_refl.
    destruct (y0 >? y1) eqn:H01, (y1 >? y0) eqn:H10; try lia; done.
Qed.

Lemma line_on_an_axis_witness :
  exists tr,
    line 0 begin 10 50 10 100 COLOR_RED = Finished tr /\
    line 0 begin 10 100 10 50 COLOR_RED = Finished tr /\
    forall u v,
      painted begin tr u v <->
      on_screen begin u v /\
      (Z.min 10 10 <= u <= Z.max 10 10) /\ (Z.min 50 100 <= v <= Z.max 50 100).
Proof.
  apply (line_on_an_axis 0 0 begin 10 50 10 100 COLOR_RED);
    [apply begin_ok|unfold in_int16; lia..|by left|lia|lia].
Defined.


(** ** Rectangle outlines *)

(** The four lines of [rect] are horizontal or vertical.  When the far
    corner [(x + w - 1, y + h - 1)] has 16-bit coordinates and [w - 1] and
    [h - 1] are below 32767 in absolute value, [rect] never enters the
    Bresenham loop, finishes whatever the fuel, and paints exactly the
    on-screen pixels of the frame with corners [(x, y)] and
    [(x + w - 1, y + h - 1)].  The sizes are not checked: for [w <= 0] or
    [h <= 0] the far corner lies before the near one and the frame between
    the two is drawn all the same (unlike [fillRect], which draws nothing
    then). *)
Theorem rect_paints_the_frame (fuel : nat) (e : Engine) (x y w h c : Z) :
  engine_ok e ->
  in_int16 x -> in_int16 y -> in_int16 (x + w - 1) -> in_int16 (y + h - 1) ->
  Z.abs (w - 1) < 32767 -> Z.abs (h - 1) < 32767 ->
  exists tr,
    rect fuel e x y w h c = Finished tr /\
    forall u v,
      painted e tr u v <->
      on_screen e u v /\
      (((v = y \/ v = y + h - 1) /\
        Z.min x (x + w - 1) <= u <= Z.max x (x + w - 1)) \/
       ((u = x \/ u = x + w - 1) /\
        Z.min y (y + h - 1) <= v <= Z.max y (y + h - 1))).
Proof.
  intros Hok Hx Hy Hx1 Hy1 Hw Hh. unfold rect.
  rewrite !(int16_id (x + w - 1)), !(int16_id (y + h - 1)) by done.
  destruct (line_axis_painted fuel e x y (x + w - 1) y c) as (t1 & -> & H1);
    [done..|by right|lia|lia|].
  destruct (line_axis_painted fuel e x (y + h - 1) (x + w - 1) (y + h - 1) c)
    as (t2 & -> & H2); [done..|by right|lia|lia|].
  destruct (line_axis_painted fuel e x y x (y + h - 1) c) as (t3 & -> & H3);
    [done..|by left|lia|lia|].
  destruct (line_axis_painted fuel e (x + w - 1) y (x + w - 1) (y + h - 1) c)
    as (t4 & -> & H4); [done..|by left|lia|lia|].
  eexists. split; [reflexivity|]. intros u v.
  rewrite !painted_app, H1, H2, H3, H4. unfold on_screen. lia.
Qed.

Lemma rect_paints_the_frame_witness :
  exists tr,
    rect 0 begin 10 20 30 40 COLOR_RED = Finished tr /\
    forall u v,
      painted begin tr u v <->
      on_screen begin u v /\
      (((v = 20 \/ v = 20 + 40 - 1) /\
        Z.min 10 (10 + 30 - 1) <= u <= Z.max 10 (10 + 30 - 1)) \/
       ((u = 10 \/ u = 10 + 30 - 1) /\
        Z.min 20 (20 + 40 - 1) <= v <= Z.max 20 (20 + 40 - 1))).
Proof.
  apply (rect_paints_the_frame 0 begin 10 20 30 40 COLOR_RED);
    [apply begin_ok|unfold in_int16; lia..|lia|lia].
Defined.


(** ** Diagonal lines: the Bresenham loop *)

Lemma painted_pixel e x y c u v :
  engine_ok e ->
  painted e (pixel e x y c) u v <-> on_screen e u v /\ u = x /\ v = y.
Proof.
  intros Hok. unfold painted. split.
  - intros (Hon & s & Hs & Haddr). split; [done|].
    apply pixel_elem in Hs as [Hon' ->]; [|done]. simpl in Haddr.
    by apply cell_of_inj in Haddr as [-> ->].
  - intros (Hon & -> & ->). split; [done|].
    exists (Store (cell_of e x y) c). split; [|done]. by apply pixel_elem.
Qed.

(** After [a] steps in x and [b] steps in y the error term is
    [DX - DY - a * DY + b * DX] and stays within [-2 DY, 2 DX]; the loop
    steps in x only while [a < DX] and in y only while [b < DY], so it
    arrives at the far endpoint, within [DX + DY + 1] rounds. *)
Lemma line_loop_reaches e x0 y0 x1 y1 c DX DY sx sy :
  engine_ok e ->
  0 < DX <= 8191 -> 0 < DY <= 8191 ->
  (forall a, 0 <= a <= DX -> in_int16 (x0 + sx * a)) ->
  (forall b, 0 <= b <= DY -> in_int16 (y0 + sy * b)) ->
  (forall a, x0 + sx * a = x1 -> a = DX) ->
  (forall b, y0 + sy * b = y1 -> b = DY) ->
  x1 = x0 + sx * DX -> y1 = y0 + sy * DY ->
  forall fuel err x y a b,
    0 <= a <= DX -> 0 <= b <= DY ->
    x = x0 + sx * a -> y = y0 + sy * b ->
    err = DX - DY - a * DY + b * DX ->
    - 2 * DY <= err <= 2 * DX ->
    (Z.to_nat ((DX - a) + (DY - b)) + 1 <= fuel)%nat ->
    exists tr,
      line_loop fuel e x1 y1 c DX DY sx sy err x y = Finished tr /\
      (on_screen e x y -> painted e tr x y) /\
      (on_screen e x1 y1 -> painted e tr x1 y1) /\
      (forall u v, painted e tr u v ->
         exists a' b', 0 <= a' <= DX /\ 0 <= b' <= DY /\
                       u = x0 + sx * a' /\ v = y0 + sy * b').
Proof.
  intros Hok HDX HDY Hxs Hys Hxinj Hyinj Hx1 Hy1.
  induction fuel as [|fuel IH]; intros err x y a b Ha Hb Hx Hy Herr Hbound Hfuel; [lia|].
  cbn [line_loop].
  destruct ((x =? x1) && (y =? y1)) eqn:Hend.
  { exists (pixel e x y c). split; [done|].
    assert (x = x1 /\ y = y1) as [<- <-] by lia.
    split; [|split]; [intros; by apply painted_pixel..|].
    intros u v (_ & -> & ->)%painted_pixel; [|done]. by exists a, b. }
  assert (~ (a = DX /\ b = DY)) as Hnotend.
  { intros [-> ->]. rewrite <- Hx1 in Hx. rewrite <- Hy1 in Hy. lia. }
  assert (a = DX -> 2 * err <= - 2 * DY) as Hxdone.
  { intros ->. assert (0 <= DX * (DY - b - 1)) by (apply Z.mul_nonneg_nonneg; lia). lia. }
  assert (b = DY -> 2 * DX <= 2 * err) as Hydone.
  { intros ->. assert (0 <= DY * (DX - a - 1)) by (apply Z.mul_nonneg_nonneg; lia). lia. }
  rewrite (int16_id (2 * err)) by (unfold in_int16; lia).
  assert (forall tr',
            (on_screen e x1 y1 -> painted e tr' x1 y1) ->
            (forall u v, painted e tr' u v ->
               exists a' b', 0 <= a' <= DX /\ 0 <= b' <= DY /\
                             u = x0 + sx * a' /\ v = y0 + sy * b') ->
            (on_screen e x y -> painted e (pixel e x y c ++ tr') x y) /\
            (on_screen e x1 y1 -> painted e (pixel e x y c ++ tr') x1 y1) /\
            (forall u v, painted e (pixel e x y c ++ tr') u v ->
               exists a' b', 0 <= a' <= DX /\ 0 <= b' <= DY /\
                             u = x0 + sx * a' /\ v = y0 + sy * b'))
    as Hcombine.
  { intros tr' Hfar Hin. split; [|split].
    - intros Hon. apply painted_app. left. by apply painted_pixel.
    - intros Hon. apply painted_app. right. by apply Hfar.
    - intros u v [(_ & -> & ->)%painted_pixel|Hp]%painted_app;
        [by exists a, b|done|by apply Hin]. }
  assert (a < DX -> int16 (x + sx) = x0 + sx * (a + 1)) as Hstep_x.
  { intros Hlt. rewrite int16_id; [lia|].
    replace (x + sx) with (x0 + sx * (a + 1)) by lia. apply Hxs. lia. }
  assert (b < DY -> int16 (y + sy) = y0 + sy * (b + 1)) as Hstep_y.
  { intros Hlt. rewrite int16_id; [lia|].
    replace (y + sy) with (y0 + sy * (b + 1)) by lia. apply Hys. lia. }
  clear Hxs Hys Hxinj Hyinj Hx1 Hy1 Hend.
  destruct (Z.gtb_spec (2 * err) (- DY)) as [Hstepx|Hstepx],
           (Z.ltb_spec (2 * err) DX) as [Hstepy|Hstepy].
  - (* a step in x and a step in y *)
    rewrite (int16_id (err - DY)) by (unfold in_int16; lia).
    rewrite (int16_id (err - DY + DX)) by (unfold in_int16; lia).
    rewrite Hstep_x, Hstep_y by lia.
    destruct (IH (err - DY + DX) (x0 + sx * (a + 1)) (y0 + sy * (b + 1)) (a + 1) (b + 1))
      as (tr & -> & _ & Hfar & Hin); [lia| lia| done | done | lia | lia | lia |].
    eexists. split; [reflexivity|]. by apply (Hcombine tr).
  - (* a step in x only *)
    rewrite (int16_id (err - DY)) by (unfold in_int16; lia).
    rewrite Hstep_x by lia.
    destruct (IH (err - DY) (x0 + sx * (a + 1)) y (a + 1) b)
      as (tr & -> & _ & Hfar & Hin); [lia| lia| done | done | lia | lia | lia |].
    eexists. split; [reflexivity|]. by apply (Hcombine tr).
  - (* a step in y only *)
    rewrite (int16_id (err + DX)) by (unfold in_int16; lia).
    rewrite Hstep_y by lia.
    destruct (IH (err + DX) x (y0 + sy * (b + 1)) a (b + 1))
      as (tr & -> & _ & Hfar & Hin); [lia| lia| done | done | lia | lia | lia |].
    eexists. split; [reflexivity|]. by apply (Hcombine tr).
  - lia.
Qed.

(** A diagonal line between points at most 8191 apart in each coordinate
    (any two points of the screen) finishes within [|dx| + |dy| + 1]
    rounds, paints both endpoints when they are on the screen, and paints
    nothing outside the bounding box of the endpoints. *)
Theorem line_diagonal_reaches_the_endpoint
    (fuel : nat) (e : Engine) (x0 y0 x1 y1 c : Z) :
  engine_ok e ->
  in_int16 x0 -> in_int16 y0 -> in_int16 x1 -> in_int16 y1 ->
  x0 <> x1 -> y0 <> y1 ->
  Z.abs (x1 - x0) <= 8191 -> Z.abs (y1 - y0) <= 8191 ->
  (Z.to_nat (Z.abs (x1 - x0) + Z.abs (y1 - y0)) + 1 <= fuel)%nat ->
  exists tr,
    line fuel e x0 y0 x1 y1 c = Finished tr /\
    (on_screen e x0 y0 -> painted e tr x0 y0) /\
    (on_screen e x1 y1 -> painted e tr x1 y1) /\
    (forall u v, painted e tr u v ->
       (Z.min x0 x1 <= u <= Z.max x0 x1) /\ (Z.min y0 y1 <= v <= Z.max y0 y1)).
Proof.
  intros Hok Hx0 Hy0 Hx1 Hy1 Hx Hy Hdx Hdy Hfuel. unfold line.
  replace (y0 =? y1) with false by lia. replace (x0 =? x1) with false by lia.
  rewrite (int16_id (Z.abs (x1 - x0))), (int16_id (Z.abs (y1 - y0)))
    by (unfold in_int16; lia).
  rewrite int16_id by (unfold in_int16; lia).
  unfold in_int16 in *.
  set (sx := if x0 <? x1 then 1 else -1).
  set (sy := if y0 <? y1 then 1 else -1).
  assert (x1 = x0 + sx * Z.abs (x1 - x0) /\ (sx = 1 \/ sx = -1)) as [Hsx Hsx'].
  { subst sx. destruct (Z.ltb_spec x0 x1); lia. }
  assert (y1 = y0 + sy * Z.abs (y1 - y0) /\ (sy = 1 \/ sy = -1)) as [Hsy Hsy'].
  { subst sy. destruct (Z.ltb_spec y0 y1); lia. }
  clearbody sx sy.
  destruct (line_loop_reaches e x0 y0 x1 y1 c (Z.abs (x1 - x0)) (Z.abs (y1 - y0)) sx sy)
    with (fuel := fuel) (err := Z.abs (x1 - x0) - Z.abs (y1 - y0))
         (x := x0) (y := y0) (a := 0) (b := 0)
    as (tr & Hrun & Hnear & Hfar & Hin);
    [done|lia|lia| | | | |done|done|lia|lia|lia|lia|lia|lia|lia|].
  - intros a Ha. unfold in_int16. destruct Hsx' as [-> | ->]; lia.
  - intros b Hb. unfold in_int16. destruct Hsy' as [-> | ->]; lia.
  - intros a Ha. destruct Hsx' as [-> | ->]; lia.
  - intros b Hb. destruct Hsy' as [-> | ->]; lia.
  - exists tr. split; [done|]. split; [done|]. split; [done|].
    intros u v (a' & b' & Ha' & Hb' & -> & ->)%Hin.
    destruct Hsx' as [-> | ->], Hsy' as [-> | ->]; lia.
Qed.

Lemma line_diagonal_reaches_the_endpoint_witness :
  exists tr,
    line 200 begin 0 0 100 50 COLOR_WHITE = Finished tr /\
    (on_screen begin 0 0 -> painted begin tr 0 0) /\
    (on_screen begin 100 50 -> painted begin tr 100 50) /\
    (forall u v, painted begin tr u v ->
       (Z.min 0 100 <= u <= Z.max 0 100) /\ (Z.min 0 50 <= v <= Z.max 0 50)).
Proof.
  apply (line_diagonal_reaches_the_endpoint 200 begin 0 0 100 50 COLOR_WHITE);
    [apply begin_ok|unfold in_int16; lia..|lia|lia|lia|lia|vm_compute; lia].
Defined.


(** ** The midpoint loops: how close to the circle *)

Lemma midpoint_exact_init r : 0 < r <= 16381 -> midpoint_exact r 0 r (int16 (1 - r)).
Proof.
  intros Hr. rewrite int16_id by (unfold in_int16; lia).
  unfold midpoint_exact. lia.
Qed.

(** One round keeps the decision variable exact, for radii up to 16381
    (beyond, its 16-bit arithmetic may overflow). *)
Lemma midpoint_exact_step r x y d :
  r <= 16381 -> midpoint_exact r x y d -> x <= y ->
  let '(d', y') :=
    if d <? 0 then (int16 (d + (2 * x + 3)), y)
    else (int16 (d + (2 * (x - y) + 5)), int16 (y - 1)) in
  int16 (x + 1) = x + 1 /\ y - 1 <= y' <= y /\ midpoint_exact r (x + 1) y' d'.
Proof.
  intros Hr (Hx & Hy & Hd & Hbound) Hle. specialize (Hbound Hle).
  rewrite (int16_id (x + 1)) by (unfold in_int16; lia).
  destruct (d <? 0) eqn:Hneg.
  - rewrite int16_id by (unfold in_int16; lia).
    unfold midpoint_exact. repeat split; lia.
  - rewrite (int16_id (y - 1)) by (unfold in_int16; lia).
    rewrite int16_id by (unfold in_int16; lia).
    unfold midpoint_exact. repeat split; lia.
Qed.

Lemma octants_square a b x y :
  (a, b) ∈ octants x y -> a * a + b * b = x * x + y * y.
Proof.
  unfold octants. intros H.
  repeat (apply elem_of_cons in H as [[= -> ->]|H]); try lia.
  by apply elem_of_nil in H.
Qed.

Lemma circle_offsets_accurate fuel r x y d a b :
  r <= 16381 -> midpoint_exact r x y d ->
  (a, b) ∈ circle_offsets fuel x y d ->
  r * r - r <= a * a + b * b <= r * r + r - 1.
Proof.
  intros Hr. revert x y d.
  induction fuel as [|fuel IH]; intros x y d Hinv; cbn [circle_offsets].
  - destruct (x <=? y); by intros ?%elem_of_nil.
  - destruct (x <=? y) eqn:Hle; [|by intros ?%elem_of_nil].
    pose proof (midpoint_exact_step r x y d Hr Hinv ltac:(lia)) as Hstep.
    destruct (if d <? 0 then _ else _) as [d' y'].
    destruct Hstep as (-> & Hy' & Hinv').
    intros [Hhere|Hlater]%elem_of_app; [|by apply (IH (x + 1) y' d')].
    apply octants_square in Hhere.
    destruct Hinv as (Hx & Hy & Hd & Hbound). specialize (Hbound ltac:(lia)). lia.
Qed.

(** Every pixel [circle] paints lies within half a pixel of the ideal
    circle: its squared distance from the centre is between [r^2 - r] and
    [r^2 + r - 1] (for radii up to 16381 and a circle whose bounding
    square fits 16-bit coordinates). *)
Theorem circle_is_accurate (e : Engine) (x0 y0 radius c u v : Z) :
  engine_ok e ->
  0 < radius <= 16381 ->
  in_int16 (x0 - radius) -> in_int16 (x0 + radius) ->
  in_int16 (y0 - radius) -> in_int16 (y0 + radius) ->
  painted e (stores_of (circle e x0 y0 radius c)) u v ->
  radius * radius - radius
    <= (u - x0) * (u - x0) + (v - y0) * (v - y0)
    <= radius * radius + radius - 1.
Proof.
  unfold in_int16. intros Hok Hr Hl Hrt Ht Hb Hp.
  apply (painted_circle e x0 y0 radius c Hok ltac:(lia)) in Hp
    as (_ & a & b & Hin & -> & ->).
  pose proof (offsets_bound radius ltac:(lia) a b Hin) as [Ha Hb'].
  rewrite !int16_id by (unfold in_int16; lia).
  replace (x0 + a - x0) with a by lia. replace (y0 + b - y0) with b by lia.
  apply (circle_offsets_accurate (midpoint_rounds radius) radius 0 radius
           (int16 (1 - radius))); [lia| |done].
  by apply midpoint_exact_init.
Qed.

Lemma circle_is_accurate_witness :
  painted begin (stores_of (circle begin 100 100 5 COLOR_RED)) 105 100 /\
  5 * 5 - 5 <= (105 - 100) * (105 - 100) + (100 - 100) * (100 - 100) <= 5 * 5 + 5 - 1.
Proof.
  assert (painted begin (stores_of (circle begin 100 100 5 COLOR_RED)) 105 100) as Hp.
  { split; [by vm_compute|]. exists (Store 80105 COLOR_RED). split; [|reflexivity].
    vm_compute. repeat first [apply list_elem_of_here | apply list_elem_of_further]. }
  split; [exact Hp|].
  apply (circle_is_accurate begin 100 100 5 COLOR_RED 105 100);
    [apply begin_ok|lia|unfold in_int16; lia..|exact Hp].
Defined.

(** [circle] paints the four points of the circle on the axes through
    the centre, whenever they are on the screen. *)
Theorem circle_paints_the_axis_points (e : Engine) (x0 y0 radius c : Z) :
  engine_ok e ->
  0 < radius <= 32767 ->
  let tr := stores_of (circle e x0 y0 radius c) in
  (on_screen e (x0 + radius) y0 -> painted e tr (x0 + radius) y0) /\
  (on_screen e (x0 - radius) y0 -> painted e tr (x0 - radius) y0) /\
  (on_screen e x0 (y0 + radius) -> painted e tr x0 (y0 + radius)) /\
  (on_screen e x0 (y0 - radius) -> painted e tr x0 (y0 - radius)).
Proof.
  intros Hok Hr tr. subst tr.
  destruct (engine_ok_dims e Hok) as (Hw & Hh & _).
  assert (forall a b, (a, b) ∈ octants 0 radius ->
            on_screen e (x0 + a) (y0 + b) ->
            painted e (stores_of (circle e x0 y0 radius c)) (x0 + a) (y0 + b)) as Hoct.
  { intros a b Hab Hon. apply painted_circle; [done|lia|]. split; [done|].
    exists a, b. split.
    - unfold midpoint_rounds. rewrite Nat.add_1_r. cbn [circle_offsets].
      replace (0 <=? radius) with true by lia.
      destruct (if _ <? 0 then _ else _). apply elem_of_app. by left.
    - destruct Hon as [? ?]. by rewrite !int16_id by (unfold in_int16; lia). }
  split_and!; intros Hon.
  - pose proof (Hoct radius 0) as H. rewrite Z.add_0_r in H. apply H; [|done].
    unfold octants. repeat first [apply list_elem_of_here | apply list_elem_of_further].
  - pose proof (Hoct (- radius) 0) as H. rewrite Z.add_0_r, Z.add_opp_r in H.
    apply H; [|done].
    unfold octants. repeat first [apply list_elem_of_here | apply list_elem_of_further].
  - pose proof (Hoct 0 radius) as H. rewrite Z.add_0_r in H. apply H; [|done].
    unfold octants. repeat first [apply list_elem_of_here | apply list_elem_of_further].
  - pose proof (Hoct 0 (- radius)) as H. rewrite Z.add_0_r, Z.add_opp_r in H.
    apply H; [|done].
    unfold octants. repeat first [apply list_elem_of_here | apply list_elem_of_further].
Qed.

Lemma circle_paints_the_axis_points_witness :
  painted begin (stores_of (circle begin 100 100 5 COLOR_RED)) (100 - 5) 100.
Proof.
  destruct (circle_paints_the_axis_points begin 100 100 5 COLOR_RED begin_ok ltac:(lia))
    as (_ & Hleft & _).
  apply Hleft. by vm_compute.
Defined.


(** ** The filled circle *)

Lemma square_le t hw : - hw <= t <= hw -> t * t <= hw * hw.
Proof.
  intros H. assert (0 <= (hw - t) * (hw + t)) by (apply Z.mul_nonneg_nonneg; lia). lia.
Qed.

(** One scanline of [fillCircle]: the row [yy], from [x0 - hw] to
    [x0 + hw]. *)
Lemma painted_scan e x0 yy hw c u v :
  engine_ok e ->
  in_int16 (x0 - hw) -> in_int16 yy -> 0 <= hw <= 16383 ->
  painted e (fillRect e (int16 (x0 - hw)) (int16 yy) (int16 (2 * hw + 1)) 1 c) u v <->
  on_screen e u v /\ (x0 - hw <= u <= x0 + hw) /\ v = yy.
Proof.
  intros Hok Hx Hy Hhw.
  rewrite !int16_id by (try done; unfold in_int16; lia).
  rewrite painted_fillRect by (try done; unfold in_int16; lia).
  unfold on_screen. lia.
Qed.

Section FillCircle.
Variables (e : Engine) (x0 y0 radius c : Z).
Hypothesis Hok : engine_ok e.
Hypothesis Hradius : 0 < radius <= 16381.
Hypothesis Hleft : in_int16 (x0 - radius).
Hypothesis Hright : in_int16 (x0 + radius).
Hypothesis Htop : in_int16 (y0 - radius).
Hypothesis Hbottom : in_int16 (y0 + radius).

Let inside (u v : Z) : Prop :=
  (u - x0) * (u - x0) + (v - y0) * (v - y0) <= radius * radius + radius - 1.

Lemma state_inside x y d :
  midpoint_exact radius x y d -> x <= y ->
  0 <= x /\ 0 <= y <= radius /\ x * x + y * y <= radius * radius + radius - 1.
Proof. intros (? & ? & ? & Hb) Hle. specialize (Hb Hle). lia. Qed.

Lemma fillCircle_loop_inside fuel x y d u v :
  midpoint_exact radius x y d ->
  painted e (stores_of (fillCircle_loop fuel e x0 y0 c x y d)) u v -> inside u v.
Proof.
  revert x y d. induction fuel as [|fuel IH]; intros x y d Hinv;
    cbn [fillCircle_loop].
  - destruct (x <? y); intros []%painted_nil.
  - destruct (x <? y) eqn:Hlt; [|intros []%painted_nil].
    pose proof (midpoint_exact_step radius x y d ltac:(lia) Hinv ltac:(lia)) as Hstep.
    pose proof (state_inside x y d Hinv ltac:(lia)) as (Hx & Hy & Hsq).
    unfold in_int16 in *.
    destruct (d <? 0); cbv zeta iota beta in Hstep |- *;
      destruct Hstep as (-> & Hy' & Hinv'); rewrite stores_of_before;
      rewrite ?(int16_id (y - 1)) in * by (unfold in_int16; lia).
    + intros [[[]%painted_nil|Hrows]%painted_app|Hlater]%painted_app;
        [|by apply (IH _ _ _ Hinv')].
      destruct (x + 1 <=? y) eqn:Hnext; [|by apply painted_nil in Hrows].
      pose proof (state_inside _ _ _ Hinv' ltac:(lia)) as (_ & _ & Hsq').
      apply painted_app in Hrows as [Hrow|Hrow];
        apply painted_scan in Hrow as (_ & Hu & ->);
        try done; try (unfold in_int16; lia);
        unfold inside; pose proof (square_le (u - x0) y ltac:(lia)); lia.
    + intros [[Hrows|Hrows]%painted_app|Hlater]%painted_app;
        [| |by apply (IH _ _ _ Hinv')].
      * apply painted_app in Hrows as [Hrow|Hrow];
          apply painted_scan in Hrow as (_ & Hu & ->);
          try done; try (unfold in_int16; lia);
          unfold inside; pose proof (square_le (u - x0) x ltac:(lia)); lia.
      * destruct (x + 1 <=? y - 1) eqn:Hnext; [|by apply painted_nil in Hrows].
        pose proof (state_inside _ _ _ Hinv' ltac:(lia)) as (_ & _ & Hsq').
        apply painted_app in Hrows as [Hrow|Hrow];
          apply painted_scan in Hrow as (_ & Hu & ->);
          try done; try (unfold in_int16; lia);
          unfold inside; pose proof (square_le (u - x0) (y - 1) ltac:(lia)); lia.
Qed.
End FillCircle.

(** [fillCircle] finishes, paints the whole centre row from [x0 - r] to
    [x0 + r] as far as it is on the screen, and paints nothing outside the
    disc: the squared distance of a painted pixel from the centre is at
    most [r^2 + r - 1], as for the pixels of [circle]. *)
Theorem fillCircle_stays_in_the_disc (e : Engine) (x0 y0 radius c : Z) :
  engine_ok e ->
  0 < radius <= 16381 ->
  in_int16 (x0 - radius) -> in_int16 (x0 + radius) ->
  in_int16 (y0 - radius) -> in_int16 (y0 + radius) ->
  exists tr,
    fillCircle e x0 y0 radius c = Finished tr /\
    (forall u, on_screen e u y0 -> x0 - radius <= u <= x0 + radius ->
               painted e tr u y0) /\
    (forall u v, painted e tr u v ->
       (u - x0) * (u - x0) + (v - y0) * (v - y0) <= radius * radius + radius - 1).
Proof.
  intros Hok Hr Hl Hrt Ht Hb.
  destruct (fillCircle_finishes e x0 y0 radius c) as [tr Hfin]; [unfold in_int16; lia|].
  exists tr. split; [done|].
  assert (stores_of (fillCircle e x0 y0 radius c) = tr) as Htr by by rewrite Hfin.
  unfold fillCircle in Htr. replace (radius <=? 0) with false in Htr by lia.
  rewrite stores_of_before in Htr. subst tr.
  assert (in_int16 y0) as Hy0 by (unfold in_int16 in *; lia).
  assert (fillRect e (int16 (x0 - radius)) y0 (int16 (2 * radius + 1)) 1 c =
          fillRect e (int16 (x0 - radius)) (int16 y0) (int16 (2 * radius + 1)) 1 c)
    as -> by by rewrite (int16_id y0).
  split.
  - intros u Hon Hu. apply painted_app. left.
    apply painted_scan; try done; lia.
  - intros u v [Hrow|Hloop]%painted_app.
    + apply painted_scan in Hrow as (_ & Hu & ->); try done; try lia.
      pose proof (square_le (u - x0) radius ltac:(lia)). lia.
    + apply (fillCircle_loop_inside e x0 y0 radius c Hok Hr Hl Hrt Ht Hb
               _ _ _ _ u v (midpoint_exact_init radius Hr) Hloop).
Qed.

Lemma fillCircle_stays_in_the_disc_witness :
  exists tr,
    fillCircle begin 100 100 5 COLOR_RED = Finished tr /\
    (forall u, on_screen begin u 100 -> 100 - 5 <= u <= 100 + 5 ->
               painted begin tr u 100) /\
    (forall u v, painted begin tr u v ->
       (u - 100) * (u - 100) + (v - 100) * (v - 100) <= 5 * 5 + 5 - 1).
Proof.
  apply (fillCircle_stays_in_the_disc begin 100 100 5 COLOR_RED);
    [apply begin_ok|lia|unfold in_int16; lia..].
Defined.


(** ** The filled circle covers the outline *)

Section FillCoversOutline.
Variables (e : Engine) (x0 y0 radius c : Z).
Hypothesis Hok : engine_ok e.
Hypothesis Hradius : 0 < radius <= 16381.
Hypothesis Hleft : in_int16 (x0 - radius).
Hypothesis Hright : in_int16 (x0 + radius).
Hypothesis Htop : in_int16 (y0 - radius).
Hypothesis Hbottom : in_int16 (y0 + radius).

(** The pixel [(u, v)] is on the screen and on one of the two scanlines
    [y0 + row], [y0 - row], within [hw] of the centre column. *)
Let scan (hw row u v : Z) : Prop :=
  on_screen e u v /\ (x0 - hw <= u <= x0 + hw) /\ (v = y0 + row \/ v = y0 - row).

(** One round of the two loops, with the 16-bit conversions resolved. *)
Lemma midpoint_next x y d :
  midpoint_exact radius x y d -> x <= y ->
  let y' := if d <? 0 then y else y - 1 in
  let d' := if d <? 0 then int16 (d + (2 * x + 3)) else int16 (d + (2 * (x - y) + 5)) in
  midpoint_exact radius (x + 1) y' d' /\
  (forall n, circle_offsets (S n) x y d = octants x y ++ circle_offsets n (x + 1) y' d') /\
  (x < y -> forall m u v,
     painted e (stores_of (fillCircle_loop (S m) e x0 y0 c x y d)) u v <->
     (0 <= d /\ scan x y u v) \/ (x + 1 <= y' /\ scan y' (x + 1) u v) \/
     painted e (stores_of (fillCircle_loop m e x0 y0 c (x + 1) y' d')) u v).
Proof.
  intros Hinv Hle.
  pose proof (midpoint_exact_step radius x y d ltac:(lia) Hinv Hle) as Hstep.
  pose proof (state_inside radius x y d Hinv Hle) as (Hx & Hy & _).
  unfold in_int16 in *.
  destruct (d <? 0) eqn:Hd; cbv zeta iota beta in Hstep |- *;
    destruct Hstep as (Hx1 & Hy' & Hinv');
    rewrite ?(int16_id (y - 1)) in * by (unfold in_int16; lia).
  - split; [done|]. split.
    { intros n. cbn [circle_offsets]. replace (x <=? y) with true by lia. rewrite Hd, Hx1. done. }
    intros Hlt m u v. cbn [fillCircle_loop]. replace (x <? y) with true by lia.
    rewrite Hd, Hx1, stores_of_before. cbn [app].
    rewrite painted_app. unfold scan.
    destruct (x + 1 <=? y) eqn:Hnext.
    + rewrite painted_app, !painted_scan by (try done; unfold in_int16; lia).
      unfold on_screen. intuition lia.
    + pose proof (painted_nil e u v). unfold on_screen. intuition lia.
  - split; [done|]. split.
    { intros n. cbn [circle_offsets]. replace (x <=? y) with true by lia. rewrite Hd, Hx1.
      by rewrite (int16_id (y - 1)) by (unfold in_int16; lia). }
    intros Hlt m u v. cbn [fillCircle_loop]. replace (x <? y) with true by lia.
    rewrite Hd, Hx1, stores_of_before.
    rewrite !(int16_id (y - 1)) by (unfold in_int16; lia).
    rewrite !painted_app. unfold scan.
    rewrite !painted_scan by (try done; unfold in_int16; lia).
    destruct (x + 1 <=? y - 1) eqn:Hnext.
    + rewrite painted_app, !painted_scan by (try done; unfold in_int16; lia).
      unfold on_screen. intuition lia.
    + pose proof (painted_nil e u v). unfold on_screen. intuition lia.
Qed.

(** An offset of the outline, and every pixel of its row that is no
    farther from the centre column, is painted by the rest of the fill
    loop, or lies on the scanlines [y0 + x], [y0 - x] of half-width [y],
    which the fill has painted before it arrives at the state [(x, y)]. *)
Lemma fill_covers k :
  forall x y d n m a b u v,
    midpoint_exact radius x y d ->
    (Z.to_nat (y + 1 - x) <= k)%nat -> (Z.to_nat (y - x) <= m)%nat ->
    (a, b) ∈ circle_offsets n x y d ->
    Z.abs (u - x0) <= Z.abs a -> v = y0 + b -> on_screen e u v ->
    painted e (stores_of (fillCircle_loop m e x0 y0 c x y d)) u v \/ scan y x u v.
Proof.
  induction k as [|k IH]; intros x y d n m a b u v Hinv Hk Hm Hin Hu Hv Hon.
  { destruct n; cbn [circle_offsets] in Hin; destruct (x <=? y) eqn:Hle;
      try (by apply elem_of_nil in Hin); lia. }
  destruct (decide (x <= y)) as [Hle|Hgt].
  2: { destruct n; cbn [circle_offsets] in Hin; replace (x <=? y) with false in Hin by lia;
       by apply elem_of_nil in Hin. }
  destruct n as [|n].
  { cbn [circle_offsets] in Hin. destruct (x <=? y); by apply elem_of_nil in Hin. }
  pose proof (midpoint_next x y d Hinv Hle) as (Hinv' & Hoff & Hfill).
  pose proof (state_inside radius x y d Hinv Hle) as (Hx & Hy & _).
  cbv zeta in Hinv', Hoff, Hfill. rewrite Hoff in Hin.
  apply elem_of_app in Hin as [Hhere|Hlater].
  - apply elem_of_octants in Hhere as [[Ha Hb]|[Ha Hb]].
    2: { right. unfold scan. split; [done|]. lia. }
    destruct (decide (x = y)) as [->|Hne].
    { right. unfold scan. split; [done|]. lia. }
    destruct m as [|m]; [lia|]. left. apply Hfill; [lia|].
    destruct (d <? 0) eqn:Hd.
    + pose proof (midpoint_next (x + 1) y _ Hinv' ltac:(lia)) as (_ & Hoff' & _).
      cbv zeta in Hoff'.
      destruct (IH (x + 1) y _ 1%nat m (x + 1) b u v Hinv') as [Htail|Hrow];
        try done; try lia.
      * rewrite Hoff'. apply elem_of_app. left. apply elem_of_octants. lia.
      * by right; right.
      * right; left. split; [lia|done].
    + left. split; [lia|]. unfold scan. split; [done|]. lia.
  - set (y' := if d <? 0 then y else y - 1) in *.
    assert (y - 1 <= y' <= y) as Hy' by (subst y'; destruct (d <? 0); lia).
    assert (x + 1 <= y') as Hnext.
    { destruct n; cbn [circle_offsets] in Hlater; destruct (x + 1 <=? y') eqn:Hc;
        try (by apply elem_of_nil in Hlater); lia. }
    destruct m as [|m]; [lia|].
    left. apply Hfill; [lia|].
    destruct (IH (x + 1) y' _ n m a b u v Hinv') as [Htail|Hrow]; try done; try lia.
    + by right; right.
    + right; left. by split.
Qed.
End FillCoversOutline.

(** The fill has no gap towards the outline (for radii up to 16381 and a
    circle whose bounding square fits 16-bit coordinates): whenever
    [circle] paints a pixel, [fillCircle] with the same centre and radius
    paints that pixel and every on-screen pixel of the same row that is no
    farther from the centre column. *)
Theorem fillCircle_covers_circle (e : Engine) (x0 y0 radius c u' u v : Z) :
  engine_ok e ->
  0 < radius <= 16381 ->
  in_int16 (x0 - radius) -> in_int16 (x0 + radius) ->
  in_int16 (y0 - radius) -> in_int16 (y0 + radius) ->
  painted e (stores_of (circle e x0 y0 radius c)) u' v ->
  Z.abs (u - x0) <= Z.abs (u' - x0) ->
  on_screen e u v ->
  painted e (stores_of (fillCircle e x0 y0 radius c)) u v.
Proof.
  intros Hok Hr Hl Hrt Ht Hb Hp Hu Hon.
  apply (painted_circle e x0 y0 radius c Hok ltac:(lia)) in Hp
    as (_ & a & b & Hin & -> & ->).
  pose proof (offsets_bound radius ltac:(lia) a b Hin) as [Ha Hb'].
  unfold in_int16 in *.
  rewrite (int16_id (x0 + a)) in Hu by (unfold in_int16; lia).
  rewrite (int16_id (y0 + b)) in Hon |- * by (unfold in_int16; lia).
  unfold fillCircle. replace (radius <=? 0) with false by lia.
  rewrite stores_of_before. apply painted_app.
  destruct (fill_covers e x0 y0 radius c Hok Hr Hl Hrt Ht Hb
              (midpoint_rounds radius) 0 radius (int16 (1 - radius))
              (midpoint_rounds radius) (midpoint_rounds radius) a b u (y0 + b))
    as [Hloop|(_ & Hrow & Hv)]; try done.
  - by apply midpoint_exact_init.
  - unfold midpoint_rounds. lia.
  - unfold midpoint_rounds. lia.
  - lia.
  - by right.
  - left. assert (y0 + b = y0) as Hb0 by lia. rewrite Hb0 in *.
    pose proof (painted_scan e x0 y0 radius c u y0 Hok) as Hscan.
    rewrite (int16_id y0) in Hscan by (unfold in_int16; lia).
    apply Hscan; try done; unfold in_int16; lia.
Qed.

Lemma fillCircle_covers_circle_witness :
  painted begin (stores_of (fillCircle begin 100 100 5 COLOR_RED)) 103 100.
Proof.
  assert (painted begin (stores_of (circle begin 100 100 5 COLOR_RED)) 105 100) as Hp.
  { split; [by vm_compute|]. exists (Store 80105 COLOR_RED). split; [|reflexivity].
    vm_compute. repeat first [apply list_elem_of_here | apply list_elem_of_further]. }
  apply (fillCircle_covers_circle begin 100 100 5 COLOR_RED 105 103 100);
    [apply begin_ok|lia|unfold in_int16; lia..|exact Hp|lia|by vm_compute].
Defined.


(** ** Glyphs *)

(** [drawChar] is the 64 blocks of the glyph, row by row. *)
Lemma drawChar_blocks e x y c color bg size :
  0 <= c <= 127 ->
  drawChar e x y c color bg size =
    row ← seqZ 0 8; col ← seqZ 0 8;
    match glyph_colour c row col color bg with
    | Some k => glyph_block e x y size row col k
    | None => []
    end.
Proof.
  intros Hc. unfold drawChar, glyph_colour, glyph_bit, glyph_block.
  replace ((c <? 0) || (c >? 127)) with false by lia.
  destruct (size =? 1);
    apply Forall_bind_ext, Forall_forall; intros row _;
    apply Forall_bind_ext, Forall_forall; intros col _;
    destruct (negb (Z.land _ _ =? 0)); [done| |done|]; by destruct (negb (bg =? color)).
Qed.

Lemma block_unique p q size a b :
  0 < size -> p + a * size <= q < p + a * size + size ->
  p + b * size <= q < p + b * size + size -> a = b.
Proof. intros Hs Ha Hb. nia. Qed.

Section Glyph.
Variables (e : Engine) (x y size : Z).
Hypothesis Hok : engine_ok e.
Hypothesis Hx : in_int16 x.
Hypothesis Hy : in_int16 y.
Hypothesis Hsize : 1 <= size <= 255.
Hypothesis Hright : x + 8 * size <= 32767.
Hypothesis Hbottom : y + 8 * size <= 32767.

(** The pixels of one block. *)
Lemma glyph_block_elem row col k s :
  0 <= row < 8 -> 0 <= col < 8 ->
  s ∈ glyph_block e x y size row col k <->
  val s = k /\
  exists u v, (x + col * size <= u < x + col * size + size) /\
              (y + row * size <= v < y + row * size + size) /\
              on_screen e u v /\ addr s = cell_of e u v.
Proof.
  intros Hrow Hcol. unfold glyph_block. unfold in_int16 in *.
  assert (0 <= col * size <= 7 * size /\ 0 <= row * size <= 7 * size) as [Hc Hr] by nia.
  destruct (size =? 1) eqn:Hone.
  - assert (size = 1) as -> by lia.
    rewrite !int16_id by (unfold in_int16; lia). rewrite pixel_elem by done. split.
    + intros [Hon ->]. split; [done|]. exists (x + col), (y + row). simpl.
      split; [lia|]. split; [lia|]. done.
    + intros (<- & u & v & Hu & Hv & Hon & Haddr).
      assert (u = x + col) as -> by lia. assert (v = y + row) as -> by lia.
      split; [done|]. destruct s; simpl in *; by subst.
  - rewrite !int16_id by (unfold in_int16; lia).
    apply fillRect_elem; try done; unfold in_int16; lia.
Qed.

Lemma drawChar_elem c color bg s :
  0 <= c <= 127 ->
  s ∈ drawChar e x y c color bg size <->
  exists row col k,
    (0 <= row < 8) /\ (0 <= col < 8) /\
    glyph_colour c row col color bg = Some k /\
    s ∈ glyph_block e x y size row col k.
Proof.
  intros Hc. rewrite drawChar_blocks by done. split.
  - intros (row & (col & Hs & Hcol%elem_of_seqZ)%list_elem_of_bind
                & Hrow%elem_of_seqZ)%list_elem_of_bind.
    destruct (glyph_colour c row col color bg) as [k|] eqn:Hk;
      [|by apply elem_of_nil in Hs].
    exists row, col, k. split; [lia|]. split; [lia|]. done.
  - intros (row & col & k & Hrow & Hcol & Hk & Hs).
    apply list_elem_of_bind. exists row. split; [|apply elem_of_seqZ; lia].
    apply list_elem_of_bind. exists col. split; [|apply elem_of_seqZ; lia].
    by rewrite Hk.
Qed.
End Glyph.

(** [drawChar] renders the glyph: at scale [size] the pixel [(i, j)] of
    the block of bit [col] of row [row] holds the foreground colour when
    the bit is set; when it is clear it holds the background colour, or
    keeps what it held when background and foreground are the same colour
    (transparent text).  Bit 0 is the leftmost column. *)
Theorem drawChar_renders_the_glyph
    (e : Engine) (fb : list Z) (x y c color bg size row col i j : Z) :
  engine_ok e ->
  Z.of_nat (length fb) = LCD_H_RES * LCD_V_RES ->
  0 <= c <= 127 -> 1 <= size <= 255 ->
  in_int16 x -> in_int16 y -> x + 8 * size <= 32767 -> y + 8 * size <= 32767 ->
  0 <= row < 8 -> 0 <= col < 8 -> 0 <= i < size -> 0 <= j < size ->
  on_screen e (x + col * size + i) (y + row * size + j) ->
  exec (drawChar e x y c color bg size) fb
    !! Z.to_nat (cell_of e (x + col * size + i) (y + row * size + j)) =
  match glyph_colour c row col color bg with
  | Some k => Some k
  | None => fb !! Z.to_nat (cell_of e (x + col * size + i) (y + row * size + j))
  end.
Proof.
  intros Hok Hlen Hc Hsize Hx Hy Hr Hb Hrow Hcol Hi Hj Hon.
  set (u := x + col * size + i) in *. set (v := y + row * size + j) in *.
  pose proof (cell_of_in_buffer e u v Hok Hon) as Hrange.
  assert (forall s, s ∈ drawChar e x y c color bg size -> addr s = cell_of e u v ->
            glyph_colour c row col color bg = Some (val s)) as Hsame.
  { intros s Hs Haddr.
    apply drawChar_elem in Hs as (row' & col' & k & Hrow' & Hcol' & Hk & Hs); try done.
    apply glyph_block_elem in Hs as (<- & u' & v' & Hu' & Hv' & Hon' & Haddr');
      try done.
    rewrite Haddr in Haddr'. apply cell_of_inj in Haddr' as [<- <-]; try done.
    assert (col' = col) as -> by (apply (block_unique x u size); subst u; lia).
    assert (row' = row) as -> by (apply (block_unique y v size); subst v; lia).
    done. }
  destruct (glyph_colour c row col color bg) as [k|] eqn:Hk.
  - apply exec_agreed; [lia| |].
    + intros s Hs Haddr. specialize (Hsame s Hs Haddr). congruence.
    + exists (Store (cell_of e u v) k). split; [|done].
      apply drawChar_elem; try done. exists row, col, k.
      split; [done|]. split; [done|]. split; [done|].
      apply glyph_block_elem; try done. split; [done|].
      exists u, v. split; [subst u; lia|]. split; [subst v; lia|]. done.
  - apply exec_untouched; [lia|]. intros s Hs Haddr.
    by specialize (Hsame s Hs Haddr).
Qed.

Lemma drawChar_renders_the_glyph_witness :
  let fb := replicate (Z.to_nat (LCD_H_RES * LCD_V_RES)) COLOR_BLACK in
  exec (drawChar begin 10 10 65 COLOR_WHITE COLOR_BLACK 2) fb
    !! Z.to_nat (cell_of begin (10 + 2 * 2 + 1) (10 + 0 * 2 + 0)) =
  match glyph_colour 65 0 2 COLOR_WHITE COLOR_BLACK with
  | Some k => Some k
  | None => fb !! Z.to_nat (cell_of begin (10 + 2 * 2 + 1) (10 + 0 * 2 + 0))
  end.
Proof.
  apply (drawChar_renders_the_glyph begin _ 10 10 65 COLOR_WHITE COLOR_BLACK 2 0 2 1 0).
  - apply begin_ok.
  - rewrite length_replicate. apply Z2Nat.id. unfold LCD_H_RES, LCD_V_RES. lia.
  - lia.
  - lia.
  - unfold in_int16; lia.
  - unfold in_int16; lia.
  - lia.
  - lia.
  - lia.
  - lia.
  - lia.
  - lia.
  - by vm_compute.
Defined.

(** A glyph stays in its cell: [drawChar] changes no pixel outside the
    square of [8 * size] pixels whose top-left corner is [(x, y)]. *)
Theorem drawChar_stays_in_its_cell
    (e : Engine) (fb : list Z) (x y c color bg size u v : Z) :
  engine_ok e ->
  0 <= c <= 127 -> 1 <= size <= 255 ->
  in_int16 x -> in_int16 y -> x + 8 * size <= 32767 -> y + 8 * size <= 32767 ->
  on_screen e u v ->
  ~ ((x <= u < x + 8 * size) /\ (y <= v < y + 8 * size)) ->
  exec (drawChar e x y c color bg size) fb !! Z.to_nat (cell_of e u v) =
  fb !! Z.to_nat (cell_of e u v).
Proof.
  intros Hok Hc Hsize Hx Hy Hr Hb Hon Hout.
  pose proof (cell_of_in_buffer e u v Hok Hon) as Hrange.
  apply exec_untouched; [lia|]. intros s Hs Haddr.
  apply drawChar_elem in Hs as (row & col & k & Hrow & Hcol & Hk & Hs); try done.
  apply glyph_block_elem in Hs as (_ & u' & v' & Hu' & Hv' & Hon' & Haddr'); try done.
  rewrite Haddr in Haddr'. apply cell_of_inj in Haddr' as [<- <-]; try done.
  apply Hout. nia.
Qed.

Lemma drawChar_stays_in_its_cell_witness :
  exec (drawChar begin 10 10 65 COLOR_WHITE COLOR_BLACK 2) [COLOR_RED]
    !! Z.to_nat (cell_of begin 26 10) = [COLOR_RED] !! Z.to_nat (cell_of begin 26 10).
Proof.
  apply (drawChar_stays_in_its_cell begin _ 10 10 65 COLOR_WHITE COLOR_BLACK 2 26 10);
    [apply begin_ok|lia|lia|unfold in_int16; lia|unfold in_int16; lia|lia|lia
    |by vm_compute|lia].
Defined.


(** ** What the drawing routines read of the engine state *)

Lemma pixel_same e e' x y c : same_screen e e' -> pixel e x y c = pixel e' x y c.
Proof.
  intros (Hr & Hw & Hh). unfold pixel, transformCoordinates. by rewrite Hr, Hw, Hh.
Qed.

Lemma fillRect_same e e' x y w h c :
  same_screen e e' -> fillRect e x y w h c = fillRect e' x y w h c.
Proof.
  intros Hs. pose proof Hs as (Hr & Hw & Hh). unfold fillRect. rewrite Hr, Hw, Hh.
  destruct (_ || _); [done|].
  destruct (if x <? 0 then _ else _) as [w1 x1].
  destruct (if y <? 0 then _ else _) as [h1 y1].
  destruct (current_rotation e'); [done|..];
    apply Forall_bind_ext, Forall_forall; intros row _;
    apply Forall_bind_ext, Forall_forall; intros col _; by apply pixel_same.
Qed.

Lemma drawChar_same e e' x y c color bg size :
  same_screen e e' -> drawChar e x y c color bg size = drawChar e' x y c color bg size.
Proof.
  intros Hs. unfold drawChar. destruct (_ || _); [done|].
  generalize (nth (Z.to_nat c) font8x8_basic []). intros char_data.
  destruct (size =? 1);
    apply Forall_bind_ext, Forall_forall; intros row _;
    apply Forall_bind_ext, Forall_forall; intros col _;
    rewrite ?(pixel_same e e'), ?(fillRect_same e e') by done; done.
Qed.

Lemma text_loop_same e e' x str color bg size cx cy :
  same_screen e e' ->
  text_loop e x str color bg size cx cy = text_loop e' x str color bg size cx cy.
Proof.
  intros Hs. revert cx cy. induction str as [|c str IH]; intros cx cy; [done|].
  cbn [text_loop]. rewrite (drawChar_same e e') by done. by rewrite !IH.
Qed.

Lemma same_screen_with_cursor e x y : same_screen (with_cursor e x y) e.
Proof. done. Qed.

Lemma with_cursor_id e : with_cursor e (cursor_x e) (cursor_y e) = e.
Proof. by destruct e. Qed.

(** ** Strings drawn by [text] *)

Lemma text_loop_app e x s1 s2 color bg size cx cy :
  Forall (fun c => c <> 0 /\ c <> 10 /\ c <> 13) s1 -> 0 <= size -> in_int16 cx ->
  cx + Z.of_nat (length s1) * (size * 8) <= 32767 ->
  text_loop e x (s1 ++ s2) color bg size cx cy =
  text_loop e x s1 color bg size cx cy ++
  text_loop e x s2 color bg size (cx + Z.of_nat (length s1) * (size * 8)) cy.
Proof.
  intros Hplain Hsize. revert cx.
  induction Hplain as [|c s1 (Hc & Hnl & Hcr) _ IH]; intros cx Hcx Hfit.
  - cbn [app text_loop length].
    by replace (cx + Z.of_nat 0 * (size * 8)) with cx by lia.
  - cbn [app text_loop]. replace (c =? 0) with false by lia.
    replace (c =? 10) with false by lia. replace (c =? 13) with false by lia.
    cbn [negb]. rewrite <- app_assoc. f_equal.
    rewrite length_cons, Nat2Z.inj_succ in *. unfold in_int16 in *.
    rewrite int16_id by (unfold in_int16; nia).
    rewrite IH by nia. do 2 f_equal. lia.
Qed.

(** A string without line break does not use the start of the line. *)
Lemma text_loop_line_start e x x' s color bg size :
  Forall (fun c => c <> 10) s ->
  forall cx cy,
    text_loop e x s color bg size cx cy = text_loop e x' s color bg size cx cy.
Proof.
  induction 1 as [|c s Hnl _ IH]; intros cx cy; [done|].
  cbn [text_loop]. destruct (c =? 0); [done|].
  replace (c =? 10) with false by lia.
  destruct (negb (c =? 13)); [f_equal|]; apply IH.
Qed.

(** [text] lays the bytes of a string out from left to right, [8 * size]
    pixels apart, whether they have a glyph or not (a byte above 127 draws
    nothing and still takes its cell): for [s1] without NUL, line feed and
    carriage return, and [s2] without line feed, drawing [s1 ++ s2] at
    [(x, y)] is drawing [s1] there and [s2] at
    [(x + 8 * size * length s1, y)], as long as that position does not
    exceed 32767 ([x] a 16-bit value, [size] not negative). *)
Theorem text_is_laid_out_left_to_right
    (e : Engine) (x y : Z) (s1 s2 : list Z) (color bg size : Z) :
  Forall (fun c => c <> 0 /\ c <> 10 /\ c <> 13) s1 ->
  Forall (fun c => c <> 10) s2 ->
  0 <= size -> in_int16 x ->
  x + Z.of_nat (length s1) * (size * 8) <= 32767 ->
  text e x y (s1 ++ s2) color bg size =
  text e x y s1 color bg size ++
  text e (x + Z.of_nat (length s1) * (size * 8)) y s2 color bg size.
Proof.
  intros Hs1 Hs2 Hsize Hx Hfit. unfold text. rewrite text_loop_app by done. f_equal.
  by apply text_loop_line_start.
Qed.

Lemma text_is_laid_out_left_to_right_witness :
  text begin 10 10 ([72; 200; 105] ++ [33; 13; 63]) COLOR_WHITE COLOR_BLACK 2 =
  text begin 10 10 [72; 200; 105] COLOR_WHITE COLOR_BLACK 2 ++
  text begin (10 + Z.of_nat (length [72; 200; 105]) * (2 * 8)) 10 [33; 13; 63]
    COLOR_WHITE COLOR_BLACK 2.
Proof.
  apply (text_is_laid_out_left_to_right begin 10 10 [72; 200; 105] [33; 13; 63]);
    [repeat constructor; lia..|lia|unfold in_int16; lia|simpl; lia].
Defined.

Lemma text_loop_breaks e x s1 s2 color bg size cx cy :
  Forall (fun c => c <> 0 /\ c <> 10) s1 ->
  text_loop e x (s1 ++ 10 :: s2) color bg size cx cy =
    text_loop e x s1 color bg size cx cy ++
    text_loop e x s2 color bg size x (int16 (cy + size * 8)) /\
  text_loop e x (s1 ++ 13 :: s2) color bg size cx cy =
    text_loop e x (s1 ++ s2) color bg size cx cy.
Proof.
  intros Hs1. revert cx.
  induction Hs1 as [|c s1 (Hc & Hnl) _ IH]; intros cx.
  - by split.
  - cbn [app text_loop]. replace (c =? 0) with false by lia.
    replace (c =? 10) with false by lia.
    destruct (negb (c =? 13)).
    + destruct (IH (int16 (cx + size * 8))) as [-> ->]. by rewrite app_assoc.
    + apply IH.
Qed.

(** In [text] a ['\n'] starts a new line at the [x] the call was given,
    [8 * size] pixels further down (no line spacing is added, unlike in
    the print functions), and a ['\r'] is dropped. *)
Theorem text_line_breaks (e : Engine) (x y : Z) (s1 s2 : list Z) (color bg size : Z) :
  Forall (fun c => c <> 0 /\ c <> 10) s1 ->
  text e x y (s1 ++ 10 :: s2) color bg size =
    text e x y s1 color bg size ++ text e x (int16 (y + size * 8)) s2 color bg size /\
  text e x y (s1 ++ 13 :: s2) color bg size = text e x y (s1 ++ s2) color bg size.
Proof. intros Hs1. unfold text. by apply text_loop_breaks. Qed.

Lemma text_line_breaks_witness :
  text begin 5 5 ([65] ++ 10 :: [66]) COLOR_WHITE COLOR_BLACK 1 =
    text begin 5 5 [65] COLOR_WHITE COLOR_BLACK 1 ++
    text begin 5 (int16 (5 + 1 * 8)) [66] COLOR_WHITE COLOR_BLACK 1 /\
  text begin 5 5 ([65] ++ 13 :: [66]) COLOR_WHITE COLOR_BLACK 1 =
    text begin 5 5 ([65] ++ [66]) COLOR_WHITE COLOR_BLACK 1.
Proof.
  apply (text_line_breaks begin 5 5 [65] [66]). repeat constructor; lia.
Defined.


(** ** The cursor stream: composing prints *)

(** Printing a string in two pieces is printing it in one, and [println]
    is [print] of the string with ['\n'] appended, as long as the first
    piece has no NUL byte (a NUL ends the first [print], and then the
    second piece or the line break would still be printed). *)
Theorem print_in_pieces (e : Engine) (s1 s2 : list Z) :
  Forall (fun c => c <> 0) s1 ->
  print e (s1 ++ s2) =
    (let '(e1, tr1) := print e s1 in
     let '(e2, tr2) := print e1 s2 in
     (e2, tr1 ++ tr2)) /\
  println e s1 = print e (s1 ++ [10]).
Proof.
  intros Hs1.
  assert (forall e s2, print e (s1 ++ s2) =
            (let '(e1, tr1) := print e s1 in
             let '(e2, tr2) := print e1 s2 in
             (e2, tr1 ++ tr2))) as Happ.
  { clear e s2. induction Hs1 as [|c s1 Hc _ IH]; intros e s2.
    - cbn [app print]. by destruct (print e s2).
    - cbn [app print]. replace (c =? 0) with false by lia.
      destruct (if c =? 10 then _ else _) as [e1 tr1].
      rewrite IH. destruct (print e1 s1) as [e2 tr2].
      destruct (print e2 s2) as [e3 tr3]. by rewrite app_assoc. }
  split; [apply Happ|]. unfold println. by rewrite Happ.
Qed.

Lemma print_in_pieces_witness :
  print begin ([72; 105] ++ [33]) =
    (let '(e1, tr1) := print begin [72; 105] in
     let '(e2, tr2) := print e1 [33] in
     (e2, tr1 ++ tr2)) /\
  println begin [72; 105] = print begin ([72; 105] ++ [10]).
Proof. apply (print_in_pieces begin [72; 105] [33]). repeat constructor; lia. Defined.

(** ** The cursor stream: a string that fits on the line *)

(** When a plain string fits on the current line (wrapping is off, or
    there is room for one more character after it before the right edge
    of the text area), [print] draws exactly what [text] draws at the
    cursor with the current colours and size, moves the cursor right by
    [8 * text_size] per character and leaves its [y] alone. *)
Theorem print_on_one_line (e : Engine) (str : list Z) :
  Forall plain str ->
  1 <= text_size e <= 31 ->
  in_int16 (cursor_x e) ->
  cursor_x e + Z.of_nat (length str) * (text_size e * 8) <= 32767 ->
  text_wrap e = false \/
  cursor_x e + (Z.of_nat (length str) + 1) * (text_size e * 8)
    <= text_area_x e + text_area_w e ->
  print e str =
    (with_cursor e (cursor_x e + Z.of_nat (length str) * (text_size e * 8)) (cursor_y e),
     text e (cursor_x e) (cursor_y e) str (text_color e) (text_bg_color e) (text_size e)).
Proof.
  intros Hplain. unfold text. generalize (cursor_x e) at 5 as x0. revert e.
  induction Hplain as [|c str (Hc & Hnl & Hcr) _ IH]; intros e x0 Hsize Hcx Hfit Hroom.
  - cbn [print text_loop length].
    replace (cursor_x e + Z.of_nat 0 * (text_size e * 8)) with (cursor_x e) by lia.
    by rewrite with_cursor_id.
  - cbn [print text_loop]. replace (c =? 0) with false by lia.
    replace (c =? 10) with false by lia. replace (c =? 13) with false by lia.
    replace ((c >=? 0) && (c <=? 127)) with true by lia. cbn [negb].
    rewrite length_cons, Nat2Z.inj_succ in *. unfold in_int16 in *.
    assert (uint8 (text_size e * 8) = text_size e * 8) as ->
      by (unfold uint8; apply Z.mod_small; lia).
    unfold advanceCursor.
    rewrite (int16_id (cursor_x e + text_size e * 8)) by (unfold in_int16; nia).
    cbn [text_wrap cursor_x cursor_y text_area_x text_area_w with_cursor].
    replace (text_wrap e &&
             (cursor_x e + text_size e * 8 + text_size e * 8 >? text_area_x e + text_area_w e))
      with false by (destruct Hroom as [-> | Hroom]; [done|]; destruct (text_wrap e); nia).
    rewrite (IH (with_cursor e (cursor_x e + text_size e * 8) (cursor_y e)) x0);
      cbn [text_size cursor_x cursor_y text_wrap text_area_x text_area_w text_color
           text_bg_color with_cursor]; try done; try nia.
    + rewrite app_nil_r. f_equal.
      * unfold with_cursor. cbn. f_equal. lia.
      * f_equal. apply text_loop_same, same_screen_with_cursor.
    + destruct Hroom as [?|?]; [by left|right; nia].
Qed.

Lemma print_on_one_line_witness :
  print (setCursor begin 10 10) [65; 66] =
    (with_cursor (setCursor begin 10 10) (10 + Z.of_nat (length [65; 66]) * (1 * 8)) 10,
     text (setCursor begin 10 10) 10 10 [65; 66] COLOR_WHITE COLOR_BLACK 1).
Proof.
  apply (print_on_one_line (setCursor begin 10 10) [65; 66]).
  - repeat constructor; lia.
  - simpl; lia.
  - unfold in_int16; simpl; lia.
  - simpl; lia.
  - right. vm_compute. discriminate.
Defined.


(** ** The cursor stream: what printing changes *)

Lemma with_cursor_twice e a b a' b' :
  with_cursor (with_cursor e a b) a' b' = with_cursor e a' b'.
Proof. done. Qed.

Lemma newLine_moves e : exists x y, (newLine e).1 = with_cursor e x y.
Proof. unfold newLine, clearTextArea. case_match; by eexists _, _. Qed.

Lemma print_char_moves e c : exists x y, (print_char e c).1 = with_cursor e x y.
Proof.
  unfold print_char.
  destruct (c =? 10); [apply newLine_moves|].
  destruct (c =? 13); [by eexists _, _|].
  destruct (_ && _); [|exists (cursor_x e), (cursor_y e); by rewrite with_cursor_id].
  unfold advanceCursor.
  destruct (_ && _).
  - destruct (newLine_moves (with_cursor e (int16 (cursor_x e + uint8 (text_size e * 8)))
                                         (cursor_y e))) as (x & y & Hmove).
    destruct (newLine _) as [e' tr]. simpl in *. subst e'. by eexists _, _.
  - by eexists _, _.
Qed.

Lemma print_moves (e : Engine) (str : list Z) :
  exists x y, (print e str).1 = with_cursor e x y.
Proof.
  revert e. induction str as [|c str IH]; intros e.
  - exists (cursor_x e), (cursor_y e). by rewrite with_cursor_id.
  - cbn [print]. destruct (c =? 0).
    { exists (cursor_x e), (cursor_y e). by rewrite with_cursor_id. }
    pose proof (print_char_moves e c) as (x & y & Hstep). unfold print_char in Hstep.
    destruct (if c =? 10 then _ else _) as [e1 tr1]. simpl in Hstep. subst e1.
    destruct (IH (with_cursor e x y)) as (x' & y' & Hrest).
    destruct (print (with_cursor e x y) str) as [e2 tr2]. simpl in *. subst e2.
    by eexists _, _.
Qed.

(** Printing moves the cursor and draws; it changes nothing else of the
    engine state: not the colours, the size, the wrap flag, the line
    spacing, the text area, the rotation or the logical dimensions. *)
Theorem print_only_moves_the_cursor (e : Engine) (str : list Z) :
  exists x y, (print e str).1 = with_cursor e x y.
Proof. apply print_moves. Qed.

(** ** The cursor stream: the cursor stays in the text area *)

Lemma newLine_in_area e :
  cursor_in_area (newLine e).1.
Proof.
  unfold newLine, clearTextArea, cursor_in_area.
  destruct (_ >? _) eqn:Hover; simpl in *; [by split; left|].
  split; [by left|right; lia].
Qed.

Lemma print_char_in_area e c :
  text_wrap e = true -> cursor_in_area e -> cursor_in_area (print_char e c).1.
Proof.
  intros Hwrap Hin. unfold print_char.
  destruct (c =? 10); [apply newLine_in_area|].
  destruct (c =? 13).
  { destruct Hin as [_ Hy]. split; [by left|done]. }
  destruct (_ && _); [|done].
  unfold advanceCursor. cbn [text_wrap with_cursor]. rewrite Hwrap. cbn [andb].
  destruct (_ >? _) eqn:Hover.
  - pose proof (newLine_in_area (with_cursor e (int16 (cursor_x e + uint8 (text_size e * 8)))
                                             (cursor_y e))) as Hnl.
    by destruct (newLine _).
  - destruct Hin as [_ Hy]. split; [right; simpl in *; lia|done].
Qed.

(** With wrapping on, printing keeps the cursor where the next glyph
    fits: at the left edge of the text area or at least one character
    before its right edge, and at the top of the area or at least one
    line of glyphs above its bottom edge. *)
Theorem print_keeps_the_cursor_in_the_area (e : Engine) (str : list Z) :
  text_wrap e = true -> cursor_in_area e -> cursor_in_area (print e str).1.
Proof.
  revert e. induction str as [|c str IH]; intros e Hwrap Hin; [done|].
  cbn [print]. destruct (c =? 0); [done|].
  pose proof (print_char_in_area e c Hwrap Hin) as Hstep.
  pose proof (print_char_moves e c) as (x & y & Hmove).
  unfold print_char in Hstep, Hmove.
  destruct (if c =? 10 then _ else _) as [e1 tr1]. simpl in Hstep, Hmove.
  assert (text_wrap e1 = true) as Hwrap1 by by subst e1.
  specialize (IH e1 Hwrap1 Hstep). by destruct (print e1 str).
Qed.

Lemma print_keeps_the_cursor_in_the_area_witness :
  cursor_in_area (print begin (replicate 150 65)).1.
Proof.
  apply (print_keeps_the_cursor_in_the_area begin (replicate 150 65)).
  - reflexivity.
  - split; by left.
Defined.

(** ** The text settings stay in their ranges *)

(** The size multiplier is always within 1-10 and the line spacing within
    0-20: [begin] sets them so, the two setters refuse anything else, and
    no other routine assigns them. *)
Theorem settings_stay_in_range (e : Engine) :
  settings_ok begin /\
  (settings_ok e ->
   (forall size, settings_ok (setTextSize e size)) /\
   (forall spacing, settings_ok (setLineSpacing e spacing)) /\
   (forall r, settings_ok (setRotation e r)) /\
   (forall x y, settings_ok (setCursor e x y)) /\
   (forall color bg, settings_ok (setTextColor e color bg)) /\
   (forall wrap, settings_ok (setTextWrap e wrap)) /\
   (forall x y w h, settings_ok (setTextArea e x y w h)) /\
   settings_ok (clearTextArea e).1 /\
   (forall str, settings_ok (print e str).1) /\
   (forall c, settings_ok (print_char e c).1) /\
   (forall str, settings_ok (println e str).1)).
Proof.
  split; [unfold settings_ok; simpl; lia|]. intros Hset.
  assert (forall e' str, settings_ok e' -> settings_ok (print e' str).1) as Hprint.
  { intros e' str He'. destruct (print_moves e' str) as (x & y & ->).
    done. }
  split_and!.
  - intros size. unfold setTextSize. destruct (_ && _) eqn:Hs; [|done].
    destruct Hset. split; simpl; [lia|done].
  - intros spacing. unfold setLineSpacing. destruct (_ && _) eqn:Hs; [|done].
    destruct Hset. split; simpl; [done|lia].
  - intros r. by destruct r.
  - done.
  - done.
  - done.
  - done.
  - done.
  - intros str. by apply Hprint.
  - intros c. destruct (print_char_moves e c) as (x & y & ->). done.
  - intros str. unfold println. pose proof (Hprint e str Hset) as H1.
    destruct (print e str) as [e1 tr1]. simpl in H1.
    pose proof (Hprint e1 [10] H1) as H2. by destruct (print e1 [10]).
Qed.

Lemma settings_stay_in_range_witness :
  settings_ok (setTextSize begin 200) /\ settings_ok (print begin [72; 105]).1.
Proof.
  destruct (settings_stay_in_range begin) as (Hbegin & Hkeep).
  destruct (Hkeep Hbegin) as (Hsize & _ & _ & _ & _ & _ & _ & _ & Hprint & _).
  split; [apply Hsize|apply Hprint].
Defined.


(** ** Word wrapping: the word buffer *)

Lemma overruns_drawn_before tr r : overruns (drawn_before tr r) = overruns r.
Proof. by destruct r. Qed.

Section WordBuffer.
Variables (e : Engine) (x maxWidth color size line_height : Z).

(** The buffer holds the first 49 bytes of the current word. *)
Lemma printWrapped_loop_overruns str :
  forall word W cx cy,
    Forall (fun c => c <> 0) str ->
    length word = Nat.min 49 (length W) ->
    (str = [] -> W = []) ->
    overruns (printWrapped_loop e x maxWidth color size line_height str cx cy word) = true
    <-> (50 <= length (last_word W str))%nat.
Proof.
  induction str as [|c str IH]; intros word W cx cy Hnz Hlen Hempty.
  { rewrite (Hempty eq_refl). simpl. split; [done|lia]. }
  apply Forall_cons in Hnz as [Hc Hnz].
  cbn [printWrapped_loop last_word]. replace (c =? 0) with false by lia.
  destruct (is_separator c) eqn:Hsep; cbn [orb negb andb].
  - (* a separator: the word is flushed, the terminator fits *)
    replace (Z.of_nat (length word) <? WORD_BUFFER_SIZE) with true
      by (unfold WORD_BUFFER_SIZE; lia).
    cbn [negb].
    destruct (if (_ && _) then _ else _) as [cx1 cy1].
    destruct (if c =? 32 then _ else _) as [cx2 cy2].
    rewrite overruns_drawn_before.
    destruct str as [|c' str'].
    + simpl. split; [done|lia].
    + apply IH; [done|done|done].
  - destruct str as [|c' str'].
    + (* the last byte of the string: stored unguarded, then the terminator *)
      cbn [orb andb negb last_word].
      replace (Z.of_nat (length word) <? WORD_BUFFER_SIZE) with true
        by (unfold WORD_BUFFER_SIZE; lia).
      cbn [negb]. rewrite !length_app. cbn [length].
      destruct (Z.ltb_spec (Z.of_nat (length word + 1)) WORD_BUFFER_SIZE) as [Hfit|Hfit];
        unfold WORD_BUFFER_SIZE in Hfit; cbn [negb].
      * destruct (if (_ && _) then _ else _) as [cx1 cy1].
        destruct (if c =? 32 then _ else _) as [cx2 cy2].
        rewrite overruns_drawn_before. cbn [printWrapped_loop overruns].
        split; [done|lia].
      * cbn [overruns]. split; [lia|done].
    + apply Forall_cons in Hnz as [Hc' Hnz'].
      replace (c' =? 0) with false by lia. cbn [orb].
      apply IH; [by constructor| |done].
      destruct (Z.ltb_spec (Z.of_nat (length word)) 49) as [Hroom|Hroom];
        rewrite ?length_app; cbn [length]; lia.
Qed.

(** The bytes of a word are collected up to the 49th; the rest of the
    word is dropped. *)
Lemma printWrapped_loop_collects w :
  forall k word cx cy,
    Forall word_byte w ->
    (length word <= 49)%nat ->
    match k with [] => False | c :: _ => c <> 0 end ->
    printWrapped_loop e x maxWidth color size line_height (w ++ k) cx cy word =
    printWrapped_loop e x maxWidth color size line_height k cx cy (take 49 (word ++ w)).
Proof.
  induction w as [|c w IH]; intros k word cx cy Hw Hlen Hk.
  { rewrite app_nil_r, app_nil_l. by rewrite take_ge by lia. }
  apply Forall_cons in Hw as [[Hc Hsep] Hw].
  cbn [app printWrapped_loop]. replace (c =? 0) with false by lia. rewrite Hsep.
  assert (match w ++ k with [] => true | c' :: _ => c' =? 0 end = false) as ->.
  { destruct w as [|c' w']; simpl.
    - destruct k; [done|lia].
    - apply Forall_cons in Hw as [[? _] _]. lia. }
  cbn [orb]. rewrite IH; [|done| |done].
  - f_equal. destruct (Z.ltb_spec (Z.of_nat (length word)) 49) as [Hroom|Hroom].
    + by rewrite <- app_assoc.
    + rewrite !take_app_le by lia. done.
  - destruct (Z.ltb_spec (Z.of_nat (length word)) 49) as [Hroom|Hroom];
      rewrite ?length_app; cbn [length]; lia.
Qed.

(** What comes before a word in the string only decides where the word
    starts and what the buffer holds by then. *)
Lemma printWrapped_loop_congr pre k1 k2 :
  Forall (fun c => c <> 0) pre ->
  match k1 with [] => False | c :: _ => c <> 0 end ->
  match k2 with [] => False | c :: _ => c <> 0 end ->
  (forall cx cy word, (length word <= 49)%nat ->
     printWrapped_loop e x maxWidth color size line_height k1 cx cy word =
     printWrapped_loop e x maxWidth color size line_height k2 cx cy word) ->
  forall cx cy word, (length word <= 49)%nat ->
    printWrapped_loop e x maxWidth color size line_height (pre ++ k1) cx cy word =
    printWrapped_loop e x maxWidth color size line_height (pre ++ k2) cx cy word.
Proof.
  intros Hpre Hk1 Hk2 Hk.
  induction Hpre as [|c pre Hc Hpre IH]; intros cx cy word Hlen; [by apply Hk|].
  assert (forall k, match k with [] => False | c' :: _ => c' <> 0 end ->
            match pre ++ k with [] => true | c' :: _ => c' =? 0 end = false) as Hnext.
  { intros k Hnz. destruct Hpre as [|c' pre' Hc' _]; simpl.
    - destruct k; [done|lia].
    - lia. }
  cbn [app printWrapped_loop]. replace (c =? 0) with false by lia.
  rewrite !Hnext by done. rewrite !orb_false_r.
  destruct (is_separator c); cbn [negb andb].
  - destruct (negb (_ <? WORD_BUFFER_SIZE)); [done|].
    destruct (if (_ && _) then _ else _) as [cx1 cy1].
    destruct (if c =? 32 then _ else _) as [cx2 cy2].
    rewrite IH; [done|simpl; lia].
  - apply IH.
    destruct (Z.ltb_spec (Z.of_nat (length word)) 49) as [Hroom|Hroom];
      rewrite ?length_app; cbn [length]; lia.
Qed.
End WordBuffer.

(** [printWrapped] writes past the end of its word buffer exactly when
    the string ends with a word of 50 bytes or more: a word that is
    followed by a separator never overruns the buffer, however long. *)
Theorem printWrapped_overruns_iff (e : Engine) (x y maxWidth : Z) (str : list Z)
    (color size : Z) :
  Forall (fun c => c <> 0) str ->
  overruns (printWrapped e x y maxWidth str color size) = true
  <-> (50 <= length (last_word [] str))%nat.
Proof. intros Hnz. unfold printWrapped. by apply printWrapped_loop_overruns. Qed.

Lemma printWrapped_overruns_iff_witness :
  overruns (printWrapped begin 0 0 800 (replicate 60 97 ++ [32; 98]) COLOR_WHITE 1) = true
  <-> (50 <= length (last_word [] (replicate 60 97%Z ++ [32%Z; 98%Z])))%nat.
Proof.
  apply (printWrapped_overruns_iff begin 0 0 800 (replicate 60 97 ++ [32; 98])).
  apply Forall_app. split; [|repeat constructor; lia].
  apply Forall_replicate. lia.
Defined.

(** A word followed by a separator is cut to its first 49 bytes,
    wherever it stands in a string without NUL bytes: the string is laid
    out and drawn as if the bytes of the word after the 49th were not
    there.  ([pre] is what comes before the word; the same holds when
    [pre] ends inside a word and [w] is the rest of it.) *)
Theorem printWrapped_truncates_long_words (e : Engine) (x y maxWidth : Z)
    (pre w rest : list Z) (sep color size : Z) :
  Forall (fun c => c <> 0) pre ->
  Forall word_byte w -> is_separator sep = true ->
  printWrapped e x y maxWidth (pre ++ w ++ sep :: rest) color size =
  printWrapped e x y maxWidth (pre ++ take 49 w ++ sep :: rest) color size.
Proof.
  intros Hpre Hw Hsep. unfold printWrapped.
  assert (sep <> 0) as Hnz by (intros ->; done).
  assert (forall v, Forall word_byte v ->
            match v ++ sep :: rest with [] => False | c :: _ => c <> 0 end) as Hhead.
  { intros v Hv. destruct Hv as [|c v [Hc _] _]; simpl; done. }
  apply printWrapped_loop_congr; [done|by apply Hhead|by apply Hhead, Forall_take| |simpl; lia].
  intros cx cy word Hlen.
  rewrite !printWrapped_loop_collects;
    [|by apply Forall_take|done|simpl; lia|done|done|simpl; lia].
  f_equal. rewrite !take_app, take_take. f_equal. f_equal. lia.
Qed.

Lemma printWrapped_truncates_long_words_witness :
  printWrapped begin 0 0 800 ([72; 105; 32] ++ replicate 60 97 ++ 32 :: [98])
    COLOR_WHITE 1 =
  printWrapped begin 0 0 800 ([72; 105; 32] ++ take 49 (replicate 60 97) ++ 32 :: [98])
    COLOR_WHITE 1.
Proof.
  apply (printWrapped_truncates_long_words begin 0 0 800 [72; 105; 32]
           (replicate 60 97) [98] 32).
  - repeat constructor; lia.
  - apply Forall_replicate. split; [lia|reflexivity].
  - reflexivity.
Defined.


(** ** Word wrapping: where the words go *)

Section WordLayout.
Variables (e : Engine) (x maxWidth color size line_height : Z).

(** A word of at most 49 bytes that ends the string. *)
Lemma printWrapped_loop_last_word w cx cy :
  Forall word_byte w -> w <> [] -> (length w <= 49)%nat ->
  printWrapped_loop e x maxWidth color size line_height w cx cy [] =
  let p := word_position x maxWidth line_height (int16 (Z.of_nat (length w) * size * 8)) cx cy in
  Wrapped (text e p.1 p.2 w color (text_bg_color e) size).
Proof.
  intros Hw Hne Hlen. destruct w as [|c w _] using rev_ind; [done|].
  apply Forall_app in Hw as [Hw Hc]. apply Forall_singleton in Hc as [Hc Hsep].
  rewrite length_app in Hlen. cbn [length] in Hlen.
  rewrite printWrapped_loop_collects; [|done|simpl; lia|done].
  rewrite app_nil_l, take_ge by lia.
  cbn [printWrapped_loop]. replace (c =? 0) with false by lia. rewrite Hsep.
  cbn [orb negb andb].
  replace (Z.of_nat (length w) <? WORD_BUFFER_SIZE) with true
    by (unfold WORD_BUFFER_SIZE; lia).
  replace (Z.of_nat (length (w ++ [c])) <? WORD_BUFFER_SIZE) with true
    by (symmetry; apply Z.ltb_lt; rewrite length_app; cbn [length];
        unfold WORD_BUFFER_SIZE; lia).
  cbn [negb]. unfold word_position.
  destruct (_ && _); cbn [fst snd];
    (destruct (c =? 32); [|destruct (c =? 10); [|destruct (c =? 9)]]);
    cbn [drawn_before]; by rewrite app_nil_r.
Qed.

(** A word of at most 49 bytes followed by a blank. *)
Lemma printWrapped_loop_word_blank w rest cx cy :
  Forall word_byte w -> (length w <= 49)%nat ->
  printWrapped_loop e x maxWidth color size line_height (w ++ 32 :: rest) cx cy [] =
  let ww := int16 (Z.of_nat (length w) * size * 8) in
  let p := word_position x maxWidth line_height ww cx cy in
  drawn_before (text e p.1 p.2 w color (text_bg_color e) size)
    (printWrapped_loop e x maxWidth color size line_height rest
       (int16 (int16 (p.1 + ww) + size * 8)) p.2 []).
Proof.
  intros Hw Hlen.
  rewrite printWrapped_loop_collects; [|done|simpl; lia|simpl; lia].
  rewrite app_nil_l, take_ge by lia.
  cbn [printWrapped_loop]. change (32 =? 0) with false. change (is_separator 32) with true.
  cbn [orb negb andb]. 
  replace (Z.of_nat (length w) <? WORD_BUFFER_SIZE) with true
    by (unfold WORD_BUFFER_SIZE; lia).
  cbn [negb]. unfold word_position. change (32 =? 32) with true.
  by destruct (_ && _).
Qed.
End WordLayout.

(** A string that is one word of at most 49 bytes is drawn by [text] at
    [(x, y)] with the engine's background colour: the first word of a
    line is never wrapped, whatever [maxWidth] is. *)
Theorem printWrapped_single_word (e : Engine) (x y maxWidth : Z) (w : list Z)
    (color size : Z) :
  Forall word_byte w -> w <> [] -> (length w <= 49)%nat ->
  printWrapped e x y maxWidth w color size =
  Wrapped (text e x y w color (text_bg_color e) size).
Proof.
  intros Hw Hne Hlen. unfold printWrapped.
  rewrite printWrapped_loop_last_word by done. cbv zeta. unfold word_position.
  replace (x >? x) with false by lia. by rewrite andb_false_r.
Qed.

Lemma printWrapped_single_word_witness :
  printWrapped begin 10 20 0 [72; 105] COLOR_WHITE 2 =
  Wrapped (text begin 10 20 [72; 105] COLOR_WHITE (text_bg_color begin) 2).
Proof.
  apply (printWrapped_single_word begin 10 20 0 [72; 105] COLOR_WHITE 2).
  - repeat constructor; lia.
  - discriminate.
  - simpl. lia.
Defined.

(** Two words of at most 49 bytes each, separated by a blank, at sizes
    1-10 and 16-bit coordinates: the first is drawn at [(x, y)]; the
    second follows one blank further on the same line when it ends at or
    before [x + maxWidth], and otherwise starts a new line at [x], one
    glyph height plus the line spacing lower. *)
Theorem printWrapped_wraps_the_second_word (e : Engine) (x y maxWidth : Z)
    (w1 w2 : list Z) (color size : Z) :
  Forall word_byte w1 -> Forall word_byte w2 -> w2 <> [] ->
  (length w1 <= 49)%nat -> (length w2 <= 49)%nat ->
  1 <= size <= 10 -> 0 <= line_spacing e <= 255 ->
  in_int16 x -> in_int16 (x + (Z.of_nat (length w1) + 1) * size * 8) ->
  in_int16 y -> in_int16 (y + size * 8 + line_spacing e) ->
  let bg := text_bg_color e in
  let advance := (Z.of_nat (length w1) + 1) * size * 8 in
  let fits := x + advance + Z.of_nat (length w2) * size * 8 <=? x + maxWidth in
  printWrapped e x y maxWidth (w1 ++ 32 :: w2) color size =
  Wrapped (text e x y w1 color bg size ++
           if fits then text e (x + advance) y w2 color bg size
           else text e x (y + size * 8 + line_spacing e) w2 color bg size).
Proof.
  intros Hw1 Hw2 Hne Hl1 Hl2 Hsize Hls Hx Hadv Hy Hnext bg advance fits.
  assert (forall lh ww, word_position x maxWidth lh ww x y = (x, y)) as Hfirst.
  { intros lh ww. unfold word_position.
    replace (x >? x) with false by lia. by rewrite andb_false_r. }
  unfold in_int16 in *. unfold printWrapped.
  rewrite (int16_id (size * 8 + _)) by (unfold in_int16; lia).
  rewrite printWrapped_loop_word_blank by done. cbv zeta.
  rewrite Hfirst. cbn [fst snd].
  rewrite (int16_id (Z.of_nat (length w1) * size * 8)) by (unfold in_int16; nia).
  rewrite (int16_id (x + _)) by (unfold in_int16; nia).
  rewrite (int16_id (x + _ + _)) by (unfold in_int16; nia).
  rewrite printWrapped_loop_last_word by done. cbv zeta. cbn [drawn_before].
  rewrite (int16_id (Z.of_nat (length w2) * size * 8)) by (unfold in_int16; nia).
  unfold word_position. subst fits advance bg. f_equal. f_equal.
  destruct (Z.leb_spec (x + (Z.of_nat (length w1) + 1) * size * 8
                        + Z.of_nat (length w2) * size * 8) (x + maxWidth)) as [Hfit|Hfit].
  - replace (_ >? x + maxWidth) with false by lia. cbn [andb fst snd].
    f_equal; lia.
  - replace (_ >? x + maxWidth) with true by lia.
    replace (_ >? x) with true by nia. cbn [andb fst snd].
    rewrite (int16_id (y + _)) by (unfold in_int16; lia).
    f_equal; lia.
Qed.

Lemma printWrapped_wraps_the_second_word_witness :
  printWrapped begin 0 0 100 ([72; 101; 108; 108; 111] ++ 32 :: [119; 111; 114; 108; 100])
    COLOR_WHITE 2 =
  Wrapped (text begin 0 0 [72; 101; 108; 108; 111] COLOR_WHITE (text_bg_color begin) 2 ++
           text begin 0 (0 + 2 * 8 + line_spacing begin) [119; 111; 114; 108; 100]
             COLOR_WHITE (text_bg_color begin) 2).
Proof.
  apply (printWrapped_wraps_the_second_word begin 0 0 100
           [72; 101; 108; 108; 111] [119; 111; 114; 108; 100] COLOR_WHITE 2).
  - repeat constructor; lia.
  - repeat constructor; lia.
  - discriminate.
  - simpl. lia.
  - simpl. lia.
  - lia.
  - simpl. lia.
  - unfold in_int16. lia.
  - unfold in_int16. simpl. lia.
  - unfold in_int16. lia.
  - unfold in_int16. simpl. lia.
Defined.

(** ** Word wrapping: what it reads *)

Lemma printWrapped_loop_same e e' x maxWidth color size line_height str :
  same_screen e e' -> text_bg_color e = text_bg_color e' ->
  forall cx cy word,
    printWrapped_loop e x maxWidth color size line_height str cx cy word =
    printWrapped_loop e' x maxWidth color size line_height str cx cy word.
Proof.
  intros Hs Hbg. induction str as [|c str IH]; intros cx cy word; [done|].
  cbn [printWrapped_loop]. rewrite <- Hbg.
  destruct (c =? 0); [done|].
  destruct (is_separator c || _); [|apply IH].
  destruct (negb (is_separator c) && _); [done|].
  destruct (negb (_ <? WORD_BUFFER_SIZE)); [done|].
  destruct (if (_ && _) then _ else _) as [cx1 cy1].
  destruct (if c =? 32 then _ else _) as [cx2 cy2].
  unfold text. rewrite (text_loop_same e e') by done. by rewrite IH.
Qed.

(** Of the engine's state [printWrapped] reads only the screen (rotation
    and dimensions), the text background colour and the line spacing:
    the cursor, the text area, the text colour, the text size and the
    wrap flag have no influence on what it draws. *)
Theorem printWrapped_ignores_the_cursor_and_text_area (e e' : Engine)
    (x y maxWidth : Z) (str : list Z) (color size : Z) :
  same_screen e e' -> text_bg_color e = text_bg_color e' ->
  line_spacing e = line_spacing e' ->
  printWrapped e x y maxWidth str color size =
  printWrapped e' x y maxWidth str color size.
Proof.
  intros Hs Hbg Hls. unfold printWrapped. rewrite <- Hls.
  by apply printWrapped_loop_same.
Qed.

Lemma printWrapped_ignores_the_cursor_and_text_area_witness :
  printWrapped begin 0 0 100 [72; 105; 32; 79; 75] COLOR_WHITE 1 =
  printWrapped (setTextArea (setCursor begin 40 40) 8 8 64 64) 0 0 100
    [72; 105; 32; 79; 75] COLOR_WHITE 1.
Proof.
  apply (printWrapped_ignores_the_cursor_and_text_area begin
           (setTextArea (setCursor begin 40 40) 8 8 64 64)).
  - repeat split.
  - reflexivity.
  - reflexivity.
Defined.
